(** * Bounded producer/consumer buffer of the concurrency demonstrations

    Embedding of
    - [concepts/03_condition_variables/03_producer_consumer.c]
      (mutex and two condition variables), module [CondVar];
    - [concepts/04_semaphores/03_producer_consumer.c]
      (three counting semaphores), module [Semaphores];
    - [concepts/03_condition_variables/04_spurious_wakeup.c], module
      [SpuriousWakeup].

    Every thread is a small machine over the statements of its C function:
    a program location, its local variables, and one transition per
    statement that touches shared memory or a synchronisation object.  A
    configuration is the shared memory plus the list of threads; a schedule
    is the list of thread indices in the order in which they take a
    transition. *)

From Stdlib Require Import ZArith Lia List.
From stdpp Require Import base option list.
Local Open Scope Z_scope.

(** ** C [int] arithmetic *)

Module CInt.

Definition INT_MAX : Z := 2147483647.
Definition INT_MIN : Z := -2147483648.

(** Two's complement reduction of a mathematical integer to 32 bits. *)
Definition wrap (z : Z) : Z := (z - INT_MIN) mod 4294967296 + INT_MIN.

Definition add (a b : Z) : Z := wrap (a + b).
Definition sub (a b : Z) : Z := wrap (a - b).
Definition mul (a b : Z) : Z := wrap (a * b).
(** [/] and [%] truncate towards zero (C99 6.5.5). *)
Definition div (a b : Z) : Z := wrap (Z.quot a b).
Definition rem (a b : Z) : Z := wrap (Z.rem a b).

Definition in_range (z : Z) : Prop := INT_MIN <= z <= INT_MAX.

End CInt.

(** ** Schedules *)

Module Machine.

Section Run.

Context {config event : Type}.

(** [step t c]: thread [t] takes one transition from [c], or cannot. *)
Variable step : nat → config → option (config * list event).

(** Run a whole schedule, collecting the events in order.  [None]: some
    thread of the schedule could not take its turn. *)
Fixpoint run (sched : list nat) (c : config) : option (config * list event) :=
  match sched with
  | [] => Some (c, [])
  | t :: rest =>
      match step t c with
      | Some (c1, e1) =>
          match run rest c1 with
          | Some (c2, e2) => Some (c2, e1 ++ e2)
          | None => None
          end
      | None => None
      end
  end.

(** A scheduler for experiments: at each turn the first thread, counting
    cyclically from [from], that can take a transition. *)
Fixpoint first_enabled (n : nat) (from total : nat) (c : config) : option nat :=
  match n with
  | O => None
  | S n =>
      match step (from mod total)%nat c with
      | Some _ => Some (from mod total)%nat
      | None => first_enabled n (S from) total c
      end
  end.

Fixpoint round_robin (fuel : nat) (from total : nat) (c : config) : list nat :=
  match fuel with
  | O => []
  | S fuel =>
      match first_enabled total from total c with
      | Some t =>
          match step t c with
          | Some (c', _) => t :: round_robin fuel (S t) total c'
          | None => []
          end
      | None => []
      end
  end.

End Run.

(** Number of transitions of thread [t] in a schedule. *)
Definition turns (t : nat) (sched : list nat) : nat :=
  length (filter (λ u, u = t) sched).

End Machine.

(** ** Mutex and two condition variables *)

Module CondVar.

(** Program locations of [producer] (P_) and [consumer] (C_).  A location
    names the statement the thread executes next. *)
Inductive loc : Set :=
| P_for      (* for (...; i < NUM_ITEMS / 2; ...)  and  item = id * 100 + i *)
| P_lock     (* pthread_mutex_lock(&mutex) *)
| P_while    (* while (count == BUFFER_SIZE), mutex held *)
| P_wait     (* asleep inside pthread_cond_wait(&not_full, &mutex) *)
| P_relock   (* woken inside pthread_cond_wait, taking the mutex again *)
| P_write    (* buffer[in] = item *)
| P_adv      (* in = (in + 1) % BUFFER_SIZE *)
| P_inc      (* count++ *)
| P_signal   (* printf; pthread_cond_signal(&not_empty) *)
| P_unlock   (* pthread_mutex_unlock(&mutex); usleep; i++ *)
| P_ret      (* return NULL *)
| C_for      (* for (...; i < NUM_ITEMS / 2; ...) *)
| C_lock     (* pthread_mutex_lock(&mutex) *)
| C_while    (* while (count == 0), mutex held *)
| C_wait     (* asleep inside pthread_cond_wait(&not_empty, &mutex) *)
| C_relock   (* woken inside pthread_cond_wait, taking the mutex again *)
| C_read     (* int item = buffer[out] *)
| C_adv      (* out = (out + 1) % BUFFER_SIZE *)
| C_dec      (* count-- *)
| C_signal   (* printf; pthread_cond_signal(&not_full) *)
| C_unlock   (* pthread_mutex_unlock(&mutex); usleep; i++ *)
| C_ret.     (* return NULL *)

#[global] Instance loc_eq_dec : EqDecision loc.
Proof. solve_decision. Defined.

(** Automatic variables of a thread. *)
Record local : Set := Local { id : Z; i : Z; item : Z; pc : loc }.

(** The globals.  [mutex] records the index of the thread that holds the
    lock.  The condition variables carry no state of their own here: the
    threads asleep on [not_full] are those at [P_wait], the threads asleep
    on [not_empty] those at [C_wait]. *)
Record shared : Set :=
  Shared { buffer : list Z; count : Z; in_ : Z; out : Z; mutex : option nat }.

(** Accesses to the circular buffer, the observable events of a run. *)
Inductive event : Set :=
| Put (t : nat) (x : Z)     (* thread [t] stored [x] *)
| Take (t : nat) (x : Z).   (* thread [t] fetched [x] *)

Inductive outcome : Set :=
| Step (s : shared) (l : local) (e : list event)
| Wait          (* the call blocks in this state *)
| Done          (* the thread has returned *)
| Undefined.    (* array access outside [buffer] *)

(** Result of a call made by a thread on its own. *)
Inductive reply : Set :=
| Returned (s : shared) (l : local) (e : list event)
| Suspended   (* the thread sleeps on a condition variable or on the lock *)
| Stuck.      (* undefined behaviour *)

Definition goto (l : local) (p : loc) : local :=
  Local (id l) (i l) (item l) p.
Definition set_item (l : local) (x : Z) : local :=
  Local (id l) (i l) x (pc l).
Definition incr_i (l : local) : local :=
  Local (id l) (CInt.add (i l) 1) (item l) (pc l).

Definition set_buffer (s : shared) (b : list Z) : shared :=
  Shared b (count s) (in_ s) (out s) (mutex s).
Definition set_count (s : shared) (n : Z) : shared :=
  Shared (buffer s) n (in_ s) (out s) (mutex s).
Definition set_in (s : shared) (n : Z) : shared :=
  Shared (buffer s) (count s) n (out s) (mutex s).
Definition set_out (s : shared) (n : Z) : shared :=
  Shared (buffer s) (count s) (in_ s) n (mutex s).
Definition set_mutex (s : shared) (m : option nat) : shared :=
  Shared (buffer s) (count s) (in_ s) (out s) m.

Definition in_bounds (k : Z) (b : list Z) : bool :=
  (0 <=? k) && (k <? Z.of_nat (length b)).

Section Program.

Variables BUFFER_SIZE NUM_ITEMS : Z.

(** [(x + 1) % BUFFER_SIZE] *)
Definition advance (x : Z) : Z := CInt.rem (CInt.add x 1) BUFFER_SIZE.

(** One transition of thread [t].

    A sleeping thread ([P_wait], [C_wait]) may always take its wake-up
    transition: POSIX allows [pthread_cond_wait] to return without a
    signal, and a wake-up caused by [pthread_cond_signal] is the same
    transition taken after the signalling thread's [P_signal] / [C_signal].
    The woken thread still has to take the mutex back ([P_relock],
    [C_relock]) before [pthread_cond_wait] returns. *)
Definition thread_step (t : nat) (s : shared) (l : local) : outcome :=
  match pc l with
  | P_for =>
      if i l <? CInt.div NUM_ITEMS 2
      then Step s (goto (set_item l (CInt.add (CInt.mul (id l) 100) (i l))) P_lock) []
      else Step s (goto l P_ret) []
  | P_lock | P_relock =>
      match mutex s with
      | None => Step (set_mutex s (Some t)) (goto l P_while) []
      | Some _ => Wait
      end
  | P_while =>
      if count s =? BUFFER_SIZE
      then Step (set_mutex s None) (goto l P_wait) []
      else Step s (goto l P_write) []
  | P_wait => Step s (goto l P_relock) []
  | P_write =>
      if in_bounds (in_ s) (buffer s)
      then Step (set_buffer s (<[Z.to_nat (in_ s) := item l]> (buffer s)))
                (goto l P_adv) [Put t (item l)]
      else Undefined
  | P_adv => Step (set_in s (advance (in_ s))) (goto l P_inc) []
  | P_inc => Step (set_count s (CInt.add (count s) 1)) (goto l P_signal) []
  | P_signal => Step s (goto l P_unlock) []
  | P_unlock => Step (set_mutex s None) (goto (incr_i l) P_for) []
  | P_ret => Done
  | C_for =>
      if i l <? CInt.div NUM_ITEMS 2
      then Step s (goto l C_lock) []
      else Step s (goto l C_ret) []
  | C_lock | C_relock =>
      match mutex s with
      | None => Step (set_mutex s (Some t)) (goto l C_while) []
      | Some _ => Wait
      end
  | C_while =>
      if count s =? 0
      then Step (set_mutex s None) (goto l C_wait) []
      else Step s (goto l C_read) []
  | C_wait => Step s (goto l C_relock) []
  | C_read =>
      if in_bounds (out s) (buffer s)
      then match buffer s !! Z.to_nat (out s) with
           | Some x => Step s (goto (set_item l x) C_adv) [Take t x]
           | None => Undefined
           end
      else Undefined
  | C_adv => Step (set_out s (advance (out s))) (goto l C_dec) []
  | C_dec => Step (set_count s (CInt.sub (count s) 1)) (goto l C_signal) []
  | C_signal => Step s (goto l C_unlock) []
  | C_unlock => Step (set_mutex s None) (goto (incr_i l) C_for) []
  | C_ret => Done
  end.

(** The static initialisers: [int buffer[BUFFER_SIZE]] is zero-filled,
    [count = in = out = 0], the mutex is free. *)
Definition init_shared : shared :=
  Shared (replicate (Z.to_nat BUFFER_SIZE) 0) 0 0 0 None.

(** A thread as created by [pthread_create(.., producer, &id)] and
    [pthread_create(.., consumer, &id)]: at the head of its loop with
    [i = 0]. *)
Definition producer (n : Z) : local := Local n 0 0 P_for.
Definition consumer (n : Z) : local := Local n 0 0 C_for.

Definition created (l : local) : Prop :=
  l = producer (id l) ∨ l = consumer (id l).

Record config : Set := Config { sh : shared; threads : list local }.

Definition init (ts : list local) : config := Config init_shared ts.

(** [main]: two producers and two consumers, with ids 1 and 2. *)
Definition main_threads : list local :=
  [producer 1; producer 2; consumer 1; consumer 2].

(** Thread [t] takes one transition. [None]: it cannot (blocked, returned,
    no such thread, or undefined behaviour). *)
Definition sched_step (t : nat) (c : config) : option (config * list event) :=
  match threads c !! t with
  | Some l =>
      match thread_step t (sh c) l with
      | Step s' l' e => Some (Config s' (<[t := l']> (threads c)), e)
      | _ => None
      end
  | None => None
  end.

Definition run : list nat → config → option (config * list event) :=
  Machine.run sched_step.

(** A call run to its end by one thread on its own: [pthread_mutex_lock]
    to [pthread_mutex_unlock] of one iteration of [producer] (a put of
    [item]) or of [consumer] (a take). *)
Fixpoint call (fuel : nat) (s : shared) (l : local) : reply :=
  match fuel with
  | O => Stuck
  | S fuel =>
      match thread_step 0 s l with
      | Step s' l' e =>
          match pc l' with
          | P_for | C_for => Returned s' l' e
          | P_wait | C_wait => Suspended
          | _ =>
              match call fuel s' l' with
              | Returned s2 l2 e2 => Returned s2 l2 (e ++ e2)
              | r => r
              end
          end
      | Wait => Suspended
      | Done | Undefined => Stuck
      end
  end.

Definition put_call (s : shared) (x : Z) : reply := call 7 s (Local 0 0 x P_lock).
Definition take_call (s : shared) : reply := call 7 s (Local 0 0 0 C_lock).

End Program.

(** Items stored and items fetched, in the order of the accesses. *)
Fixpoint puts (tr : list event) : list Z :=
  match tr with
  | [] => []
  | Put _ x :: tr => x :: puts tr
  | Take _ _ :: tr => puts tr
  end.

Fixpoint takes (tr : list event) : list Z :=
  match tr with
  | [] => []
  | Put _ _ :: tr => takes tr
  | Take _ x :: tr => x :: takes tr
  end.

(** *** Invariants of the condition-variable program *)

(** Locations at which the thread holds the mutex. *)
Definition holds (p : loc) : bool :=
  match p with
  | P_while | P_write | P_adv | P_inc | P_signal | P_unlock
  | C_while | C_read | C_adv | C_dec | C_signal | C_unlock => true
  | _ => false
  end.

(** The mutex is held exactly by the thread that is between its lock and
    its unlock (or its wait). *)
Definition mutex_inv (c : config) : Prop :=
  ∀ t l, threads c !! t = Some l → (mutex (sh c) = Some t ↔ holds (pc l) = true).

(** Location of the thread inside the critical section, if any. *)
Definition owner_pc (c : config) : option loc :=
  match mutex (sh c) with
  | Some t => pc <$> threads c !! t
  | None => None
  end.

(** Inside the critical section the three variables are updated one after
    the other; the lags say how far each one is behind the number of
    stores and fetches already made. *)
Definition lag_in (o : option loc) : Z :=
  match o with Some P_adv => 1 | _ => 0 end.
Definition lag_out (o : option loc) : Z :=
  match o with Some C_adv => 1 | _ => 0 end.
Definition lag_count (o : option loc) : Z :=
  match o with
  | Some P_adv | Some P_inc => -1
  | Some C_adv | Some C_dec => 1
  | _ => 0
  end.

(** How a transition of thread [t] relates to the critical section: it
    stays outside, enters, leaves, or stays inside. *)
Inductive step_kind (t : nat) (s : shared) (l : local) (s' : shared) (l' : local)
  (e : list event) : Prop :=
| Outside : holds (pc l) = false → holds (pc l') = false → s' = s → e = [] →
            step_kind t s l s' l' e
| Acquire : holds (pc l) = false → holds (pc l') = true → mutex s = None →
            s' = set_mutex s (Some t) → e = [] →
            pc l' = P_while ∨ pc l' = C_while →
            step_kind t s l s' l' e
| Release : holds (pc l) = true → holds (pc l') = false →
            s' = set_mutex s None → e = [] →
            lag_in (Some (pc l)) = 0 → lag_out (Some (pc l)) = 0 →
            lag_count (Some (pc l)) = 0 →
            step_kind t s l s' l' e
| Inside : holds (pc l) = true → holds (pc l') = true → mutex s' = mutex s →
           step_kind t s l s' l' e.

Section Invariants.

Variable BUFFER_SIZE : Z.

(** [tr] is the sequence of buffer accesses made so far and [o] the
    location of the thread inside the critical section, if any.  With [W]
    stores and [R] fetches, the slots [R mod BUFFER_SIZE] to
    [(W-1) mod BUFFER_SIZE] hold the items stored and not yet fetched, in
    order. *)
Record data_ok (tr : list event) (s : shared) (o : option loc) : Prop := DataOk {
  ok_len : Z.of_nat (length (buffer s)) = BUFFER_SIZE;
  ok_in : in_ s = (Z.of_nat (length (puts tr)) - lag_in o) mod BUFFER_SIZE;
  ok_out : out s = (Z.of_nat (length (takes tr)) - lag_out o) mod BUFFER_SIZE;
  ok_count : count s =
             Z.of_nat (length (puts tr)) - Z.of_nat (length (takes tr))
             + lag_count o;
  ok_range : 0 <= count s <= BUFFER_SIZE;
  ok_occ : 0 <= Z.of_nat (length (puts tr)) - Z.of_nat (length (takes tr))
             <= BUFFER_SIZE;
  ok_room : o = Some P_write → count s < BUFFER_SIZE;
  ok_avail : o = Some C_read → 0 < count s;
  ok_slots : ∀ k : nat,
      (length (takes tr) <= k < length (puts tr))%nat →
      buffer s !! Z.to_nat (Z.of_nat k mod BUFFER_SIZE) = puts tr !! k;
  ok_fifo : takes tr = take (length (takes tr)) (puts tr)
}.

Definition data_inv (tr : list event) (c : config) : Prop :=
  data_ok tr (sh c) (owner_pc c).

Record inv (tr : list event) (c : config) : Prop := Inv {
  inv_mutex : mutex_inv c;
  inv_data : data_inv tr c
}.

(** The data after the three statements of the producer's critical
    section, and after those of the consumer's. *)
Definition stored (x : Z) (s : shared) : shared :=
  Shared (<[Z.to_nat (in_ s) := x]> (buffer s)) (count s + 1)
         ((in_ s + 1) mod BUFFER_SIZE) (out s) (mutex s).

Definition fetched (s : shared) : shared :=
  Shared (buffer s) (count s - 1) (in_ s)
         ((out s + 1) mod BUFFER_SIZE) (mutex s).

(** Progress of thread [t] through the producer's critical section, entered
    with data [s0] and item [x]: location and data after [k] of its three
    statements. *)
Definition put_stage_loc (k : nat) : loc :=
  match k with O => P_write | 1%nat => P_adv | 2%nat => P_inc | _ => P_signal end.

Definition put_stage_sh (x : Z) (s0 : shared) (k : nat) : shared :=
  let s1 := set_buffer s0 (<[Z.to_nat (in_ s0) := x]> (buffer s0)) in
  let s2 := set_in s1 (advance BUFFER_SIZE (in_ s0)) in
  match k with
  | O => s0
  | 1%nat => s1
  | 2%nat => s2
  | _ => set_count s2 (CInt.add (count s0) 1)
  end.

Definition in_put (t : nat) (x : Z) (s0 : shared) (k : nat) (c : config) : Prop :=
  ∃ l, threads c !! t = Some l ∧ item l = x ∧ pc l = put_stage_loc k
       ∧ sh c = put_stage_sh x s0 k.

(** The same for the consumer; [x] is the item it fetches. *)
Definition take_stage_loc (k : nat) : loc :=
  match k with O => C_read | 1%nat => C_adv | 2%nat => C_dec | _ => C_signal end.

Definition take_stage_sh (s0 : shared) (k : nat) : shared :=
  let s2 := set_out s0 (advance BUFFER_SIZE (out s0)) in
  match k with
  | O | 1%nat => s0
  | 2%nat => s2
  | _ => set_count s2 (CInt.sub (count s0) 1)
  end.

Definition in_take (t : nat) (x : Z) (s0 : shared) (k : nat) (c : config) : Prop :=
  ∃ l, threads c !! t = Some l ∧ (k ≠ O → item l = x) ∧ pc l = take_stage_loc k
       ∧ sh c = take_stage_sh s0 k.

End Invariants.

End CondVar.


(** ** Three counting semaphores *)

Module Semaphores.

Inductive loc : Set :=
| P_for          (* for (...; i < NUM_ITEMS / 2; ...)  and  item = id * 100 + i *)
| P_wait_empty   (* sem_wait(&empty) *)
| P_wait_mutex   (* sem_wait(&mutex) *)
| P_write        (* buffer[in] = item; printf *)
| P_adv          (* in = (in + 1) % BUFFER_SIZE *)
| P_post_mutex   (* sem_post(&mutex) *)
| P_post_full    (* sem_post(&full); usleep; i++ *)
| P_ret          (* return NULL *)
| C_for          (* for (...; i < NUM_ITEMS / 2; ...) *)
| C_wait_full    (* sem_wait(&full) *)
| C_wait_mutex   (* sem_wait(&mutex) *)
| C_read         (* int item = buffer[out]; printf *)
| C_adv          (* out = (out + 1) % BUFFER_SIZE *)
| C_post_mutex   (* sem_post(&mutex) *)
| C_post_empty   (* sem_post(&empty); usleep; i++ *)
| C_ret.         (* return NULL *)

#[global] Instance loc_eq_dec : EqDecision loc.
Proof. solve_decision. Defined.

Record local : Set := Local { id : Z; i : Z; item : Z; pc : loc }.

(** The globals; a semaphore is its value. *)
Record shared : Set :=
  Shared { buffer : list Z; in_ : Z; out : Z; empty : Z; full : Z; mutex : Z }.

Inductive event : Set :=
| Put (t : nat) (x : Z)
| Take (t : nat) (x : Z).

Inductive outcome : Set :=
| Step (s : shared) (l : local) (e : list event)
| Wait
| Done
| Undefined.

Inductive reply : Set :=
| Returned (s : shared) (l : local) (e : list event)
| Suspended   (* the thread waits in [sem_wait] *)
| Stuck.      (* undefined behaviour *)

Definition goto (l : local) (p : loc) : local :=
  Local (id l) (i l) (item l) p.
Definition set_item (l : local) (x : Z) : local :=
  Local (id l) (i l) x (pc l).
Definition incr_i (l : local) : local :=
  Local (id l) (CInt.add (i l) 1) (item l) (pc l).

Definition set_buffer (s : shared) (b : list Z) : shared :=
  Shared b (in_ s) (out s) (empty s) (full s) (mutex s).
Definition set_in (s : shared) (n : Z) : shared :=
  Shared (buffer s) n (out s) (empty s) (full s) (mutex s).
Definition set_out (s : shared) (n : Z) : shared :=
  Shared (buffer s) (in_ s) n (empty s) (full s) (mutex s).
Definition set_empty (s : shared) (n : Z) : shared :=
  Shared (buffer s) (in_ s) (out s) n (full s) (mutex s).
Definition set_full (s : shared) (n : Z) : shared :=
  Shared (buffer s) (in_ s) (out s) (empty s) n (mutex s).
Definition set_mutex (s : shared) (n : Z) : shared :=
  Shared (buffer s) (in_ s) (out s) (empty s) (full s) n.

Definition in_bounds (k : Z) (b : list Z) : bool :=
  (0 <=? k) && (k <? Z.of_nat (length b)).

(** The largest value of a semaphore, [SEM_VALUE_MAX] of the C library. *)
Definition SEM_VALUE_MAX : Z := 2147483647.

(** [sem_wait] on a semaphore of value [v]: the new value, or [None] when
    the caller has to wait.  [sem_post]: the new value; on a semaphore at
    [SEM_VALUE_MAX] the call fails with [EOVERFLOW] and leaves the value,
    and [producer] and [consumer] do not look at what the call returns. *)
Definition sem_wait (v : Z) : option Z := if 0 <? v then Some (v - 1) else None.
Definition sem_post (v : Z) : Z := if v <? SEM_VALUE_MAX then v + 1 else v.

Section Program.

Variables BUFFER_SIZE NUM_ITEMS : Z.

Definition advance (x : Z) : Z := CInt.rem (CInt.add x 1) BUFFER_SIZE.

Definition thread_step (t : nat) (s : shared) (l : local) : outcome :=
  match pc l with
  | P_for =>
      if i l <? CInt.div NUM_ITEMS 2
      then Step s (goto (set_item l (CInt.add (CInt.mul (id l) 100) (i l)))
                        P_wait_empty) []
      else Step s (goto l P_ret) []
  | P_wait_empty =>
      match sem_wait (empty s) with
      | Some v => Step (set_empty s v) (goto l P_wait_mutex) []
      | None => Wait
      end
  | P_wait_mutex =>
      match sem_wait (mutex s) with
      | Some v => Step (set_mutex s v) (goto l P_write) []
      | None => Wait
      end
  | P_write =>
      if in_bounds (in_ s) (buffer s)
      then Step (set_buffer s (<[Z.to_nat (in_ s) := item l]> (buffer s)))
                (goto l P_adv) [Put t (item l)]
      else Undefined
  | P_adv => Step (set_in s (advance (in_ s))) (goto l P_post_mutex) []
  | P_post_mutex => Step (set_mutex s (sem_post (mutex s))) (goto l P_post_full) []
  | P_post_full => Step (set_full s (sem_post (full s))) (goto (incr_i l) P_for) []
  | P_ret => Done
  | C_for =>
      if i l <? CInt.div NUM_ITEMS 2
      then Step s (goto l C_wait_full) []
      else Step s (goto l C_ret) []
  | C_wait_full =>
      match sem_wait (full s) with
      | Some v => Step (set_full s v) (goto l C_wait_mutex) []
      | None => Wait
      end
  | C_wait_mutex =>
      match sem_wait (mutex s) with
      | Some v => Step (set_mutex s v) (goto l C_read) []
      | None => Wait
      end
  | C_read =>
      if in_bounds (out s) (buffer s)
      then match buffer s !! Z.to_nat (out s) with
           | Some x => Step s (goto (set_item l x) C_adv) [Take t x]
           | None => Undefined
           end
      else Undefined
  | C_adv => Step (set_out s (advance (out s))) (goto l C_post_mutex) []
  | C_post_mutex => Step (set_mutex s (sem_post (mutex s))) (goto l C_post_empty) []
  | C_post_empty => Step (set_empty s (sem_post (empty s))) (goto (incr_i l) C_for) []
  | C_ret => Done
  end.

(** The globals after the three [sem_init] calls of [main]:
    [empty = BUFFER_SIZE], [full = 0], [mutex = 1]; the statically
    initialised [buffer], [in] and [out] are zero. *)
Definition init_shared : shared :=
  Shared (replicate (Z.to_nat BUFFER_SIZE) 0) 0 0 BUFFER_SIZE 0 1.

Definition producer (n : Z) : local := Local n 0 0 P_for.
Definition consumer (n : Z) : local := Local n 0 0 C_for.

Definition created (l : local) : Prop :=
  l = producer (id l) ∨ l = consumer (id l).

Record config : Set := Config { sh : shared; threads : list local }.

Definition init (ts : list local) : config := Config init_shared ts.

Definition main_threads : list local :=
  [producer 1; producer 2; consumer 1; consumer 2].

Definition sched_step (t : nat) (c : config) : option (config * list event) :=
  match threads c !! t with
  | Some l =>
      match thread_step t (sh c) l with
      | Step s' l' e => Some (Config s' (<[t := l']> (threads c)), e)
      | _ => None
      end
  | None => None
  end.

Definition run : list nat → config → option (config * list event) :=
  Machine.run sched_step.

(** A call run to its end by one thread on its own: from
    [sem_wait(&empty)] to [sem_post(&full)] (a put of [item]), or from
    [sem_wait(&full)] to [sem_post(&empty)] (a take). *)
Fixpoint call (fuel : nat) (s : shared) (l : local) : reply :=
  match fuel with
  | O => Stuck
  | S fuel =>
      match thread_step 0 s l with
      | Step s' l' e =>
          match pc l' with
          | P_for | C_for => Returned s' l' e
          | _ =>
              match call fuel s' l' with
              | Returned s2 l2 e2 => Returned s2 l2 (e ++ e2)
              | r => r
              end
          end
      | Wait => Suspended
      | Done | Undefined => Stuck
      end
  end.

Definition put_call (s : shared) (x : Z) : reply :=
  call 6 s (Local 0 0 x P_wait_empty).
Definition take_call (s : shared) : reply :=
  call 6 s (Local 0 0 0 C_wait_full).

End Program.

Fixpoint puts (tr : list event) : list Z :=
  match tr with
  | [] => []
  | Put _ x :: tr => x :: puts tr
  | Take _ _ :: tr => puts tr
  end.

Fixpoint takes (tr : list event) : list Z :=
  match tr with
  | [] => []
  | Put _ _ :: tr => takes tr
  | Take _ x :: tr => x :: takes tr
  end.

(** Stores made by thread [t], fetches made by thread [t]. *)
Fixpoint puts_by (t : nat) (tr : list event) : list Z :=
  match tr with
  | [] => []
  | Put u x :: tr => if decide (u = t) then x :: puts_by t tr else puts_by t tr
  | Take _ _ :: tr => puts_by t tr
  end.

Fixpoint takes_by (t : nat) (tr : list event) : list Z :=
  match tr with
  | [] => []
  | Put _ _ :: tr => takes_by t tr
  | Take u x :: tr => if decide (u = t) then x :: takes_by t tr else takes_by t tr
  end.

(** Every thread has returned. *)
Definition terminated (c : config) : bool :=
  forallb (λ l, bool_decide (pc l = P_ret ∨ pc l = C_ret)) (threads c).

(** *** Invariants of the semaphore program *)

(** Classes of locations, as 0/1 weights.  [in_cs]: between
    [sem_wait(&mutex)] and [sem_post(&mutex)].  [has_empty]: the producer
    took a permit from [empty] and has not stored yet; [owes_full]: it has
    stored and has not posted [full] yet.  [has_full], [owes_empty]: the
    same for the consumer. *)
Definition in_cs (p : loc) : Z :=
  match p with
  | P_write | P_adv | P_post_mutex | C_read | C_adv | C_post_mutex => 1
  | _ => 0
  end.
Definition has_empty (p : loc) : Z :=
  match p with P_wait_mutex | P_write => 1 | _ => 0 end.
Definition owes_full (p : loc) : Z :=
  match p with P_adv | P_post_mutex | P_post_full => 1 | _ => 0 end.
Definition has_full (p : loc) : Z :=
  match p with C_wait_mutex | C_read => 1 | _ => 0 end.
Definition owes_empty (p : loc) : Z :=
  match p with C_adv | C_post_mutex | C_post_empty => 1 | _ => 0 end.
Definition at_P_adv (p : loc) : Z := match p with P_adv => 1 | _ => 0 end.
Definition at_C_adv (p : loc) : Z := match p with C_adv => 1 | _ => 0 end.

(** Number of threads in a class. *)
Fixpoint tally (f : loc → Z) (ts : list local) : Z :=
  match ts with
  | [] => 0
  | l :: ts => f (pc l) + tally f ts
  end.

Definition is_producer (p : loc) : bool :=
  match p with
  | P_for | P_wait_empty | P_wait_mutex | P_write | P_adv | P_post_mutex
  | P_post_full | P_ret => true
  | _ => false
  end.

(** Inside an iteration of the loop. *)
Definition busy (p : loc) : bool :=
  match p with P_for | P_ret | C_for | C_ret => false | _ => true end.

Fixpoint total (g : local → Z) (ts : list local) : Z :=
  match ts with
  | [] => 0
  | l :: ts => g l + total g ts
  end.

(** Stores and fetches a thread has made, from its loop counter and its
    location. *)
Definition done_puts (l : local) : Z :=
  if is_producer (pc l) then i l + owes_full (pc l) else 0.
Definition done_takes (l : local) : Z :=
  if is_producer (pc l) then 0 else i l + owes_empty (pc l).

Section Invariants.

Variables BUFFER_SIZE NUM_ITEMS : Z.

(** With [W] stores and [R] fetches made so far: the semaphore values and
    the permits in the hands of the threads add up, and the slots
    [R mod BUFFER_SIZE] to [(W-1) mod BUFFER_SIZE] hold the items stored
    and not yet fetched, in order. *)
Record sem_ok (tr : list event) (c : config) : Prop := SemOk {
  so_mutex : mutex (sh c) + tally in_cs (threads c) = 1;
  so_mutex_pos : 0 <= mutex (sh c);
  so_empty : empty (sh c) + tally has_empty (threads c)
             + (Z.of_nat (length (puts tr)) - Z.of_nat (length (takes tr)))
             + tally owes_empty (threads c) = BUFFER_SIZE;
  so_empty_pos : 0 <= empty (sh c);
  so_full : full (sh c) + tally has_full (threads c)
            + tally owes_full (threads c)
            = Z.of_nat (length (puts tr)) - Z.of_nat (length (takes tr));
  so_full_pos : 0 <= full (sh c);
  so_len : Z.of_nat (length (buffer (sh c))) = BUFFER_SIZE;
  so_in : in_ (sh c) =
          (Z.of_nat (length (puts tr)) - tally at_P_adv (threads c))
            mod BUFFER_SIZE;
  so_out : out (sh c) =
           (Z.of_nat (length (takes tr)) - tally at_C_adv (threads c))
             mod BUFFER_SIZE;
  so_slots : ∀ k : nat,
      (length (takes tr) <= k < length (puts tr))%nat →
      buffer (sh c) !! Z.to_nat (Z.of_nat k mod BUFFER_SIZE) = puts tr !! k;
  so_fifo : takes tr = take (length (takes tr)) (puts tr)
}.

(** The loop of thread [t]. *)
Record loop_ok (tr : list event) (t : nat) (l : local) : Prop := LoopOk {
  lo_range : 0 <= i l <= CInt.div NUM_ITEMS 2;
  lo_busy : busy (pc l) = true → i l < CInt.div NUM_ITEMS 2;
  lo_ret : pc l = P_ret ∨ pc l = C_ret → i l = CInt.div NUM_ITEMS 2;
  lo_puts : Z.of_nat (length (puts_by t tr)) = done_puts l;
  lo_takes : Z.of_nat (length (takes_by t tr)) = done_takes l
}.

(** [ts0]: the threads as created. *)
Record inv (ts0 : list local) (tr : list event) (c : config) : Prop := Inv {
  inv_sem : sem_ok tr c;
  inv_loop : ∀ t l, threads c !! t = Some l → loop_ok tr t l;
  inv_puts : Z.of_nat (length (puts tr)) = total done_puts (threads c);
  inv_takes : Z.of_nat (length (takes tr)) = total done_takes (threads c);
  inv_role : (λ l, is_producer (pc l)) <$> threads c
             = (λ l, is_producer (pc l)) <$> ts0
}.

(** The globals after a put and after a take made with nothing else in
    between. *)
Definition stored (x : Z) (s : shared) : shared :=
  Shared (<[Z.to_nat (in_ s) := x]> (buffer s))
         ((in_ s + 1) mod BUFFER_SIZE) (out s)
         (empty s - 1) (full s + 1) (mutex s).

Definition fetched (s : shared) : shared :=
  Shared (buffer s) (in_ s) ((out s + 1) mod BUFFER_SIZE)
         (empty s + 1) (full s - 1) (mutex s).

(** Progress of thread [t] between [sem_wait(&mutex)] and
    [sem_post(&mutex)] of the producer, entered with buffer [b0], cursors
    [i0] and [o0] and item [x]. *)
Definition put_stage_loc (k : nat) : loc :=
  match k with O => P_write | 1%nat => P_adv | _ => P_post_mutex end.

Definition in_put (t : nat) (x : Z) (b0 : list Z) (i0 o0 : Z) (k : nat)
    (c : config) : Prop :=
  ∃ l, threads c !! t = Some l ∧ item l = x ∧ pc l = put_stage_loc k ∧
       out (sh c) = o0 ∧
       buffer (sh c) = match k with
                       | O => b0
                       | _ => <[Z.to_nat i0 := x]> b0
                       end ∧
       in_ (sh c) = match k with
                    | O | 1%nat => i0
                    | _ => advance BUFFER_SIZE i0
                    end.

Definition take_stage_loc (k : nat) : loc :=
  match k with O => C_read | 1%nat => C_adv | _ => C_post_mutex end.

Definition in_take (t : nat) (x : Z) (b0 : list Z) (i0 o0 : Z) (k : nat)
    (c : config) : Prop :=
  ∃ l, threads c !! t = Some l ∧ (k ≠ O → item l = x) ∧ pc l = take_stage_loc k ∧
       in_ (sh c) = i0 ∧ buffer (sh c) = b0 ∧
       out (sh c) = match k with
                    | O | 1%nat => o0
                    | _ => advance BUFFER_SIZE o0
                    end.

End Invariants.

End Semaphores.

(** ** Waiting with [while] and with [if] *)

Module SpuriousWakeup.

(** Locations of [waiter_correct] (W_), of [waiter_wrong] (X_) and of
    [main] after [pthread_create] (M_). *)
Inductive loc : Set :=
| W_lock      (* pthread_mutex_lock(&mutex) *)
| W_while     (* while (!ready) *)
| W_wait      (* asleep inside pthread_cond_wait(&cond, &mutex) *)
| W_relock    (* woken, taking the mutex again *)
| W_process   (* printf("... Processing (ready=%d) ...", ready) *)
| W_unlock    (* pthread_mutex_unlock(&mutex) *)
| W_ret
| X_lock      (* pthread_mutex_lock(&mutex) *)
| X_if        (* if (!ready) *)
| X_wait      (* asleep inside pthread_cond_wait(&cond, &mutex) *)
| X_relock    (* woken, taking the mutex again *)
| X_process   (* printf("... Processing (ready=%d) ...", ready) *)
| X_unlock    (* pthread_mutex_unlock(&mutex) *)
| X_ret
| M_sleep     (* sleep(2) *)
| M_lock      (* pthread_mutex_lock(&mutex) *)
| M_set       (* ready = 1 *)
| M_signal    (* pthread_cond_signal(&cond) *)
| M_unlock    (* pthread_mutex_unlock(&mutex) *)
| M_join      (* pthread_join(t1, NULL) *)
| M_ret.

#[global] Instance loc_eq_dec : EqDecision loc.
Proof. solve_decision. Defined.

Record shared : Set := Shared { ready : Z; mutex : option nat }.

(** What the two waiters print: the value of [ready] they process. *)
Inductive event : Set :=
| Correct (r : Z)
| Wrong (r : Z).

Inductive outcome : Set :=
| Step (s : shared) (p : loc) (e : list event)
| Wait
| Done.

Definition lock (t : nat) (s : shared) (next : loc) : outcome :=
  match mutex s with
  | None => Step (Shared (ready s) (Some t)) next []
  | Some _ => Wait
  end.

Definition unlock (s : shared) : shared := Shared (ready s) None.

(** One transition of thread [t] at location [p]; [joined] says whether
    the thread [main] joins has returned. *)
Definition thread_step (t : nat) (joined : bool) (s : shared) (p : loc) : outcome :=
  match p with
  | W_lock => lock t s W_while
  | W_while => if ready s =? 0 then Step (unlock s) W_wait []
               else Step s W_process []
  | W_wait => Step s W_relock []
  | W_relock => lock t s W_while
  | W_process => Step s W_unlock [Correct (ready s)]
  | W_unlock => Step (unlock s) W_ret []
  | W_ret => Done
  | X_lock => lock t s X_if
  | X_if => if ready s =? 0 then Step (unlock s) X_wait []
            else Step s X_process []
  | X_wait => Step s X_relock []
  | X_relock => lock t s X_process
  | X_process => Step s X_unlock [Wrong (ready s)]
  | X_unlock => Step (unlock s) X_ret []
  | X_ret => Done
  | M_sleep => Step s M_lock []
  | M_lock => lock t s M_set
  | M_set => Step (Shared 1 (mutex s)) M_signal []
  | M_signal => Step s M_unlock []
  | M_unlock => Step (unlock s) M_join []
  | M_join => if joined then Step s M_ret [] else Wait
  | M_ret => Done
  end.

Record config : Set := Config { sh : shared; threads : list loc }.

(** [ready = 0] and the mutex free; thread 0 is [main], thread 1 the
    thread it created. *)
Definition init (ts : list loc) : config := Config (Shared 0 None) ts.

Definition main_threads : list loc := [M_sleep; W_lock].

Definition returned (p : loc) : bool :=
  match p with W_ret | X_ret => true | _ => false end.

Definition sched_step (t : nat) (c : config) : option (config * list event) :=
  match threads c !! t with
  | Some p =>
      match thread_step t (from_option returned false (threads c !! 1%nat))
                        (sh c) p with
      | Step s' p' e => Some (Config s' (<[t := p']> (threads c)), e)
      | _ => None
      end
  | None => None
  end.

Definition run : list nat → config → option (config * list event) :=
  Machine.run sched_step.

(** A thread is processing only once [ready] is set. *)
Definition inv (tr : list event) (c : config) : Prop :=
  (∀ t, threads c !! t = Some W_process → ready (sh c) ≠ 0) ∧
  Forall (λ e, e ≠ Correct 0) tr.

End SpuriousWakeup.

(** ** The two programs side by side *)

Module Refinement.

Section Agree.

Variables BUFFER_SIZE NUM_ITEMS : Z.

(** States of the two programs, with no call in progress, that hold the
    same queue: same buffer and cursors, [full] equal to [count], [empty]
    the number of free slots, the lock free. *)
Record agree (a : CondVar.shared) (b : Semaphores.shared) : Prop := Agree {
  ag_buffer : Semaphores.buffer b = CondVar.buffer a;
  ag_in : Semaphores.in_ b = CondVar.in_ a;
  ag_out : Semaphores.out b = CondVar.out a;
  ag_full : Semaphores.full b = CondVar.count a;
  ag_empty : Semaphores.empty b = BUFFER_SIZE - CondVar.count a;
  ag_free : CondVar.mutex a = None;
  ag_mutex : Semaphores.mutex b = 1;
  ag_len : Z.of_nat (length (CondVar.buffer a)) = BUFFER_SIZE;
  ag_in_range : 0 <= CondVar.in_ a < BUFFER_SIZE;
  ag_out_range : 0 <= CondVar.out a < BUFFER_SIZE;
  ag_count_range : 0 <= CondVar.count a <= BUFFER_SIZE
}.

(** Two replies are the same when both calls return, leaving states that
    agree and the same item in [item], or both calls block. *)
Definition same_reply (ra : CondVar.reply) (rb : Semaphores.reply) : Prop :=
  match ra, rb with
  | CondVar.Returned a' la ea, Semaphores.Returned b' lb eb =>
      agree a' b' ∧ CondVar.item la = Semaphores.item lb ∧
      CondVar.puts ea = Semaphores.puts eb ∧
      CondVar.takes ea = Semaphores.takes eb
  | CondVar.Suspended, Semaphores.Suspended => True
  | _, _ => False
  end.

(** Sequential programs of calls. *)
Inductive op : Set := OpPut (x : Z) | OpTake.

(** Run the calls in order; the result is the final state and the items
    taken, or [None] as soon as a call does not return. *)
Fixpoint cv_ops (ops : list op) (a : CondVar.shared) : option (CondVar.shared * list Z) :=
  match ops with
  | [] => Some (a, [])
  | OpPut x :: ops =>
      match CondVar.put_call BUFFER_SIZE NUM_ITEMS a x with
      | CondVar.Returned a' _ _ => cv_ops ops a'
      | _ => None
      end
  | OpTake :: ops =>
      match CondVar.take_call BUFFER_SIZE NUM_ITEMS a with
      | CondVar.Returned a' l _ =>
          match cv_ops ops a' with
          | Some (a2, xs) => Some (a2, CondVar.item l :: xs)
          | None => None
          end
      | _ => None
      end
  end.

Fixpoint sem_ops (ops : list op) (b : Semaphores.shared)
    : option (Semaphores.shared * list Z) :=
  match ops with
  | [] => Some (b, [])
  | OpPut x :: ops =>
      match Semaphores.put_call BUFFER_SIZE NUM_ITEMS b x with
      | Semaphores.Returned b' _ _ => sem_ops ops b'
      | _ => None
      end
  | OpTake :: ops =>
      match Semaphores.take_call BUFFER_SIZE NUM_ITEMS b with
      | Semaphores.Returned b' l _ =>
          match sem_ops ops b' with
          | Some (b2, xs) => Some (b2, Semaphores.item l :: xs)
          | None => None
          end
      | _ => None
      end
  end.

Definition same_result (ra : option (CondVar.shared * list Z))
    (rb : option (Semaphores.shared * list Z)) : Prop :=
  match ra, rb with
  | Some (a', xs), Some (b', ys) => agree a' b' ∧ xs = ys
  | None, None => True
  | _, _ => False
  end.

End Agree.

End Refinement.

(** ** Concrete runs *)

Module Demo.

(** The condition-variable program as compiled: [BUFFER_SIZE] 5,
    [NUM_ITEMS] 20, the four threads of [main], scheduled in turn until all
    have returned. *)
Definition cv_start : CondVar.config := CondVar.init 5 CondVar.main_threads.

Definition cv_schedule : list nat :=
  Eval vm_compute in Machine.round_robin (CondVar.sched_step 5 20) 400 0 4 cv_start.

Definition cv_final : CondVar.config :=
  Eval vm_compute in
    from_option fst cv_start (CondVar.run 5 20 cv_schedule cv_start).

Definition cv_trace : list CondVar.event :=
  Eval vm_compute in
    from_option snd [] (CondVar.run 5 20 cv_schedule cv_start).

(** Producer 0 has left its wait loop ([cv_at_write]); it executes its
    three statements while threads 1 and 3 take turns in between. *)
Definition cv_at_write : CondVar.config :=
  Eval vm_compute in
    from_option fst cv_start (CondVar.run 5 20 [0; 0; 0]%nat cv_start).

Definition cv_put_section : list nat := [0; 1; 0; 3; 0]%nat.

Definition cv_after_put : CondVar.config :=
  Eval vm_compute in
    from_option fst cv_start (CondVar.run 5 20 cv_put_section cv_at_write).

(** Producer 0 has completed a put and consumer 2 has left its wait loop
    ([cv_at_read]); it executes its three statements while threads 0 and 1
    take turns in between. *)
Definition cv_to_read : list nat := [0; 0; 0; 0; 0; 0; 0; 0; 2; 2; 2]%nat.

Definition cv_at_read : CondVar.config :=
  Eval vm_compute in
    from_option fst cv_start (CondVar.run 5 20 cv_to_read cv_start).

Definition cv_read_trace : list CondVar.event :=
  Eval vm_compute in
    from_option snd [] (CondVar.run 5 20 cv_to_read cv_start).

Definition cv_take_section : list nat := [2; 0; 2; 1; 2]%nat.

Definition cv_after_take : CondVar.config :=
  Eval vm_compute in
    from_option fst cv_start (CondVar.run 5 20 cv_take_section cv_at_read).

(** The semaphore program as compiled: [BUFFER_SIZE] 5, [NUM_ITEMS] 15. *)
Definition sem_start : Semaphores.config :=
  Semaphores.init 5 Semaphores.main_threads.

Definition sem_schedule : list nat :=
  Eval vm_compute in
    Machine.round_robin (Semaphores.sched_step 5 15) 400 0 4 sem_start.

Definition sem_final : Semaphores.config :=
  Eval vm_compute in
    from_option fst sem_start (Semaphores.run 5 15 sem_schedule sem_start).

Definition sem_trace : list Semaphores.event :=
  Eval vm_compute in
    from_option snd [] (Semaphores.run 5 15 sem_schedule sem_start).

Definition sem_at_write : Semaphores.config :=
  Eval vm_compute in
    from_option fst sem_start (Semaphores.run 5 15 [0; 0; 0]%nat sem_start).

Definition sem_put_section : list nat := [0; 1; 0]%nat.

Definition sem_after_put : Semaphores.config :=
  Eval vm_compute in
    from_option fst sem_start (Semaphores.run 5 15 sem_put_section sem_at_write).

Definition sem_to_read : list nat := [0; 0; 0; 0; 0; 0; 0; 2; 2; 2]%nat.

Definition sem_at_read : Semaphores.config :=
  Eval vm_compute in
    from_option fst sem_start (Semaphores.run 5 15 sem_to_read sem_start).

Definition sem_read_trace : list Semaphores.event :=
  Eval vm_compute in
    from_option snd [] (Semaphores.run 5 15 sem_to_read sem_start).

Definition sem_take_section : list nat := [2; 1; 2]%nat.

Definition sem_after_take : Semaphores.config :=
  Eval vm_compute in
    from_option fst sem_start (Semaphores.run 5 15 sem_take_section sem_at_read).

(** A queue holding one item, in both programs. *)
Definition cv_one : CondVar.shared := CondVar.Shared [7; 0; 0; 0; 0] 1 1 0 None.
Definition sem_one : Semaphores.shared := Semaphores.Shared [7; 0; 0; 0; 0] 1 0 4 1 1.




End Demo.

(** ** The items of a producer *)

Module Items.

(** [item = id * 100 + i], in both programs: the item of iteration [j] of
    producer [n], and the items of its first [k] iterations. *)
Definition item_of (n j : Z) : Z := CInt.add (CInt.mul n 100) j.
Definition items_of (n : Z) (k : nat) : list Z :=
  (λ j, item_of n (Z.of_nat j)) <$> seq 0 k.

End Items.

(** ** Accounting for the semaphore program *)

Module SemLoops.
Import Semaphores Items.

(** The number of items in the buffer, read off the globals and the
    locations: the permits of [full], the permits consumers hold for items
    they have not fetched yet, and the items whose [sem_post(&full)] is
    still to come. *)
Definition occupied (c : config) : Z :=
  full (sh c) + tally has_full (threads c) + tally owes_full (threads c).

(** The number of producer threads and of consumer threads. *)
Definition producers (ts : list local) : Z :=
  tally (λ p, if is_producer p then 1 else 0) ts.
Definition consumers (ts : list local) : Z :=
  tally (λ p, if is_producer p then 0 else 1) ts.

(** Thread [t] keeps the [id] it was created with, holds the item of its
    iteration while inside it, and has stored the items of its iterations
    in order. *)
Record producer_ok (ts0 : list local) (tr : list event) (t : nat) (l : local)
  : Prop := ProducerOk {
  po_id : id <$> ts0 !! t = Some (id l);
  po_item : is_producer (pc l) = true → busy (pc l) = true →
            item l = item_of (id l) (i l);
  po_puts : puts_by t tr = items_of (id l) (Z.to_nat (done_puts l))
}.

(** Transitions a thread has made: seven for every iteration of [producer]
    and of [consumer], and the last test of the loop. *)
Definition offset (p : loc) : Z :=
  match p with
  | P_for | C_for => 0
  | P_wait_empty | C_wait_full => 1
  | P_wait_mutex | C_wait_mutex => 2
  | P_write | C_read => 3
  | P_adv | C_adv => 4
  | P_post_mutex | C_post_mutex => 5
  | P_post_full | C_post_empty => 6
  | P_ret | C_ret => 1
  end.
Definition steps_done (l : local) : Z := 7 * i l + offset (pc l).

(** Thread [t] can take a transition. *)
Definition enabled (BUFFER_SIZE NUM_ITEMS : Z) (c : config) (t : nat) : bool :=
  bool_decide (is_Some (sched_step BUFFER_SIZE NUM_ITEMS t c)).

End SemLoops.

(** ** Loops and wake-ups of the condition-variable program *)

Module CvLoops.
Import CondVar Items.

Fixpoint puts_by (t : nat) (tr : list event) : list Z :=
  match tr with
  | [] => []
  | Put u x :: tr => if decide (u = t) then x :: puts_by t tr else puts_by t tr
  | Take _ _ :: tr => puts_by t tr
  end.

Fixpoint takes_by (t : nat) (tr : list event) : list Z :=
  match tr with
  | [] => []
  | Put _ _ :: tr => takes_by t tr
  | Take u x :: tr => if decide (u = t) then x :: takes_by t tr else takes_by t tr
  end.

(** Every thread has returned. *)
Definition terminated (c : config) : bool :=
  forallb (λ l, bool_decide (pc l = P_ret ∨ pc l = C_ret)) (threads c).

Fixpoint total (g : local → Z) (ts : list local) : Z :=
  match ts with
  | [] => 0
  | l :: ts => g l + total g ts
  end.

(** Number of threads in a class of locations given by a 0/1 weight. *)
Definition tally (f : loc → Z) (ts : list local) : Z := total (λ l, f (pc l)) ts.

Definition is_producer (p : loc) : bool :=
  match p with
  | P_for | P_lock | P_while | P_wait | P_relock | P_write | P_adv | P_inc
  | P_signal | P_unlock | P_ret => true
  | _ => false
  end.

Definition producers (ts : list local) : Z :=
  tally (λ p, if is_producer p then 1 else 0) ts.
Definition consumers (ts : list local) : Z :=
  tally (λ p, if is_producer p then 0 else 1) ts.

(** Inside an iteration of the loop. *)
Definition busy (p : loc) : bool :=
  match p with P_for | P_ret | C_for | C_ret => false | _ => true end.

(** The access of the current iteration has been made. *)
Definition has_stored (p : loc) : Z :=
  match p with P_adv | P_inc | P_signal | P_unlock => 1 | _ => 0 end.
Definition has_fetched (p : loc) : Z :=
  match p with C_adv | C_dec | C_signal | C_unlock => 1 | _ => 0 end.

Definition done_puts (l : local) : Z :=
  if is_producer (pc l) then i l + has_stored (pc l) else 0.
Definition done_takes (l : local) : Z :=
  if is_producer (pc l) then 0 else i l + has_fetched (pc l).

(** Threads that are going to take an item out or to signal [not_empty],
    and threads that are going to put an item in or to signal
    [not_full]. *)
Definition serves_consumers (p : loc) : Z :=
  match p with
  | C_relock | C_while | C_read | C_adv | C_dec | P_signal => 1
  | _ => 0
  end.
Definition serves_producers (p : loc) : Z :=
  match p with
  | P_relock | P_while | P_write | P_adv | P_inc | C_signal => 1
  | _ => 0
  end.

(** A measure of the progress of a thread: ten for every iteration, of
    which two stand for the [pthread_mutex_lock] and the test a thread
    repeats when the [pthread_cond_signal] of this iteration wakes it. *)
Definition offset (p : loc) : Z :=
  match p with
  | P_for | C_for => 0
  | P_lock | C_lock | P_relock | C_relock => 1
  | P_while | C_while => 2
  | P_wait | C_wait | P_write | C_read => 3
  | P_adv | C_adv => 4
  | P_inc | C_dec => 5
  | P_signal | C_signal => 6
  | P_unlock | C_unlock => 9
  | P_ret | C_ret => 1
  end.
Definition progress (l : local) : Z := 10 * i l + offset (pc l).

Section Invariants.

Variable NUM_ITEMS : Z.

(** The loop of thread [t]. *)
Record loop_ok (tr : list event) (t : nat) (l : local) : Prop := LoopOk {
  lo_range : 0 <= i l <= CInt.div NUM_ITEMS 2;
  lo_busy : busy (pc l) = true → i l < CInt.div NUM_ITEMS 2;
  lo_ret : pc l = P_ret ∨ pc l = C_ret → i l = CInt.div NUM_ITEMS 2;
  lo_puts : Z.of_nat (length (puts_by t tr)) = done_puts l;
  lo_takes : Z.of_nat (length (takes_by t tr)) = done_takes l
}.

(** Thread [t] keeps the [id] it was created with, holds the item of its
    iteration while inside it, and has stored the items of its iterations
    in order. *)
Record producer_ok (ts0 : list local) (tr : list event) (t : nat) (l : local)
  : Prop := ProducerOk {
  po_id : id <$> ts0 !! t = Some (id l);
  po_item : is_producer (pc l) = true → busy (pc l) = true →
            item l = item_of (id l) (i l);
  po_puts : puts_by t tr = items_of (id l) (Z.to_nat (done_puts l))
}.

(** [ts0]: the threads as created. *)
Record inv (ts0 : list local) (tr : list event) (c : config) : Prop := Inv {
  inv_loop : ∀ t l, threads c !! t = Some l → loop_ok tr t l;
  inv_items : ∀ t l, threads c !! t = Some l → producer_ok ts0 tr t l;
  inv_puts : Z.of_nat (length (puts tr)) = total done_puts (threads c);
  inv_takes : Z.of_nat (length (takes tr)) = total done_takes (threads c);
  inv_role : (λ l, is_producer (pc l)) <$> threads c
             = (λ l, is_producer (pc l)) <$> ts0;
  inv_owner : ∀ o, mutex (sh c) = Some o → is_Some (threads c !! o)
}.

End Invariants.

End CvLoops.

(** ** The condition variables with their signals

    [pthread_cond_signal] wakes one of the threads asleep on the condition
    variable, if there is one; which one is the scheduler's choice.  With
    [spurious] a sleeping thread may also wake on its own, as in
    [CondVar]; without, it sleeps until it is signalled. *)

Module Signals.
Import CondVar.

(** The threads asleep at location [p]. *)
Definition asleep (p : loc) (ts : list local) : list nat :=
  filter (λ u, pc <$> ts !! u = Some p) (seq 0 (length ts)).

(** The [k]-th of them moves on to [q]. *)
Definition signal (p q : loc) (k : nat) (ts : list local) : list local :=
  let sl := asleep p ts in
  match sl !! (k mod length sl)%nat with
  | Some u =>
      match ts !! u with
      | Some l => <[u := goto l q]> ts
      | None => ts
      end
  | None => ts
  end.

Section Program.

Variables BUFFER_SIZE NUM_ITEMS : Z.
Variable spurious : bool.

(** Thread [tk.1] takes a transition; [tk.2] chooses the thread a signal
    wakes. *)
Definition sched_step (tk : nat * nat) (c : config)
  : option (config * list event) :=
  match threads c !! tk.1 with
  | Some l =>
      match CondVar.sched_step BUFFER_SIZE NUM_ITEMS tk.1 c with
      | Some (c', e) =>
          match pc l with
          | P_wait | C_wait => if spurious then Some (c', e) else None
          | P_signal =>
              Some (Config (sh c') (signal C_wait C_relock tk.2 (threads c')), e)
          | C_signal =>
              Some (Config (sh c') (signal P_wait P_relock tk.2 (threads c')), e)
          | _ => Some (c', e)
          end
      | None => None
      end
  | None => None
  end.

Fixpoint run (sched : list (nat * nat)) (c : config)
  : option (config * list event) :=
  match sched with
  | [] => Some (c, [])
  | tk :: rest =>
      match sched_step tk c with
      | Some (c1, e1) =>
          match run rest c1 with
          | Some (c2, e2) => Some (c2, e1 ++ e2)
          | None => None
          end
      | None => None
      end
  end.

(** A scheduler for experiments: the first thread that can take a
    transition, with the first sleeper for its signal. *)
Fixpoint first_fit (fuel : nat) (c : config) : list (nat * nat) :=
  match fuel with
  | O => []
  | S fuel =>
      match
        list_find (λ t, is_Some (sched_step (t, 0%nat) c))
                  (seq 0 (length (threads c)))
      with
      | Some (_, t) =>
          match sched_step (t, 0%nat) c with
          | Some (c', _) => (t, 0%nat) :: first_fit fuel c'
          | None => []
          end
      | None => []
      end
  end.

End Program.

(** While a consumer sleeps, the items in the buffer are matched by
    threads that will take one out or wake a consumer; while a producer
    sleeps, the free slots are matched in the same way. *)
Record wake_ok (BUFFER_SIZE : Z) (c : config) : Prop := WakeOk {
  wk_consumers : (∃ u l, threads c !! u = Some l ∧ pc l = C_wait) →
                 count (sh c) <= CvLoops.tally CvLoops.serves_consumers (threads c);
  wk_producers : (∃ u l, threads c !! u = Some l ∧ pc l = P_wait) →
                 BUFFER_SIZE - count (sh c)
                 <= CvLoops.tally CvLoops.serves_producers (threads c)
}.

(** The invariants of [CondVar] and of the loops hold with signals too. *)
Record sig_inv (BUFFER_SIZE NUM_ITEMS : Z) (ts0 : list local)
    (tr : list event) (c : config) : Prop := SigInv {
  si_cv : CondVar.inv BUFFER_SIZE tr c;
  si_loops : CvLoops.inv NUM_ITEMS ts0 tr c;
  si_wake : wake_ok BUFFER_SIZE c
}.

End Signals.

(** A run of the condition-variable program as compiled in which sleepers
    wake on a signal only. *)
Module SignalsDemo.

Definition schedule : list (nat * nat) :=
  Eval vm_compute in Signals.first_fit 5 20 false 500 Demo.cv_start.

Definition final : CondVar.config :=
  Eval vm_compute in
    from_option fst Demo.cv_start (Signals.run 5 20 false schedule Demo.cv_start).

Definition trace : list CondVar.event :=
  Eval vm_compute in
    from_option snd [] (Signals.run 5 20 false schedule Demo.cv_start).

(** Both consumers go to sleep on the empty buffer before producer 0
    stores and signals. *)
Definition to_signal : list (nat * nat) :=
  [(2, 0); (2, 0); (2, 0); (3, 0); (3, 0); (3, 0);
   (0, 0); (0, 0); (0, 0); (0, 0); (0, 0); (0, 0)]%nat.

Definition at_signal : CondVar.config :=
  Eval vm_compute in
    from_option fst Demo.cv_start (Signals.run 5 20 false to_signal Demo.cv_start).

End SignalsDemo.

(** ** [main] of the spurious-wakeup demonstration and its signal *)

Module Waiters.
Import SpuriousWakeup.

(** Locations at which the thread holds the mutex. *)
Definition holds (p : loc) : bool :=
  match p with
  | W_while | W_process | W_unlock | X_if | X_process | X_unlock
  | M_set | M_signal | M_unlock => true
  | _ => false
  end.

Definition is_main (p : loc) : bool :=
  match p with
  | M_sleep | M_lock | M_set | M_signal | M_unlock | M_join | M_ret => true
  | _ => false
  end.
Definition is_correct (p : loc) : bool :=
  match p with
  | W_lock | W_while | W_wait | W_relock | W_process | W_unlock | W_ret => true
  | _ => false
  end.
Definition is_wrong (p : loc) : bool :=
  match p with
  | X_lock | X_if | X_wait | X_relock | X_process | X_unlock | X_ret => true
  | _ => false
  end.

(** [ready] as [main] at location [m] has left it. *)
Definition ready_of (m : loc) : Z :=
  match m with M_sleep | M_lock | M_set => 0 | _ => 1 end.

(** The waiter has printed its line. *)
Definition printed (w : loc) : bool :=
  match w with W_unlock | W_ret | X_unlock | X_ret => true | _ => false end.

Definition sleeping (w : loc) : bool :=
  match w with W_wait | X_wait => true | _ => false end.

(** [main] has not signalled yet. *)
Definition before_wake (m : loc) : bool :=
  match m with M_sleep | M_lock | M_set | M_signal => true | _ => false end.

(** The owner of the mutex with [main] (thread 0) at [m] and the waiter
    (thread 1) at [w]. *)
Definition owner (m w : loc) : option nat :=
  if holds m then Some 0%nat else if holds w then Some 1%nat else None.

(** [main] and the thread it created, in a configuration reached after the
    events [tr]. *)
Record main_ok (tr : list event) (c : config) (m w : loc) : Prop := MainOk {
  mo_threads : threads c = [m; w];
  mo_main : is_main m = true;
  mo_waiter : is_main w = false;
  mo_ready : ready (sh c) = ready_of m;
  mo_mutex : mutex (sh c) = owner m w;
  mo_excl : holds m = true → holds w = false;
  mo_process : w = W_process → ready_of m = 1;
  mo_join : m = M_ret → returned w = true;
  mo_trace : if printed w
             then (is_correct w = true ∧ tr = [Correct 1]) ∨
                  (is_wrong w = true ∧ (tr = [Wrong 0] ∨ tr = [Wrong 1]))
             else tr = []
}.

(** The threads asleep in [pthread_cond_wait(&cond, &mutex)]. *)
Definition asleep (ts : list loc) : list nat :=
  filter (λ u, ts !! u = Some W_wait ∨ ts !! u = Some X_wait)
         (seq 0 (length ts)).

Definition woken (p : loc) : loc :=
  match p with W_wait => W_relock | X_wait => X_relock | _ => p end.

(** [pthread_cond_signal(&cond)] wakes one of them, if there is one. *)
Definition signal (k : nat) (ts : list loc) : list loc :=
  let sl := asleep ts in
  match sl !! (k mod length sl)%nat with
  | Some u =>
      match ts !! u with
      | Some p => <[u := woken p]> ts
      | None => ts
      end
  | None => ts
  end.

Section Program.

(** With [spurious] a sleeping thread may also wake on its own, as in
    [SpuriousWakeup]; without, it sleeps until it is signalled. *)
Variable spurious : bool.

Definition sched_step (tk : nat * nat) (c : config)
  : option (config * list event) :=
  match threads c !! tk.1 with
  | Some p =>
      match SpuriousWakeup.sched_step tk.1 c with
      | Some (c', e) =>
          match p with
          | W_wait | X_wait => if spurious then Some (c', e) else None
          | M_signal => Some (Config (sh c') (signal tk.2 (threads c')), e)
          | _ => Some (c', e)
          end
      | None => None
      end
  | None => None
  end.

Fixpoint run (sched : list (nat * nat)) (c : config)
  : option (config * list event) :=
  match sched with
  | [] => Some (c, [])
  | tk :: rest =>
      match sched_step tk c with
      | Some (c1, e1) =>
          match run rest c1 with
          | Some (c2, e2) => Some (c2, e1 ++ e2)
          | None => None
          end
      | None => None
      end
  end.

End Program.

(** Every thread has returned. *)
Definition terminated (c : config) : bool :=
  forallb (λ p, bool_decide (p = W_ret ∨ p = X_ret ∨ p = M_ret)) (threads c).

(** While the waiter sleeps [main] has its signal still to send; and when
    sleepers wake on a signal only, [waiter_wrong] goes on with [ready]
    set. *)
Record wake_ok (spurious : bool) (tr : list event) (m w : loc) : Prop := WakeOk {
  wk_sleep : sleeping w = true → before_wake m = true;
  wk_wrong : spurious = false → w = X_relock ∨ w = X_process → ready_of m = 1;
  wk_trace : spurious = false → tr = [Wrong 0] → False
}.

(** A measure of progress: one for every transition, and two more for the
    signal, which stand for the [pthread_mutex_lock] and the test of the
    thread it wakes. *)
Definition progress (p : loc) : Z :=
  match p with
  | W_lock | X_lock | M_sleep => 0
  | W_relock | X_relock | M_lock => 1
  | W_while | X_if | M_set => 2
  | W_wait | X_wait | W_process | X_process | M_signal => 3
  | W_unlock | X_unlock => 4
  | W_ret | X_ret => 5
  | M_unlock => 6
  | M_join => 7
  | M_ret => 8
  end.

Definition measure (c : config) : Z :=
  foldr (λ p n, progress p + n) 0 (threads c).

(** The invariants of [main] and its thread together. *)
Definition inv (spurious : bool) (correct : bool) (tr : list event)
    (c : config) : Prop :=
  ∃ m w, main_ok tr c m w ∧ wake_ok spurious tr m w ∧ is_correct w = correct.

End Waiters.

(** Runs of [main] with [waiter_correct] and with [waiter_wrong] in which
    the waiter sleeps until [main] signals. *)
Module WaitersDemo.

Definition schedule : list (nat * nat) :=
  [(1, 0); (1, 0); (0, 0); (0, 0); (0, 0); (0, 0); (0, 0);
   (1, 0); (1, 0); (1, 0); (1, 0); (0, 0)]%nat.

Definition final : SpuriousWakeup.config :=
  Eval vm_compute in
    from_option fst (SpuriousWakeup.init SpuriousWakeup.main_threads)
      (Waiters.run false schedule
         (SpuriousWakeup.init SpuriousWakeup.main_threads)).




(** The waiter asleep, [main] about to signal. *)
Definition to_signal : list (nat * nat) :=
  [(1, 0); (1, 0); (0, 0); (0, 0); (0, 0)]%nat.

Definition at_signal : SpuriousWakeup.config :=
  Eval vm_compute in
    from_option fst (SpuriousWakeup.init SpuriousWakeup.main_threads)
      (Waiters.run false to_signal
         (SpuriousWakeup.init SpuriousWakeup.main_threads)).

End WaitersDemo.

(** ** Signed overflow *)

Module Exact.

(** The [int] arithmetic of the statement a thread executes next gives
    the mathematical result: [id * 100 + i] when the loop goes on, the
    increment of a cursor before [% BUFFER_SIZE], [count++], [count--] and
    [i++]. *)
Definition cv_exact (BUFFER_SIZE NUM_ITEMS : Z) (s : CondVar.shared)
    (l : CondVar.local) : Prop :=
  match CondVar.pc l with
  | CondVar.P_for =>
      CondVar.i l < CInt.div NUM_ITEMS 2 →
      CInt.in_range (CondVar.id l * 100) ∧
      CInt.in_range (CondVar.id l * 100 + CondVar.i l)
  | CondVar.P_adv => CInt.in_range (CondVar.in_ s + 1) ∧ 0 < BUFFER_SIZE
  | CondVar.C_adv => CInt.in_range (CondVar.out s + 1) ∧ 0 < BUFFER_SIZE
  | CondVar.P_inc => CInt.in_range (CondVar.count s + 1)
  | CondVar.C_dec => CInt.in_range (CondVar.count s - 1)
  | CondVar.P_unlock | CondVar.C_unlock => CInt.in_range (CondVar.i l + 1)
  | _ => True
  end.

Definition sem_exact (BUFFER_SIZE NUM_ITEMS : Z) (s : Semaphores.shared)
    (l : Semaphores.local) : Prop :=
  match Semaphores.pc l with
  | Semaphores.P_for =>
      Semaphores.i l < CInt.div NUM_ITEMS 2 →
      CInt.in_range (Semaphores.id l * 100) ∧
      CInt.in_range (Semaphores.id l * 100 + Semaphores.i l)
  | Semaphores.P_adv => CInt.in_range (Semaphores.in_ s + 1) ∧ 0 < BUFFER_SIZE
  | Semaphores.C_adv => CInt.in_range (Semaphores.out s + 1) ∧ 0 < BUFFER_SIZE
  | Semaphores.P_post_full | Semaphores.C_post_empty =>
      CInt.in_range (Semaphores.i l + 1)
  | _ => True
  end.

(** An [id] small enough for [id * 100 + i]. *)
Definition small (n : Z) : Prop := -1000000 <= n <= 1000000.

End Exact.

(** * Proofs *)

(** ** Arithmetic *)

Module CIntFacts.
Import CInt.

Lemma wrap_id z : in_range z → wrap z = z.
Proof.
  unfold in_range, wrap, INT_MIN, INT_MAX. intros H.
  rewrite Z.mod_small; lia.
Qed.

Lemma wrap_range z : in_range (wrap z).
Proof.
  unfold in_range, wrap, INT_MIN, INT_MAX.
  pose proof (Z.mod_pos_bound (z - -2147483648) 4294967296). lia.
Qed.

Lemma add_exact a b : in_range (a + b) → add a b = a + b.
Proof. apply wrap_id. Qed.

Lemma sub_exact a b : in_range (a - b) → sub a b = a - b.
Proof. apply wrap_id. Qed.

Lemma rem_exact a b : 0 <= a → 0 < b <= INT_MAX → rem a b = a mod b.
Proof.
  intros Ha Hb. unfold rem. rewrite Z.rem_mod_nonneg by lia.
  apply wrap_id. pose proof (Z.mod_pos_bound a b ltac:(lia)).
  unfold in_range, INT_MIN, INT_MAX in *. lia.
Qed.

Lemma div_exact a b : 0 <= a <= INT_MAX → 0 < b → div a b = a / b.
Proof.
  intros Ha Hb. unfold div. rewrite Z.quot_div_nonneg by lia.
  apply wrap_id. unfold in_range, INT_MIN, INT_MAX in *.
  split.
  - pose proof (Z.div_pos a b ltac:(lia) Hb). lia.
  - pose proof (Z.div_le_upper_bound a b INT_MAX Hb). unfold INT_MAX in *. nia.
Qed.

End CIntFacts.

Section ModFacts.
Variable n : Z.
Hypothesis n_pos : 0 < n.

Lemma mod_succ_mod x : (x mod n + 1) mod n = (x + 1) mod n.
Proof. rewrite Zplus_mod_idemp_l. reflexivity. Qed.

Lemma mod_apart a b : 0 < a - b < n → a mod n ≠ b mod n.
Proof.
  intros H E.
  assert (Hd : (a - b) mod n = 0).
  { rewrite Zminus_mod, E, Z.sub_diag. apply Z.mod_0_l. lia. }
  rewrite Z.mod_small in Hd; lia.
Qed.

End ModFacts.

Module MachineFacts.
Import Machine.

Lemma turns_cons t u sched :
  turns t (u :: sched) = if decide (u = t) then S (turns t sched) else turns t sched.
Proof. unfold turns. rewrite filter_cons. by destruct (decide (u = t)). Qed.

Section Run.

Context {config event : Type}.
Variable step : nat → config → option (config * list event).

Lemma run_cons t sched c c1 e1 c2 e2 :
  step t c = Some (c1, e1) → run step sched c1 = Some (c2, e2) →
  run step (t :: sched) c = Some (c2, e1 ++ e2).
Proof. intros H1 H2. simpl. by rewrite H1, H2. Qed.

Lemma run_cons_inv t sched c c2 e :
  run step (t :: sched) c = Some (c2, e) →
  ∃ c1 e1 e2, step t c = Some (c1, e1) ∧ run step sched c1 = Some (c2, e2)
              ∧ e = e1 ++ e2.
Proof.
  simpl. destruct (step t c) as [[c1 e1]|] eqn:Hs; [|done].
  destruct (run step sched c1) as [[c2' e2]|] eqn:Hr; [|done].
  intros [= <- <-]. exists c1, e1, e2. auto.
Qed.

(** A property of (events so far, configuration) kept by every transition
    holds along every schedule. *)
Lemma run_invariant (I : list event → config → Prop) :
  (∀ tr c t c' e, I tr c → step t c = Some (c', e) → I (tr ++ e) c') →
  ∀ sched tr c c' e, I tr c → run step sched c = Some (c', e) → I (tr ++ e) c'.
Proof.
  intros Hstep. induction sched as [|t sched IH]; intros tr c c' e Hi Hr.
  - simpl in Hr. simplify_eq. by rewrite app_nil_r.
  - apply run_cons_inv in Hr as (c1 & e1 & e2 & Hs & Hr & ->).
    rewrite app_assoc. eapply IH; [|done]. by eapply Hstep.
Qed.

(** A section of [n] transitions of thread [t] that no other thread can
    disturb: [Q k] describes the configuration after [k] of them. *)
Section Atomic.

Variables (t n : nat) (I : config → Prop) (Q : nat → config → Prop)
          (ev : nat → list event).
Hypothesis I_step : ∀ u c c' e, I c → step u c = Some (c', e) → I c'.
Hypothesis other : ∀ k u c c' e,
  I c → Q k c → u ≠ t → step u c = Some (c', e) → Q k c' ∧ e = [].
Hypothesis own : ∀ k c c' e,
  (k < n)%nat → I c → Q k c → step t c = Some (c', e) → Q (S k) c' ∧ e = ev k.

Lemma atomic_run sched : ∀ k c c' e,
  (k <= n)%nat → I c → Q k c → run step sched c = Some (c', e) →
  turns t sched = (n - k)%nat →
  Q n c' ∧ e = concat (map ev (seq k (n - k))).
Proof.
  induction sched as [|u sched IH]; intros k c c' e Hk Hi Hq Hr Ht.
  - simpl in Hr. simplify_eq. unfold turns in Ht; simpl in Ht.
    assert (k = n) as -> by lia. by rewrite Nat.sub_diag.
  - apply run_cons_inv in Hr as (c1 & e1 & e2 & Hs & Hr & ->).
    rewrite turns_cons in Ht. destruct (decide (u = t)) as [->|Hne].
    + destruct (own k c c1 e1 ltac:(lia) Hi Hq Hs) as [Hq1 ->].
      destruct (IH (S k) c1 c' e2 ltac:(lia) (I_step _ _ _ _ Hi Hs) Hq1 Hr
                  ltac:(lia)) as [Hq' ->].
      split; [done|].
      replace (n - k)%nat with (S (n - S k)) by lia. done.
    + destruct (other k u c c1 e1 Hi Hq Hne Hs) as [Hq1 ->].
      by apply (IH k c1 c' e2 Hk (I_step _ _ _ _ Hi Hs) Hq1 Hr).
Qed.

End Atomic.
End Run.
End MachineFacts.

(** ** The condition-variable program *)

Module CondVarFacts.
Import CondVar.

Lemma cv_puts_app tr1 tr2 : puts (tr1 ++ tr2) = puts tr1 ++ puts tr2.
Proof.
  induction tr1 as [|[t x|t x] tr1 IH]; simpl; [done | by rewrite IH | done].
Qed.

Lemma cv_takes_app tr1 tr2 : takes (tr1 ++ tr2) = takes tr1 ++ takes tr2.
Proof.
  induction tr1 as [|[t x|t x] tr1 IH]; simpl; [done | done | by rewrite IH].
Qed.

Section Facts.

Variables BUFFER_SIZE NUM_ITEMS : Z.
Hypothesis size_ok : 0 < BUFFER_SIZE <= CInt.INT_MAX.

Local Abbreviation thread_step := (CondVar.thread_step BUFFER_SIZE NUM_ITEMS).
Local Abbreviation sched_step := (CondVar.sched_step BUFFER_SIZE NUM_ITEMS).
Local Abbreviation run := (CondVar.run BUFFER_SIZE NUM_ITEMS).
Local Abbreviation advance := (CondVar.advance BUFFER_SIZE).
Local Abbreviation init := (CondVar.init BUFFER_SIZE).
Local Abbreviation data_inv := (CondVar.data_inv BUFFER_SIZE).
Local Abbreviation data_ok := (CondVar.data_ok BUFFER_SIZE).
Local Abbreviation inv := (CondVar.inv BUFFER_SIZE).

Lemma cv_advance_spec x : 0 <= x < BUFFER_SIZE → advance x = (x + 1) mod BUFFER_SIZE.
Proof.
  intros Hx. unfold CondVar.advance.
  rewrite CIntFacts.add_exact, CIntFacts.rem_exact; try lia; try done.
  unfold CInt.in_range, CInt.INT_MIN, CInt.INT_MAX in *. lia.
Qed.

Lemma cv_sched_step_inv t c c' e :
  sched_step t c = Some (c', e) →
  ∃ l s' l', threads c !! t = Some l ∧ thread_step t (sh c) l = Step s' l' e
             ∧ c' = Config s' (<[t := l']> (threads c)).
Proof.
  unfold CondVar.sched_step. intros H.
  destruct (threads c !! t) as [l|]; [|done].
  destruct (thread_step t (sh c) l) as [s' l' e'| | |] eqn:E; try done.
  exists l, s', l'. simplify_eq. auto.
Qed.

Lemma thread_step_kind t s l s' l' e :
  thread_step t s l = Step s' l' e → step_kind t s l s' l' e.
Proof.
  unfold CondVar.thread_step. destruct l as [n k x p]; simpl.
  destruct p; intros H; repeat case_match; simplify_eq;
    first [ by apply Outside | by apply Acquire; auto | by apply Release
          | by apply Inside ].
Qed.

Lemma mutex_inv_step t c c' e :
  mutex_inv c → sched_step t c = Some (c', e) → mutex_inv c'.
Proof.
  intros Hm Hs. apply cv_sched_step_inv in Hs as (l & s' & l' & Hl & Hst & ->).
  pose proof (Hm t l Hl) as Ht.
  apply thread_step_kind in Hst.
  intros u lu. simpl. destruct (decide (u = t)) as [->|Hne].
  - rewrite list_lookup_insert_eq by (by eapply lookup_lt_Some).
    intros [= <-].
    destruct Hst as [Hp Hp' -> _ | Hp Hp' Hfree -> _ _
                    | Hp Hp' -> _ _ _ _ | Hp Hp' Hsame]; simpl.
    + rewrite Hp'. by rewrite Hp in Ht.
    + by rewrite Hp'.
    + by rewrite Hp'.
    + rewrite Hsame, Hp'. by rewrite Hp in Ht.
  - rewrite list_lookup_insert_ne by done. intros Hu.
    pose proof (Hm u lu Hu) as Hu'.
    destruct Hst as [Hp Hp' -> _ | Hp Hp' Hfree -> _ _
                    | Hp Hp' -> _ _ _ _ | Hp Hp' Hsame]; simpl.
    + done.
    + split; [intros [= ?]; congruence|]. intros Hh. apply Hu' in Hh. congruence.
    + split; [done|]. intros Hh. apply Hu' in Hh. apply Ht in Hp. congruence.
    + by rewrite Hsame.
Qed.

Lemma mutex_inv_init ts :
  Forall (λ l, holds (pc l) = false) ts → mutex_inv (init ts).
Proof.
  intros Hts t l Hl. simpl in *.
  rewrite Forall_lookup in Hts. specialize (Hts t l Hl). simpl in Hts.
  split; [done | congruence].
Qed.


Lemma cv_in_bounds_true k (b : list Z) :
  0 <= k < Z.of_nat (length b) → in_bounds k b = true.
Proof.
  intros H. unfold in_bounds. apply andb_true_iff.
  split; [apply Z.leb_le|apply Z.ltb_lt]; lia.
Qed.

(** *** The six statements of the two critical sections *)

Lemma slot_bound (k : Z) :
  0 <= k → (Z.to_nat (k mod BUFFER_SIZE) < Z.to_nat BUFFER_SIZE)%nat.
Proof. intros Hk. pose proof (Z.mod_pos_bound k BUFFER_SIZE). lia. Qed.

Lemma ok_write tr s t x :
  data_ok tr s (Some P_write) →
  in_bounds (in_ s) (buffer s) = true ∧
  data_ok (tr ++ [Put t x])
          (set_buffer s (<[Z.to_nat (in_ s) := x]> (buffer s))) (Some P_adv).
Proof.
  intros [Hlen Hin Hout Hcnt Hrng Hocc Hroom _ Hslots Hfifo]. simpl in *.
  specialize (Hroom eq_refl). rewrite Z.sub_0_r in Hin.
  pose proof (Z.mod_pos_bound (Z.of_nat (length (puts tr))) BUFFER_SIZE
                ltac:(lia)) as Hb.
  split.
  { unfold in_bounds. apply andb_true_iff. split; [apply Z.leb_le|apply Z.ltb_lt]; lia. }
  constructor; simpl; rewrite ?cv_puts_app, ?cv_takes_app; simpl;
    rewrite ?app_nil_r, ?length_app; simpl; try done; try lia.
  - by rewrite length_insert.
  - rewrite Hin. f_equal. lia.
  - intros k Hk. destruct (decide (k = length (puts tr))) as [->|Hne].
    + rewrite Hin, list_lookup_insert_eq by lia.
      by rewrite list_lookup_middle.
    + rewrite lookup_app_l by lia.
      rewrite list_lookup_insert_ne; [apply Hslots; lia|].
      rewrite Hin. intros E.
      pose proof (Z.mod_pos_bound (Z.of_nat k) BUFFER_SIZE ltac:(lia)).
      apply Z2Nat.inj in E; try lia.
      revert E. apply mod_apart; lia.
  - rewrite take_app_le; [done|]. lia.
Qed.

Lemma ok_adv_in tr s :
  data_ok tr s (Some P_adv) → data_ok tr (set_in s (advance (in_ s))) (Some P_inc).
Proof.
  intros [Hlen Hin Hout Hcnt Hrng Hocc _ _ Hslots Hfifo]. simpl in *.
  constructor; simpl; try done.
  rewrite cv_advance_spec.
  - rewrite Hin, mod_succ_mod by lia. f_equal. lia.
  - rewrite Hin. apply Z.mod_pos_bound. lia.
Qed.

Lemma ok_inc tr s :
  data_ok tr s (Some P_inc) →
  data_ok tr (set_count s (CInt.add (count s) 1)) (Some P_signal).
Proof.
  intros [Hlen Hin Hout Hcnt Hrng Hocc _ _ Hslots Hfifo]. simpl in *.
  rewrite CIntFacts.add_exact
    by (unfold CInt.in_range, CInt.INT_MIN, CInt.INT_MAX in *; lia).
  constructor; simpl; try done; lia.
Qed.

Lemma ok_read tr s t :
  data_ok tr s (Some C_read) →
  ∃ x, in_bounds (out s) (buffer s) = true ∧
       buffer s !! Z.to_nat (out s) = Some x ∧
       data_ok (tr ++ [Take t x]) s (Some C_adv).
Proof.
  intros [Hlen Hin Hout Hcnt Hrng Hocc _ Havail Hslots Hfifo]. simpl in *.
  specialize (Havail eq_refl). rewrite Z.sub_0_r in Hout.
  pose proof (Z.mod_pos_bound (Z.of_nat (length (takes tr))) BUFFER_SIZE
                ltac:(lia)) as Hb.
  destruct (lookup_lt_is_Some_2 (puts tr) (length (takes tr)) ltac:(lia))
    as [x Hx].
  exists x. split; [|split].
  { unfold in_bounds. apply andb_true_iff. split; [apply Z.leb_le|apply Z.ltb_lt]; lia. }
  { rewrite Hout, Hslots by lia. done. }
  constructor; simpl; rewrite ?cv_puts_app, ?cv_takes_app; simpl;
    rewrite ?app_nil_r, ?length_app; simpl; try done; try lia.
  - rewrite Hout. f_equal. lia.
  - intros k Hk. apply Hslots. lia.
  - rewrite Nat.add_1_r. erewrite take_S_r by done. by rewrite <- Hfifo.
Qed.

Lemma ok_adv_out tr s :
  data_ok tr s (Some C_adv) → data_ok tr (set_out s (advance (out s))) (Some C_dec).
Proof.
  intros [Hlen Hin Hout Hcnt Hrng Hocc _ _ Hslots Hfifo]. simpl in *.
  constructor; simpl; try done.
  rewrite cv_advance_spec.
  - rewrite Hout, mod_succ_mod by lia. f_equal. lia.
  - rewrite Hout. apply Z.mod_pos_bound. lia.
Qed.

Lemma ok_dec tr s :
  data_ok tr s (Some C_dec) →
  data_ok tr (set_count s (CInt.sub (count s) 1)) (Some C_signal).
Proof.
  intros [Hlen Hin Hout Hcnt Hrng Hocc _ _ Hslots Hfifo]. simpl in *.
  rewrite CIntFacts.sub_exact
    by (unfold CInt.in_range, CInt.INT_MIN, CInt.INT_MAX in *; lia).
  constructor; simpl; try done; lia.
Qed.

(** Transitions that leave the data alone. *)
Lemma ok_same tr s o o' :
  data_ok tr s o →
  lag_in o' = lag_in o → lag_out o' = lag_out o → lag_count o' = lag_count o →
  (o' = Some P_write → count s ≠ BUFFER_SIZE) →
  (o' = Some C_read → count s ≠ 0) →
  data_ok tr s o'.
Proof.
  intros [Hlen Hin Hout Hcnt Hrng Hocc _ _ Hslots Hfifo] E1 E2 E3 Hr Ha.
  constructor; simpl; rewrite ?E1, ?E2, ?E3; try done.
  - intros E. specialize (Hr E). lia.
  - intros E. specialize (Ha E). lia.
Qed.

Lemma ok_set_mutex tr s o m : data_ok tr s o → data_ok tr (set_mutex s m) o.
Proof. intros []. by constructor. Qed.

(** *** The thread inside the critical section *)

Lemma owner_pc_holder s ts t l :
  mutex_inv (Config s ts) → ts !! t = Some l → holds (pc l) = true →
  owner_pc (Config s ts) = Some (pc l).
Proof.
  intros Hm Hl Hp. apply (Hm t l Hl) in Hp. simpl in Hp.
  unfold owner_pc; simpl. by rewrite Hp, Hl.
Qed.

Lemma owner_pc_insert_self s ts t l' :
  mutex s = Some t → (t < length ts)%nat →
  owner_pc (Config s (<[t := l']> ts)) = Some (pc l').
Proof.
  intros Hm Ht. unfold owner_pc; simpl.
  by rewrite Hm, list_lookup_insert_eq.
Qed.

Lemma owner_pc_insert_other s ts t l l' :
  mutex_inv (Config s ts) → ts !! t = Some l → holds (pc l) = false →
  owner_pc (Config s (<[t := l']> ts)) = owner_pc (Config s ts).
Proof.
  intros Hm Hl Hp. unfold owner_pc; simpl.
  destruct (mutex s) as [u|] eqn:Hu; [|done].
  rewrite list_lookup_insert_ne; [done|].
  intros ->. apply (Hm u l Hl) in Hu. congruence.
Qed.

Lemma data_inv_step tr c t c' e :
  mutex_inv c → data_inv tr c → sched_step t c = Some (c', e) →
  data_inv (tr ++ e) c'.
Proof.
  intros Hm Hd Hs. apply cv_sched_step_inv in Hs as (l & s' & l' & Hl & Hst & ->).
  destruct c as [s ts]; simpl in *. unfold CondVar.data_inv in *; simpl in *.
  pose proof (lookup_lt_Some _ _ _ Hl) as Hlt.
  destruct (thread_step_kind _ _ _ _ _ _ Hst)
    as [Hp Hp' -> -> | Hp Hp' Hfree -> -> Hw
       | Hp Hp' -> -> L1 L2 L3 | Hp Hp' Hsame].
  - rewrite app_nil_r. by erewrite owner_pc_insert_other.
  - rewrite app_nil_r, owner_pc_insert_self by done.
    assert (owner_pc (Config s ts) = None) as Ho
      by (unfold owner_pc; simpl; by rewrite Hfree).
    rewrite Ho in Hd. apply ok_set_mutex.
    apply ok_same with (o := None); try done; destruct Hw as [-> | ->]; done.
  - rewrite app_nil_r.
    rewrite (owner_pc_holder s ts t l) in Hd by done.
    assert (owner_pc (Config (set_mutex s None) (<[t:=l']> ts)) = None) as ->
      by done.
    apply ok_set_mutex. eapply ok_same; [exact Hd|..]; done.
  - rewrite (owner_pc_holder s ts t l) in Hd by done.
    rewrite owner_pc_insert_self
      by (try done; rewrite Hsame; by apply (Hm t l Hl)).
    clear Hm Hl Hlt Hsame ts.
    unfold CondVar.thread_step in Hst.
    destruct l as [n k x p]; simpl in *.
    destruct p; try discriminate Hp; repeat case_match; simplify_eq;
      try discriminate Hp'; simpl; rewrite ?app_nil_r;
      repeat match goal with
             | H : (_ =? _) = false |- _ => apply Z.eqb_neq in H
             end;
      lazymatch goal with
      | |- CondVar.data_ok _ (_ ++ [Put _ _]) _ _ => by apply ok_write
      | |- CondVar.data_ok _ (_ ++ [Take _ _]) _ _ =>
          destruct (ok_read _ _ t Hd) as (y & _ & Hy & Hd'); by simplify_eq
      | |- CondVar.data_ok _ _ (set_in _ _) _ => by apply ok_adv_in
      | |- CondVar.data_ok _ _ (set_out _ _) _ => by apply ok_adv_out
      | |- CondVar.data_ok _ _ (set_count _ (CInt.add _ _)) _ => by apply ok_inc
      | |- CondVar.data_ok _ _ (set_count _ (CInt.sub _ _)) _ => by apply ok_dec
      | |- _ => by (eapply ok_same; [exact Hd|..])
      end.
Qed.

Lemma data_inv_init ts : data_inv [] (init ts).
Proof.
  unfold CondVar.data_inv, CondVar.init, CondVar.init_shared, owner_pc; simpl.
  constructor; simpl; rewrite ?length_replicate, ?Z.mod_0_l; try done; try lia.
Qed.

Lemma cv_inv_step tr c t c' e :
  inv tr c → sched_step t c = Some (c', e) → inv (tr ++ e) c'.
Proof.
  intros [Hm Hd] Hs. split; [by eapply mutex_inv_step | by eapply data_inv_step].
Qed.

Lemma cv_inv_run sched tr c c' e :
  inv tr c → run sched c = Some (c', e) → inv (tr ++ e) c'.
Proof.
  apply (MachineFacts.run_invariant sched_step inv). intros. by eapply cv_inv_step.
Qed.

Lemma created_outside ts :
  Forall created ts → Forall (λ l, holds (pc l) = false) ts.
Proof. intros H. eapply Forall_impl; [exact H|]. by intros l [-> | ->]. Qed.

Lemma cv_inv_init ts : Forall created ts → inv [] (init ts).
Proof.
  intros H. split; [apply mutex_inv_init; by apply created_outside
                   | apply data_inv_init].
Qed.

Lemma cv_inv_reach ts sched c tr :
  Forall created ts → run sched (init ts) = Some (c, tr) → inv tr c.
Proof. intros Hts Hr. apply (cv_inv_run sched [] _ _ _ (cv_inv_init ts Hts) Hr). Qed.

(** *** Consequences for every reachable configuration *)

Lemma fifo_prefix tr c : inv tr c → takes tr `prefix_of` puts tr.
Proof.
  intros [_ Hd]. rewrite (ok_fifo _ _ _ _ Hd). apply prefix_take.
Qed.

Lemma cv_fifo_nth tr c n x :
  inv tr c → takes tr !! n = Some x → puts tr !! n = Some x.
Proof.
  intros Hi Hn. eapply prefix_lookup_Some; [exact Hn|]. by eapply fifo_prefix.
Qed.

Lemma count_bound tr c : inv tr c → 0 <= count (sh c) <= BUFFER_SIZE.
Proof. intros [_ Hd]. exact (ok_range _ _ _ _ Hd). Qed.

Lemma cv_cursor_range tr c :
  inv tr c →
  0 <= in_ (sh c) < BUFFER_SIZE ∧ 0 <= out (sh c) < BUFFER_SIZE ∧
  Z.of_nat (length (buffer (sh c))) = BUFFER_SIZE.
Proof.
  intros [_ Hd]. rewrite (ok_in _ _ _ _ Hd), (ok_out _ _ _ _ Hd).
  split; [|split]; [apply Z.mod_pos_bound; lia ..|exact (ok_len _ _ _ _ Hd)].
Qed.

Lemma owner_pc_at tr c t l :
  inv tr c → threads c !! t = Some l → holds (pc l) = true →
  data_ok tr (sh c) (Some (pc l)).
Proof.
  intros [Hm Hd] Hl Hp. destruct c as [s ts].
  unfold CondVar.data_inv in Hd. by erewrite owner_pc_holder in Hd.
Qed.

Lemma cv_no_undefined tr c t l :
  inv tr c → threads c !! t = Some l → thread_step t (sh c) l ≠ Undefined.
Proof.
  intros Hi Hl. unfold CondVar.thread_step.
  destruct (pc l) eqn:Hp; repeat case_match; try done.
  - pose proof (owner_pc_at tr c t l Hi Hl) as Hd. rewrite Hp in Hd.
    apply (ok_write _ _ t (item l)) in Hd as [? _]; [congruence|done].
  - pose proof (owner_pc_at tr c t l Hi Hl) as Hd. rewrite Hp in Hd.
    destruct (ok_read _ _ t (Hd eq_refl)) as (y & _ & Hy & _). congruence.
  - pose proof (owner_pc_at tr c t l Hi Hl) as Hd. rewrite Hp in Hd.
    destruct (ok_read _ _ t (Hd eq_refl)) as (y & ? & _ & _). congruence.
Qed.

(** After the wait loop the predicate holds. *)
Lemma after_wait_loop tr c t l :
  inv tr c → threads c !! t = Some l →
  (pc l = P_write → count (sh c) < BUFFER_SIZE) ∧
  (pc l = C_read → 0 < count (sh c)).
Proof.
  intros Hi Hl. split; intros Hp.
  - pose proof (owner_pc_at tr c t l Hi Hl) as Hd. rewrite Hp in Hd.
    by apply (ok_room _ _ _ _ (Hd eq_refl)).
  - pose proof (owner_pc_at tr c t l Hi Hl) as Hd. rewrite Hp in Hd.
    by apply (ok_avail _ _ _ _ (Hd eq_refl)).
Qed.

(** The only way to the statements after a wait loop is through its test. *)
Lemma enter_only_by_test t s l s' l' e :
  thread_step t s l = Step s' l' e → pc l ≠ pc l' →
  (pc l' = P_write → pc l = P_while ∧ count s ≠ BUFFER_SIZE ∧ s' = s) ∧
  (pc l' = C_read → pc l = C_while ∧ count s ≠ 0 ∧ s' = s).
Proof.
  unfold CondVar.thread_step. destruct l as [n k x p]; simpl.
  destruct p; intros H Hne; repeat case_match; simplify_eq; simpl in *;
    split; intros; try done;
    repeat match goal with
           | H : (_ =? _) = false |- _ => apply Z.eqb_neq in H
           end; done.
Qed.

(** A woken thread goes back to the test of its loop. *)
Lemma wake_rechecks t s l s' l' e :
  thread_step t s l = Step s' l' e →
  (pc l = P_wait → pc l' = P_relock ∧ s' = s) ∧
  (pc l = P_relock → pc l' = P_while) ∧
  (pc l = C_wait → pc l' = C_relock ∧ s' = s) ∧
  (pc l = C_relock → pc l' = C_while).
Proof.
  unfold CondVar.thread_step. destruct l as [n k x p]; simpl.
  destruct p; intros H; repeat case_match; simplify_eq; simpl in *;
    repeat split; intros; done.
Qed.

(** *** The critical sections are atomic *)

Local Abbreviation in_put := (CondVar.in_put BUFFER_SIZE).
Local Abbreviation in_take := (CondVar.in_take BUFFER_SIZE).
Local Abbreviation stored := (CondVar.stored BUFFER_SIZE).
Local Abbreviation fetched := (CondVar.fetched BUFFER_SIZE).

(** While [t] holds the mutex, a transition of another thread touches
    neither the shared data nor [t]. *)
Lemma cv_other_thread_outside c t l u c' e :
  mutex_inv c → threads c !! t = Some l → holds (pc l) = true → u ≠ t →
  sched_step u c = Some (c', e) →
  sh c' = sh c ∧ threads c' !! t = Some l ∧ e = [].
Proof.
  intros Hm Hl Hp Hne Hs.
  apply cv_sched_step_inv in Hs as (lu & s' & lu' & Hlu & Hst & ->). simpl.
  rewrite list_lookup_insert_ne by done.
  apply (Hm t l Hl) in Hp.
  destruct (thread_step_kind _ _ _ _ _ _ Hst)
    as [_ _ -> -> | _ _ Hfree _ _ _ | Hp' _ _ _ _ _ _ | Hp' _ _]; try done.
  - congruence.
  - apply (Hm u lu Hlu) in Hp'. congruence.
  - apply (Hm u lu Hlu) in Hp'. congruence.
Qed.

Lemma put_stage_holds k : holds (put_stage_loc k) = true.
Proof. by destruct k as [|[|[|k]]]. Qed.

Lemma take_stage_holds k : holds (take_stage_loc k) = true.
Proof. by destruct k as [|[|[|k]]]. Qed.

Lemma cv_put_section_run t x s0 sched c c' e :
  mutex_inv c → in_put t x s0 0 c → run sched c = Some (c', e) →
  Machine.turns t sched = 3%nat →
  in_put t x s0 3 c' ∧ e = [Put t x].
Proof.
  intros Hm Hq Hr Ht.
  apply (MachineFacts.atomic_run sched_step t 3 mutex_inv (in_put t x s0)
           (λ k, match k with O => [Put t x] | _ => [] end)) with (k := O)
    in Hr; try done; try lia.
  - clear. intros u c c' e Hm Hs. by eapply mutex_inv_step.
  - clear. intros k u c c' e Hm (l & Hl & Hx & Hp & Hsh) Hne Hs.
    destruct (cv_other_thread_outside c t l u c' e) as (Hsh' & Hl' & ->);
      try done.
    { rewrite Hp. apply put_stage_holds. }
    split; [|done]. exists l. by rewrite Hsh'.
  - clear. intros k c c' e Hk Hm (l & Hl & Hx & Hp & Hsh) Hs.
    pose proof (lookup_lt_Some _ _ _ Hl) as Hlt.
    apply cv_sched_step_inv in Hs as (l0 & s' & l' & Hl0 & Hst & ->).
    rewrite Hl in Hl0. injection Hl0 as <-.
    unfold CondVar.thread_step in Hst. rewrite Hp, Hsh in Hst.
    destruct k as [|[|[|k]]]; [..|lia]; simpl in Hst; repeat case_match;
      simplify_eq; (split; [|done]); eexists; simpl;
      rewrite list_lookup_insert_eq by done; split_and!; done.
Qed.

Lemma cv_take_section_run t x s0 sched c c' e :
  buffer s0 !! Z.to_nat (out s0) = Some x →
  mutex_inv c → in_take t x s0 0 c → run sched c = Some (c', e) →
  Machine.turns t sched = 3%nat →
  in_take t x s0 3 c' ∧ e = [Take t x].
Proof.
  intros Hx Hm Hq Hr Ht.
  apply (MachineFacts.atomic_run sched_step t 3 mutex_inv (in_take t x s0)
           (λ k, match k with O => [Take t x] | _ => [] end)) with (k := O)
    in Hr; try done; try lia; clear Hm Hq Ht.
  - intros u c1 c2 e1 Hm Hs. by eapply mutex_inv_step.
  - intros k u c1 c2 e1 Hm (l & Hl & Hi & Hp & Hsh) Hne Hs.
    destruct (cv_other_thread_outside c1 t l u c2 e1) as (Hsh' & Hl' & ->);
      try done.
    { rewrite Hp. apply take_stage_holds. }
    split; [|done]. exists l. by rewrite Hsh'.
  - intros k c1 c2 e1 Hk Hm (l & Hl & Hi & Hp & Hsh) Hs.
    pose proof (lookup_lt_Some _ _ _ Hl) as Hlt.
    apply cv_sched_step_inv in Hs as (l0 & s' & l' & Hl0 & Hst & ->).
    rewrite Hl in Hl0. injection Hl0 as <-.
    unfold CondVar.thread_step in Hst. rewrite Hp, Hsh in Hst.
    destruct k as [|[|[|k]]]; [..|lia]; simpl in Hst; repeat case_match;
      simplify_eq; (split; [|done]); eexists; simpl;
      rewrite list_lookup_insert_eq by done; split_and!; try done;
      intros _; simpl; by apply Hi.
Qed.

Lemma put_stage_3 tr s x :
  data_ok tr s (Some P_write) → CondVar.put_stage_sh BUFFER_SIZE x s 3 = stored x s.
Proof.
  intros Hd. pose proof (ok_room _ _ _ _ Hd eq_refl).
  destruct Hd as [Hlen Hin Hout Hcnt Hrng Hocc _ _ Hslots Hfifo]. simpl in *.
  unfold CondVar.put_stage_sh, CondVar.stored, set_count, set_in, set_buffer; simpl.
  rewrite cv_advance_spec by (rewrite Hin; apply Z.mod_pos_bound; lia).
  rewrite CIntFacts.add_exact
    by (unfold CInt.in_range, CInt.INT_MIN, CInt.INT_MAX in *; lia).
  done.
Qed.

Lemma take_stage_3 tr s :
  data_ok tr s (Some C_read) → CondVar.take_stage_sh BUFFER_SIZE s 3 = fetched s.
Proof.
  intros Hd. pose proof (ok_avail _ _ _ _ Hd eq_refl).
  destruct Hd as [Hlen Hin Hout Hcnt Hrng Hocc _ _ Hslots Hfifo]. simpl in *.
  unfold CondVar.take_stage_sh, CondVar.fetched, set_count, set_out; simpl.
  rewrite cv_advance_spec by (rewrite Hout; apply Z.mod_pos_bound; lia).
  rewrite CIntFacts.sub_exact
    by (unfold CInt.in_range, CInt.INT_MIN, CInt.INT_MAX in *; lia).
  done.
Qed.

(** From the end of the producer's wait loop, once the thread has executed
    its three statements, and whatever the other threads did meanwhile, the
    shared data is the data at the end of the loop with the item stored. *)
Lemma cv_put_atomic tr c t l sched c' e :
  inv tr c → threads c !! t = Some l → pc l = P_write →
  run sched c = Some (c', e) → Machine.turns t sched = 3%nat →
  count (sh c) < BUFFER_SIZE ∧
  sh c' = stored (item l) (sh c) ∧
  (∃ l', threads c' !! t = Some l' ∧ pc l' = P_signal) ∧
  e = [Put t (item l)].
Proof.
  intros Hi Hl Hp Hr Ht.
  pose proof (owner_pc_at tr c t l Hi Hl) as Hd. rewrite Hp in Hd.
  specialize (Hd eq_refl).
  destruct (cv_put_section_run t (item l) (sh c) sched c c' e) as [Hq ->];
    try done.
  { by destruct Hi. }
  { by exists l. }
  destruct Hq as (l' & Hl' & _ & Hp' & Hsh).
  split; [exact (ok_room _ _ _ _ Hd eq_refl)|].
  split; [rewrite Hsh; by eapply put_stage_3|]. split; [by exists l'|done].
Qed.

Lemma cv_take_atomic tr c t l sched c' e :
  inv tr c → threads c !! t = Some l → pc l = C_read →
  run sched c = Some (c', e) → Machine.turns t sched = 3%nat →
  0 < count (sh c) ∧
  ∃ x, buffer (sh c) !! Z.to_nat (out (sh c)) = Some x ∧
       sh c' = fetched (sh c) ∧
       (∃ l', threads c' !! t = Some l' ∧ pc l' = C_signal ∧ item l' = x) ∧
       e = [Take t x].
Proof.
  intros Hi Hl Hp Hr Ht.
  pose proof (owner_pc_at tr c t l Hi Hl) as Hd. rewrite Hp in Hd.
  specialize (Hd eq_refl).
  destruct (ok_read _ _ t Hd) as (x & _ & Hx & _).
  destruct (cv_take_section_run t x (sh c) sched c c' e) as [Hq ->];
    try done.
  { by destruct Hi. }
  { by exists l. }
  destruct Hq as (l' & Hl' & Hit & Hp' & Hsh).
  split; [exact (ok_avail _ _ _ _ Hd eq_refl)|].
  exists x. split; [done|].
  split; [rewrite Hsh; by eapply take_stage_3|].
  split; [|done]. exists l'. split_and!; try done. by apply Hit.
Qed.

End Facts.
End CondVarFacts.

(** ** The semaphore program *)

Module SemaphoresFacts.
Import Semaphores.

Lemma sem_puts_app tr1 tr2 : puts (tr1 ++ tr2) = puts tr1 ++ puts tr2.
Proof.
  induction tr1 as [|[t x|t x] tr1 IH]; simpl; [done | by rewrite IH | done].
Qed.

Lemma sem_takes_app tr1 tr2 : takes (tr1 ++ tr2) = takes tr1 ++ takes tr2.
Proof.
  induction tr1 as [|[t x|t x] tr1 IH]; simpl; [done | done | by rewrite IH].
Qed.

Lemma puts_by_app t tr1 tr2 : puts_by t (tr1 ++ tr2) = puts_by t tr1 ++ puts_by t tr2.
Proof.
  induction tr1 as [|[u x|u x] tr1 IH]; simpl; [done | | done].
  destruct (decide (u = t)); simpl; by rewrite IH.
Qed.

Lemma takes_by_app t tr1 tr2 :
  takes_by t (tr1 ++ tr2) = takes_by t tr1 ++ takes_by t tr2.
Proof.
  induction tr1 as [|[u x|u x] tr1 IH]; simpl; [done | done |].
  destruct (decide (u = t)); simpl; by rewrite IH.
Qed.

(** *** Counting threads *)

Lemma tally_insert f ts t l l' :
  ts !! t = Some l →
  tally f (<[t := l']> ts) = tally f ts - f (pc l) + f (pc l').
Proof.
  revert t. induction ts as [|a ts IH]; intros [|t] H; simplify_eq/=; [lia|].
  rewrite (IH t) by done. lia.
Qed.

Lemma tally_nonneg f ts : (∀ p, 0 <= f p) → 0 <= tally f ts.
Proof.
  intros Hf. induction ts as [|a ts IH]; simpl; [lia|].
  specialize (Hf (pc a)). lia.
Qed.

Lemma tally_others_le f g ts t l :
  (∀ p, 0 <= f p <= g p) → ts !! t = Some l →
  0 <= tally f ts - f (pc l) <= tally g ts - g (pc l).
Proof.
  intros Hfg. revert t. induction ts as [|a ts IH]; intros [|t] H; simplify_eq/=.
  - assert (0 <= tally f ts) by (apply tally_nonneg; intros; apply Hfg).
    assert (tally f ts <= tally g ts); [|lia].
    clear -Hfg. induction ts as [|a ts IH]; simpl; [lia|].
    specialize (Hfg (pc a)). lia.
  - specialize (IH t H). specialize (Hfg (pc a)). lia.
Qed.

Lemma tally_ge f ts t l :
  (∀ p, 0 <= f p) → ts !! t = Some l → f (pc l) <= tally f ts.
Proof.
  intros Hf Hl.
  pose proof (tally_others_le f f ts t l ltac:(intros p; specialize (Hf p); lia) Hl).
  lia.
Qed.

Lemma tally_two f ts t l u lu :
  (∀ p, 0 <= f p) → ts !! t = Some l → ts !! u = Some lu → t ≠ u →
  f (pc l) + f (pc lu) <= tally f ts.
Proof.
  intros Hf. revert t u.
  induction ts as [|a ts IH]; intros [|t] [|u] Hl Hu Hne; simplify_eq/=.
  - pose proof (tally_ge f ts u lu Hf Hu). lia.
  - pose proof (tally_ge f ts t l Hf Hl). lia.
  - specialize (IH t u Hl Hu ltac:(congruence)). specialize (Hf (pc a)). lia.
Qed.

Lemma in_cs_range p : 0 <= in_cs p. Proof. by destruct p. Qed.
Lemma has_empty_range p : 0 <= has_empty p. Proof. by destruct p. Qed.
Lemma owes_full_range p : 0 <= owes_full p. Proof. by destruct p. Qed.
Lemma has_full_range p : 0 <= has_full p. Proof. by destruct p. Qed.
Lemma owes_empty_range p : 0 <= owes_empty p. Proof. by destruct p. Qed.
Lemma at_P_adv_le p : 0 <= at_P_adv p <= in_cs p. Proof. by destruct p. Qed.
Lemma at_C_adv_le p : 0 <= at_C_adv p <= in_cs p. Proof. by destruct p. Qed.

Lemma sem_wait_Some v v' : sem_wait v = Some v' → 0 < v ∧ v' = v - 1.
Proof.
  unfold sem_wait. destruct (0 <? v) eqn:E; [|done].
  intros [= <-]. apply Z.ltb_lt in E. done.
Qed.

(** Below [SEM_VALUE_MAX] a post adds one; at [SEM_VALUE_MAX] it fails and
    changes nothing. *)
Lemma sem_post_below v : v < SEM_VALUE_MAX → sem_post v = v + 1.
Proof.
  intros H. unfold sem_post. by rewrite (proj2 (Z.ltb_lt _ _) H).
Qed.

Lemma sem_post_full v : SEM_VALUE_MAX <= v → sem_post v = v.
Proof.
  intros H. unfold sem_post. by rewrite (proj2 (Z.ltb_ge _ _) H).
Qed.


Section Facts.

Variables BUFFER_SIZE NUM_ITEMS : Z.
Hypothesis size_ok : 0 < BUFFER_SIZE <= CInt.INT_MAX.
Hypothesis items_ok : 0 <= CInt.div NUM_ITEMS 2.

Local Abbreviation thread_step := (Semaphores.thread_step BUFFER_SIZE NUM_ITEMS).
Local Abbreviation sched_step := (Semaphores.sched_step BUFFER_SIZE NUM_ITEMS).
Local Abbreviation run := (Semaphores.run BUFFER_SIZE NUM_ITEMS).
Local Abbreviation advance := (Semaphores.advance BUFFER_SIZE).
Local Abbreviation init := (Semaphores.init BUFFER_SIZE).
Local Abbreviation sem_ok := (Semaphores.sem_ok BUFFER_SIZE).
Local Abbreviation loop_ok := (Semaphores.loop_ok NUM_ITEMS).
Local Abbreviation inv := (Semaphores.inv BUFFER_SIZE NUM_ITEMS).

Lemma sem_advance_spec x : 0 <= x < BUFFER_SIZE → advance x = (x + 1) mod BUFFER_SIZE.
Proof.
  intros Hx. unfold Semaphores.advance.
  rewrite CIntFacts.add_exact, CIntFacts.rem_exact; try lia; try done.
  unfold CInt.in_range, CInt.INT_MIN, CInt.INT_MAX in *. lia.
Qed.

Lemma sem_sched_step_inv t c c' e :
  sched_step t c = Some (c', e) →
  ∃ l s' l', threads c !! t = Some l ∧ thread_step t (sh c) l = Step s' l' e
             ∧ c' = Config s' (<[t := l']> (threads c)).
Proof.
  unfold Semaphores.sched_step. intros H.
  destruct (threads c !! t) as [l|]; [|done].
  destruct (thread_step t (sh c) l) as [s' l' e'| | |] eqn:E; try done.
  exists l, s', l'. simplify_eq. auto.
Qed.

(** In the mutex section no other thread is at an [advance] statement. *)
Lemma alone_in_cs tr c t l :
  sem_ok tr c → threads c !! t = Some l → in_cs (pc l) = 1 →
  mutex (sh c) = 0 ∧
  tally at_P_adv (threads c) = at_P_adv (pc l) ∧
  tally at_C_adv (threads c) = at_C_adv (pc l).
Proof.
  intros H Hl Hcs.
  pose proof (so_mutex _ _ _ H) as Hm. pose proof (so_mutex_pos _ _ _ H) as Hp.
  pose proof (tally_others_le _ _ _ t l at_P_adv_le Hl).
  pose proof (tally_others_le _ _ _ t l at_C_adv_le Hl).
  pose proof (tally_ge in_cs _ t l in_cs_range Hl). lia.
Qed.

Lemma sem_ok_step tr c t c' e :
  sem_ok tr c → sched_step t c = Some (c', e) → sem_ok (tr ++ e) c'.
Proof.
  intros H Hs. apply sem_sched_step_inv in Hs as (l & s' & l' & Hl & Hst & ->).
  pose proof (tally_ge has_empty _ t l has_empty_range Hl) as Ghe.
  pose proof (tally_ge has_full _ t l has_full_range Hl) as Ghf.
  pose proof (tally_nonneg owes_empty (threads c) owes_empty_range) as Goe.
  pose proof (tally_nonneg owes_full (threads c) owes_full_range) as Gof.
  pose proof (tally_nonneg has_empty (threads c) has_empty_range) as Ghe0.
  pose proof (tally_nonneg has_full (threads c) has_full_range) as Ghf0.
  pose proof (tally_ge owes_empty _ t l owes_empty_range Hl) as Gle.
  pose proof (tally_ge owes_full _ t l owes_full_range Hl) as Glf.
  pose proof (alone_in_cs tr c t l H Hl) as Galone.
  destruct c as [s ts]; simpl in *.
  unfold Semaphores.thread_step in Hst.
  destruct l as [n j x p]; simpl in *.
  destruct p; repeat case_match; simplify_eq;
    repeat match goal with
           | H : sem_wait _ = Some _ |- _ => apply sem_wait_Some in H as [? ->]
           end;
    simpl in *;
    destruct H as [Hmx Hmp Hem Hep Hfu Hfp Hlen Hin Hout Hslots Hfifo];
    simpl in *.
  all: try (constructor; simpl; rewrite ?(tally_insert _ ts t _ _ Hl); simpl;
            rewrite ?sem_puts_app, ?sem_takes_app; simpl;
            rewrite ?app_nil_r, ?length_app; simpl;
            rewrite ?Z.add_0_r, ?Z.sub_0_r;
            rewrite ?sem_post_below
              by (unfold SEM_VALUE_MAX, CInt.INT_MAX in *;
                  try (destruct (Galone eq_refl) as (? & _ & _)); lia);
            first [ done | lia | idtac ]).
  all: try by rewrite length_insert.
  all: try (rewrite Hin; f_equal; lia).
  all: try (rewrite Hout; f_equal; lia).
  all: try (rewrite take_app_le by lia; done).
  all: try (intros k Hk; apply Hslots; lia).
  all: try (rewrite sem_advance_spec
              by (rewrite ?Hin, ?Hout; apply Z.mod_pos_bound; lia);
            rewrite ?Hin, ?Hout, mod_succ_mod by lia; f_equal; lia).
  - (* buffer[in] = item *)
    destruct (Galone eq_refl) as (_ & Hadv & _). rewrite Hadv, Z.sub_0_r in Hin.
    intros k Hk. destruct (decide (k = length (puts tr))) as [->|Hne].
    + rewrite Hin, list_lookup_insert_eq.
      * by rewrite list_lookup_middle.
      * pose proof (Z.mod_pos_bound (Z.of_nat (length (puts tr))) BUFFER_SIZE).
        lia.
    + rewrite lookup_app_l by lia.
      rewrite list_lookup_insert_ne; [apply Hslots; lia|].
      rewrite Hin. intros E.
      pose proof (Z.mod_pos_bound (Z.of_nat k) BUFFER_SIZE ltac:(lia)).
      pose proof (Z.mod_pos_bound (Z.of_nat (length (puts tr))) BUFFER_SIZE
                    ltac:(lia)).
      apply Z2Nat.inj in E; try lia.
      revert E. apply mod_apart; lia.
  - (* item = buffer[out] *)
    destruct (Galone eq_refl) as (_ & _ & Hadv). rewrite Hadv, Z.sub_0_r in Hout.
    rewrite Nat.add_1_r. erewrite take_S_r; [by rewrite <- Hfifo|].
    rewrite <- Hslots by lia. by rewrite <- Hout.
Qed.

(** *** The loops *)

Lemma step_events t s l s' l' e :
  thread_step t s l = Step s' l' e →
  e = [] ∨ (∃ x, e = [Put t x]) ∨ (∃ x, e = [Take t x]).
Proof.
  unfold Semaphores.thread_step.
  destruct (pc l); intros H; repeat case_match; simplify_eq; eauto.
Qed.

Lemma step_role t s l s' l' e :
  thread_step t s l = Step s' l' e → is_producer (pc l') = is_producer (pc l).
Proof.
  unfold Semaphores.thread_step.
  destruct (pc l) eqn:E; intros H; repeat case_match; simplify_eq; done.
Qed.

Lemma loop_ok_self tr t s l s' l' e :
  loop_ok tr t l → thread_step t s l = Step s' l' e → loop_ok (tr ++ e) t l'.
Proof.
  intros [Hr Hb Hret Hp Hc] Hst.
  pose proof (CIntFacts.wrap_range (Z.quot NUM_ITEMS 2)) as Hd.
  fold (CInt.div NUM_ITEMS 2) in Hd.
  unfold Semaphores.thread_step in Hst.
  destruct l as [n j x p]; unfold done_puts, done_takes in *; simpl in *.
  destruct p; repeat case_match; simplify_eq; simpl in *;
    repeat match goal with
           | H : (_ <? _) = true |- _ => apply Z.ltb_lt in H
           | H : (_ <? _) = false |- _ => apply Z.ltb_ge in H
           end;
    try specialize (Hb eq_refl);
    constructor; unfold done_puts, done_takes; simpl;
    rewrite ?CIntFacts.add_exact
      by (unfold CInt.in_range, CInt.INT_MIN, CInt.INT_MAX in *; lia);
    rewrite ?puts_by_app, ?takes_by_app; simpl; rewrite ?decide_True by done;
    rewrite ?app_nil_r, ?length_app; simpl; try done; try lia;
    intros [|]; done.
Qed.

Lemma loop_ok_other tr t u s l s' l' e lu :
  u ≠ t → thread_step t s l = Step s' l' e → loop_ok tr u lu →
  loop_ok (tr ++ e) u lu.
Proof.
  intros Hne Hst [Hr Hb Hret Hp Hc].
  constructor; try done; rewrite ?puts_by_app, ?takes_by_app;
    destruct (step_events _ _ _ _ _ _ Hst) as [-> | [[x ->] | [x ->]]]; simpl;
    rewrite ?decide_False by done; by rewrite ?app_nil_r.
Qed.

Lemma total_insert g ts t l l' :
  ts !! t = Some l → total g (<[t := l']> ts) = total g ts - g l + g l'.
Proof.
  revert t. induction ts as [|a ts IH]; intros [|t] H; simplify_eq/=; [lia|].
  rewrite (IH t) by done. lia.
Qed.

(** A transition makes at most one access, and the thread's own count of
    accesses follows. *)
Lemma done_step tr t s l s' l' e :
  loop_ok tr t l → thread_step t s l = Step s' l' e →
  done_puts l' = done_puts l + Z.of_nat (length (puts e)) ∧
  done_takes l' = done_takes l + Z.of_nat (length (takes e)).
Proof.
  intros [Hr Hb Hret Hp Hc] Hst.
  pose proof (CIntFacts.wrap_range (Z.quot NUM_ITEMS 2)) as Hd.
  fold (CInt.div NUM_ITEMS 2) in Hd.
  unfold Semaphores.thread_step in Hst.
  destruct l as [n j x p]; unfold done_puts, done_takes in *; simpl in *.
  destruct p; repeat case_match; simplify_eq; simpl in *;
    try specialize (Hb eq_refl);
    rewrite ?CIntFacts.add_exact
      by (unfold CInt.in_range, CInt.INT_MIN, CInt.INT_MAX in *; lia);
    lia.
Qed.

Lemma sem_inv_step ts0 tr c t c' e :
  inv ts0 tr c → sched_step t c = Some (c', e) → inv ts0 (tr ++ e) c'.
Proof.
  intros [Hs Hl Hp Hc Hr] Hst. split.
  - by eapply sem_ok_step.
  - apply sem_sched_step_inv in Hst as (l & s' & l' & Hlt & Hst & ->).
    intros u lu. simpl. destruct (decide (u = t)) as [->|Hne].
    + rewrite list_lookup_insert_eq by (by eapply lookup_lt_Some).
      intros [= <-]. eapply loop_ok_self; [by apply Hl | exact Hst].
    + rewrite list_lookup_insert_ne by done. intros Hu.
      eapply loop_ok_other; [exact Hne | exact Hst | by apply Hl].
  - apply sem_sched_step_inv in Hst as (l & s' & l' & Hlt & Hst & ->). simpl.
    rewrite (total_insert _ _ _ _ _ Hlt), sem_puts_app, length_app.
    destruct (done_step tr t _ _ _ _ _ (Hl t l Hlt) Hst) as [-> _]. lia.
  - apply sem_sched_step_inv in Hst as (l & s' & l' & Hlt & Hst & ->). simpl.
    rewrite (total_insert _ _ _ _ _ Hlt), sem_takes_app, length_app.
    destruct (done_step tr t _ _ _ _ _ (Hl t l Hlt) Hst) as [_ ->]. lia.
  - apply sem_sched_step_inv in Hst as (l & s' & l' & Hlt & Hst & ->). simpl.
    rewrite list_fmap_insert, <- Hr. apply list_insert_id.
    rewrite list_lookup_fmap, Hlt. simpl. f_equal. symmetry. eapply step_role, Hst.
Qed.

Lemma tally_created f ts :
  f P_for = 0 → f C_for = 0 → Forall created ts → tally f ts = 0.
Proof.
  intros Hp Hc. induction 1 as [|l ts [-> | ->] _ IH]; simpl; lia.
Qed.

Lemma total_created ts :
  Forall created ts → total done_puts ts = 0 ∧ total done_takes ts = 0.
Proof.
  induction 1 as [|l ts [-> | ->] _ [IH1 IH2]]; simpl; rewrite ?IH1, ?IH2; done.
Qed.

Lemma sem_ok_init ts : Forall created ts → sem_ok [] (init ts).
Proof.
  intros Hts.
  constructor; simpl; rewrite ?tally_created by done;
    rewrite ?length_replicate, ?Z.mod_0_l; try done; try lia.
Qed.

Lemma sem_ok_reach ts sched c tr :
  Forall created ts → run sched (init ts) = Some (c, tr) → sem_ok tr c.
Proof.
  intros Hts Hr.
  apply (MachineFacts.run_invariant sched_step sem_ok
           ltac:(intros; by eapply sem_ok_step) sched [] _ _ _
           (sem_ok_init ts Hts) Hr).
Qed.

Lemma sem_inv_init ts : Forall created ts → inv ts [] (init ts).
Proof.
  intros Hts. split; [by apply sem_ok_init|
                      |simpl; by rewrite (proj1 (total_created ts Hts))
                      |simpl; by rewrite (proj2 (total_created ts Hts))|done].
  - intros t l Hl. simpl in Hl.
    rewrite Forall_lookup in Hts. specialize (Hts t l Hl).
    destruct Hts as [-> | ->]; constructor; unfold done_puts, done_takes;
      simpl; try done; try lia; by intros [|].
Qed.

Lemma sem_inv_run ts0 sched tr c c' e :
  inv ts0 tr c → run sched c = Some (c', e) → inv ts0 (tr ++ e) c'.
Proof.
  apply (MachineFacts.run_invariant sched_step (inv ts0)).
  intros. by eapply sem_inv_step.
Qed.

Lemma sem_inv_reach ts sched c tr :
  Forall created ts → run sched (init ts) = Some (c, tr) → inv ts tr c.
Proof. intros Hts Hr. apply (sem_inv_run ts sched [] _ _ _ (sem_inv_init ts Hts) Hr). Qed.

(** *** Consequences for every reachable configuration *)

Lemma sem_fifo_nth tr c n x :
  sem_ok tr c → takes tr !! n = Some x → puts tr !! n = Some x.
Proof.
  intros Hs Hn. eapply prefix_lookup_Some; [exact Hn|].
  rewrite (so_fifo _ _ _ Hs). apply prefix_take.
Qed.

Lemma sem_cursor_range tr c :
  sem_ok tr c →
  0 <= in_ (sh c) < BUFFER_SIZE ∧ 0 <= out (sh c) < BUFFER_SIZE ∧
  Z.of_nat (length (buffer (sh c))) = BUFFER_SIZE.
Proof.
  intros Hs. rewrite (so_in _ _ _ Hs), (so_out _ _ _ Hs).
  split; [|split]; [apply Z.mod_pos_bound; lia ..|exact (so_len _ _ _ Hs)].
Qed.

Lemma sem_in_bounds_true k (b : list Z) :
  0 <= k < Z.of_nat (length b) → in_bounds k b = true.
Proof.
  intros H. unfold in_bounds. apply andb_true_iff.
  split; [apply Z.leb_le|apply Z.ltb_lt]; lia.
Qed.

Lemma sem_no_undefined tr c t l :
  sem_ok tr c → threads c !! t = Some l → thread_step t (sh c) l ≠ Undefined.
Proof.
  intros Hi Hl. destruct (sem_cursor_range tr c Hi) as (Hin & Hout & Hlen).
  unfold Semaphores.thread_step.
  destruct (pc l) eqn:Hp; repeat case_match; try done;
    rewrite sem_in_bounds_true in * by lia; try done.
  destruct (lookup_lt_is_Some_2 (buffer (sh c)) (Z.to_nat (out (sh c)))
              ltac:(lia)) as [x Hx]. congruence.
Qed.

(** The semaphores never go below zero nor above the number of slots. *)
Lemma permits_range tr c :
  sem_ok tr c →
  0 <= empty (sh c) <= BUFFER_SIZE ∧ 0 <= full (sh c) <= BUFFER_SIZE ∧
  0 <= mutex (sh c) <= 1.
Proof.
  intros Hs.
  pose proof (tally_nonneg owes_empty (threads c) owes_empty_range).
  pose proof (tally_nonneg owes_full (threads c) owes_full_range).
  pose proof (tally_nonneg has_empty (threads c) has_empty_range).
  pose proof (tally_nonneg has_full (threads c) has_full_range).
  pose proof (tally_nonneg in_cs (threads c) in_cs_range).
  destruct Hs as [Hmx Hmp Hem Hep Hfu Hfp Hlen Hin Hout Hslots Hfifo]. lia.
Qed.

(** A producer about to store finds a free slot; a consumer about to fetch
    finds a stored item. *)
Lemma occupancy tr c :
  sem_ok tr c →
  0 <= Z.of_nat (length (puts tr)) - Z.of_nat (length (takes tr)) <= BUFFER_SIZE ∧
  ∀ t l, threads c !! t = Some l →
    (pc l = P_write →
       Z.of_nat (length (puts tr)) - Z.of_nat (length (takes tr)) < BUFFER_SIZE) ∧
    (pc l = C_read →
       0 < Z.of_nat (length (puts tr)) - Z.of_nat (length (takes tr))).
Proof.
  intros Hs.
  pose proof (tally_nonneg owes_empty (threads c) owes_empty_range).
  pose proof (tally_nonneg owes_full (threads c) owes_full_range).
  pose proof (tally_nonneg has_empty (threads c) has_empty_range).
  pose proof (tally_nonneg has_full (threads c) has_full_range).
  destruct Hs as [Hmx Hmp Hem Hep Hfu Hfp Hlen Hin Hout Hslots Hfifo].
  split; [lia|]. intros t l Hl.
  pose proof (tally_ge has_empty _ t l has_empty_range Hl) as Ghe.
  pose proof (tally_ge has_full _ t l has_full_range Hl) as Ghf.
  split; intros Hp; rewrite Hp in *; simpl in *; lia.
Qed.

(** *** The sections under the mutex semaphore are atomic *)

Local Abbreviation in_put := (Semaphores.in_put BUFFER_SIZE).
Local Abbreviation in_take := (Semaphores.in_take BUFFER_SIZE).

Lemma sem_ok_some_step u c c' e :
  (∃ tr, sem_ok tr c) → sched_step u c = Some (c', e) → ∃ tr, sem_ok tr c'.
Proof. intros [tr H] Hs. exists (tr ++ e). by eapply sem_ok_step. Qed.

(** A thread outside the mutex section leaves buffer and cursors alone. *)
Lemma outside_step t s l s' l' e :
  thread_step t s l = Step s' l' e → in_cs (pc l) = 0 →
  buffer s' = buffer s ∧ in_ s' = in_ s ∧ out s' = out s ∧ e = [].
Proof.
  unfold Semaphores.thread_step.
  destruct (pc l) eqn:E; intros H Hcs; repeat case_match; simplify_eq; done.
Qed.

Lemma sem_other_thread_outside c t l u c' e :
  (∃ tr, sem_ok tr c) → threads c !! t = Some l → in_cs (pc l) = 1 → u ≠ t →
  sched_step u c = Some (c', e) →
  buffer (sh c') = buffer (sh c) ∧ in_ (sh c') = in_ (sh c) ∧
  out (sh c') = out (sh c) ∧ threads c' !! t = Some l ∧ e = [].
Proof.
  intros [tr Hs] Hl Hcs Hne Hst.
  apply sem_sched_step_inv in Hst as (lu & s' & lu' & Hlu & Hst & ->). simpl.
  rewrite list_lookup_insert_ne by done.
  assert (in_cs (pc lu) = 0) as Hcu.
  { pose proof (tally_two in_cs _ t l u lu in_cs_range Hl Hlu ltac:(done)).
    pose proof (so_mutex _ _ _ Hs). pose proof (so_mutex_pos _ _ _ Hs).
    pose proof (in_cs_range (pc lu)). destruct (pc lu); simpl in *; lia. }
  destruct (outside_step _ _ _ _ _ _ Hst Hcu) as (? & ? & ? & ?). done.
Qed.

Lemma put_stage_in_cs k : in_cs (put_stage_loc k) = 1.
Proof. by destruct k as [|[|k]]. Qed.

Lemma take_stage_in_cs k : in_cs (take_stage_loc k) = 1.
Proof. by destruct k as [|[|k]]. Qed.

Lemma sem_put_section_run t x b0 i0 o0 sched c c' e :
  (∃ tr, sem_ok tr c) → in_put t x b0 i0 o0 0 c → run sched c = Some (c', e) →
  Machine.turns t sched = 2%nat →
  in_put t x b0 i0 o0 2 c' ∧ e = [Put t x].
Proof.
  intros Hm Hq Hr Ht.
  apply (MachineFacts.atomic_run sched_step t 2 (λ c, ∃ tr, sem_ok tr c)
           (in_put t x b0 i0 o0)
           (λ k, match k with O => [Put t x] | _ => [] end)) with (k := O)
    in Hr; try done; try lia; clear Hm Hq Ht.
  - apply sem_ok_some_step.
  - intros k u c1 c2 e1 Hm (l & Hl & Hx & Hp & Ho & Hb & Hi) Hne Hs.
    destruct (sem_other_thread_outside c1 t l u c2 e1)
      as (Hb' & Hi' & Ho' & Hl' & ->); try done.
    { rewrite Hp. apply put_stage_in_cs. }
    split; [|done]. exists l. by rewrite Hb', Hi', Ho'.
  - intros k c1 c2 e1 Hk Hm (l & Hl & Hx & Hp & Ho & Hb & Hi) Hs.
    pose proof (lookup_lt_Some _ _ _ Hl) as Hlt.
    apply sem_sched_step_inv in Hs as (l0 & s' & l' & Hl0 & Hst & ->).
    rewrite Hl in Hl0. injection Hl0 as <-.
    unfold Semaphores.thread_step in Hst. rewrite Hp in Hst.
    destruct k as [|[|k]]; [..|lia]; simpl in Hst; repeat case_match;
      simplify_eq; (split; [|done]); eexists; simpl;
      rewrite list_lookup_insert_eq by done; split_and!; try done;
      by rewrite ?Hb, ?Hi.
Qed.

Lemma sem_take_section_run t x b0 i0 o0 sched c c' e :
  b0 !! Z.to_nat o0 = Some x →
  (∃ tr, sem_ok tr c) → in_take t x b0 i0 o0 0 c → run sched c = Some (c', e) →
  Machine.turns t sched = 2%nat →
  in_take t x b0 i0 o0 2 c' ∧ e = [Take t x].
Proof.
  intros Hx Hm Hq Hr Ht.
  apply (MachineFacts.atomic_run sched_step t 2 (λ c, ∃ tr, sem_ok tr c)
           (in_take t x b0 i0 o0)
           (λ k, match k with O => [Take t x] | _ => [] end)) with (k := O)
    in Hr; try done; try lia; clear Hm Hq Ht.
  - apply sem_ok_some_step.
  - intros k u c1 c2 e1 Hm (l & Hl & Hit & Hp & Hi & Hb & Ho) Hne Hs.
    destruct (sem_other_thread_outside c1 t l u c2 e1)
      as (Hb' & Hi' & Ho' & Hl' & ->); try done.
    { rewrite Hp. apply take_stage_in_cs. }
    split; [|done]. exists l. by rewrite Hb', Hi', Ho'.
  - intros k c1 c2 e1 Hk Hm (l & Hl & Hit & Hp & Hi & Hb & Ho) Hs.
    pose proof (lookup_lt_Some _ _ _ Hl) as Hlt.
    apply sem_sched_step_inv in Hs as (l0 & s' & l' & Hl0 & Hst & ->).
    rewrite Hl in Hl0. injection Hl0 as <-.
    unfold Semaphores.thread_step in Hst. rewrite Hp, Hb, Ho in Hst.
    destruct k as [|[|k]]; [..|lia]; simpl in Hst; repeat case_match;
      simplify_eq; (split; [|done]); eexists; simpl;
      rewrite list_lookup_insert_eq by done; split_and!; try done;
      intros _; simpl; by apply Hit.
Qed.

(** From the store of a producer to its [sem_post(&mutex)], whatever the
    other threads do meanwhile, the buffer and the cursors change by this
    store and this advance only. *)
Lemma sem_put_atomic tr c t l sched c' e :
  sem_ok tr c → threads c !! t = Some l → pc l = P_write →
  run sched c = Some (c', e) → Machine.turns t sched = 2%nat →
  Z.of_nat (length (puts tr)) - Z.of_nat (length (takes tr)) < BUFFER_SIZE ∧
  buffer (sh c') = <[Z.to_nat (in_ (sh c)) := item l]> (buffer (sh c)) ∧
  in_ (sh c') = (in_ (sh c) + 1) mod BUFFER_SIZE ∧
  out (sh c') = out (sh c) ∧
  (∃ l', threads c' !! t = Some l' ∧ pc l' = P_post_mutex) ∧
  e = [Put t (item l)].
Proof.
  intros Hi Hl Hp Hr Ht.
  destruct (occupancy tr c Hi) as [_ Hocc].
  destruct (sem_cursor_range tr c Hi) as (Hin & _ & _).
  destruct (sem_put_section_run t (item l) (buffer (sh c)) (in_ (sh c)) (out (sh c))
              sched c c' e) as [(l' & Hl' & _ & Hp' & Ho & Hb & Hi') ->];
    try done.
  { by exists tr. }
  { exists l. by rewrite Hp. }
  split; [by apply (Hocc t l Hl)|].
  rewrite Hb, Hi', Ho, sem_advance_spec by done. split_and!; try done. by exists l'.
Qed.

Lemma sem_take_atomic tr c t l sched c' e :
  sem_ok tr c → threads c !! t = Some l → pc l = C_read →
  run sched c = Some (c', e) → Machine.turns t sched = 2%nat →
  0 < Z.of_nat (length (puts tr)) - Z.of_nat (length (takes tr)) ∧
  ∃ x, buffer (sh c) !! Z.to_nat (out (sh c)) = Some x ∧
       buffer (sh c') = buffer (sh c) ∧
       in_ (sh c') = in_ (sh c) ∧
       out (sh c') = (out (sh c) + 1) mod BUFFER_SIZE ∧
       (∃ l', threads c' !! t = Some l' ∧ pc l' = C_post_mutex ∧ item l' = x) ∧
       e = [Take t x].
Proof.
  intros Hi Hl Hp Hr Ht.
  destruct (occupancy tr c Hi) as [_ Hocc].
  destruct (sem_cursor_range tr c Hi) as (_ & Hout & Hlen).
  destruct (lookup_lt_is_Some_2 (buffer (sh c)) (Z.to_nat (out (sh c)))
              ltac:(lia)) as [x Hx].
  destruct (sem_take_section_run t x (buffer (sh c)) (in_ (sh c)) (out (sh c))
              sched c c' e) as [(l' & Hl' & Hit & Hp' & Hi' & Hb & Ho) ->];
    try done.
  { by exists tr. }
  { exists l. by rewrite Hp. }
  split; [by apply (Hocc t l Hl)|]. exists x.
  rewrite Hb, Hi', Ho, sem_advance_spec by done. split_and!; try done.
  exists l'. split_and!; try done. by apply Hit.
Qed.

(** *** Number of iterations *)

Lemma returned_producer l :
  bool_decide (pc l = P_ret ∨ pc l = C_ret) = true →
  is_producer (pc l) = true → pc l = P_ret.
Proof. intros H Hp. apply bool_decide_eq_true in H as [H|H]; [done|]. by rewrite H in Hp. Qed.

Lemma returned_consumer l :
  bool_decide (pc l = P_ret ∨ pc l = C_ret) = true →
  is_producer (pc l) = false → pc l = C_ret.
Proof. intros H Hp. apply bool_decide_eq_true in H as [H|H]; [|done]. by rewrite H in Hp. Qed.

(** When the four threads of [main] have returned, each has gone
    [NUM_ITEMS / 2] times round its loop and made as many accesses. *)
Lemma iterations_main tr c :
  inv main_threads tr c → terminated c = true →
  Forall (λ l, i l = CInt.div NUM_ITEMS 2) (threads c) ∧
  Z.of_nat (length (puts_by 0 tr)) = CInt.div NUM_ITEMS 2 ∧
  Z.of_nat (length (puts_by 1 tr)) = CInt.div NUM_ITEMS 2 ∧
  Z.of_nat (length (takes_by 2 tr)) = CInt.div NUM_ITEMS 2 ∧
  Z.of_nat (length (takes_by 3 tr)) = CInt.div NUM_ITEMS 2 ∧
  Z.of_nat (length (puts tr)) = 2 * CInt.div NUM_ITEMS 2 ∧
  Z.of_nat (length (takes tr)) = 2 * CInt.div NUM_ITEMS 2.
Proof.
  intros [_ Hl Hp Hc Hr] Ht. destruct c as [s ts]. simpl in *.
  unfold terminated in Ht; simpl in Ht.
  destruct ts as [|l0 [|l1 [|l2 [|l3 [|l4 ts]]]]]; try discriminate Hr.
  simpl in Hr, Ht. injection Hr as R0 R1 R2 R3.
  apply andb_true_iff in Ht as [T0 Ht]. apply andb_true_iff in Ht as [T1 Ht].
  apply andb_true_iff in Ht as [T2 Ht]. apply andb_true_iff in Ht as [T3 _].
  pose proof (returned_producer l0 T0 R0) as P0.
  pose proof (returned_producer l1 T1 R1) as P1.
  pose proof (returned_consumer l2 T2 R2) as P2.
  pose proof (returned_consumer l3 T3 R3) as P3.
  destruct (Hl 0%nat l0 eq_refl) as [_ _ I0 A0 _].
  destruct (Hl 1%nat l1 eq_refl) as [_ _ I1 A1 _].
  destruct (Hl 2%nat l2 eq_refl) as [_ _ I2 _ A2].
  destruct (Hl 3%nat l3 eq_refl) as [_ _ I3 _ A3].
  specialize (I0 (or_introl P0)). specialize (I1 (or_introl P1)).
  specialize (I2 (or_intror P2)). specialize (I3 (or_intror P3)).
  unfold done_puts, done_takes in *. simpl in Hp, Hc.
  rewrite P0, P1, P2, P3 in *. simpl in *.
  split; [repeat constructor; done|]. lia.
Qed.

End Facts.

End SemaphoresFacts.

(** ** Agreement of the two programs *)

Module RefinementFacts.
Import Refinement.

Section Facts.

Variables BUFFER_SIZE NUM_ITEMS : Z.
Hypothesis size_ok : 0 < BUFFER_SIZE <= CInt.INT_MAX.

Local Abbreviation agree := (Refinement.agree BUFFER_SIZE).
Local Abbreviation same_reply := (Refinement.same_reply BUFFER_SIZE).
Local Abbreviation same_result := (Refinement.same_result BUFFER_SIZE).
Local Abbreviation cv_put := (CondVar.put_call BUFFER_SIZE NUM_ITEMS).
Local Abbreviation cv_take := (CondVar.take_call BUFFER_SIZE NUM_ITEMS).
Local Abbreviation sem_put := (Semaphores.put_call BUFFER_SIZE NUM_ITEMS).
Local Abbreviation sem_take := (Semaphores.take_call BUFFER_SIZE NUM_ITEMS).

Local Arguments CInt.add : simpl never.
Local Arguments CInt.sub : simpl never.
Local Arguments CInt.rem : simpl never.
Local Arguments CondVar.advance : simpl never.
Local Arguments Semaphores.advance : simpl never.
Local Arguments CondVar.in_bounds : simpl never.
Local Arguments Semaphores.in_bounds : simpl never.

Lemma cv_call_S fuel s l :
  CondVar.call BUFFER_SIZE NUM_ITEMS (S fuel) s l =
  match CondVar.thread_step BUFFER_SIZE NUM_ITEMS 0 s l with
  | CondVar.Step s' l' e =>
      match CondVar.pc l' with
      | CondVar.P_for | CondVar.C_for => CondVar.Returned s' l' e
      | CondVar.P_wait | CondVar.C_wait => CondVar.Suspended
      | _ =>
          match CondVar.call BUFFER_SIZE NUM_ITEMS fuel s' l' with
          | CondVar.Returned s2 l2 e2 => CondVar.Returned s2 l2 (e ++ e2)
          | r => r
          end
      end
  | CondVar.Wait => CondVar.Suspended
  | _ => CondVar.Stuck
  end.
Proof. reflexivity. Qed.

Lemma sem_call_S fuel s l :
  Semaphores.call BUFFER_SIZE NUM_ITEMS (S fuel) s l =
  match Semaphores.thread_step BUFFER_SIZE NUM_ITEMS 0 s l with
  | Semaphores.Step s' l' e =>
      match Semaphores.pc l' with
      | Semaphores.P_for | Semaphores.C_for => Semaphores.Returned s' l' e
      | _ =>
          match Semaphores.call BUFFER_SIZE NUM_ITEMS fuel s' l' with
          | Semaphores.Returned s2 l2 e2 => Semaphores.Returned s2 l2 (e ++ e2)
          | r => r
          end
      end
  | Semaphores.Wait => Semaphores.Suspended
  | _ => Semaphores.Stuck
  end.
Proof. reflexivity. Qed.

Local Arguments CondVar.call : simpl never.
Local Arguments Semaphores.call : simpl never.

Ltac cv_steps :=
  repeat (rewrite cv_call_S; unfold CondVar.thread_step; simpl).
Ltac sem_steps :=
  repeat (rewrite sem_call_S; unfold Semaphores.thread_step; simpl).
Ltac unfold_setters :=
  unfold CondVar.set_mutex, CondVar.set_count, CondVar.set_in,
    CondVar.set_out, CondVar.set_buffer, CondVar.goto, CondVar.incr_i,
    CondVar.set_item, Semaphores.set_mutex, Semaphores.set_empty,
    Semaphores.set_full, Semaphores.set_in, Semaphores.set_out,
    Semaphores.set_buffer, Semaphores.goto, Semaphores.incr_i,
    Semaphores.set_item, Semaphores.sem_post; simpl.

(** *** The calls in closed form *)

Lemma cv_put_returns a x :
  CondVar.mutex a = None →
  Z.of_nat (length (CondVar.buffer a)) = BUFFER_SIZE →
  0 <= CondVar.in_ a < BUFFER_SIZE →
  0 <= CondVar.count a < BUFFER_SIZE →
  cv_put a x = CondVar.Returned (CondVar.stored BUFFER_SIZE x a)
                 (CondVar.Local 0 1 x CondVar.P_for) [CondVar.Put 0 x].
Proof.
  intros Hm Hlen Hin Hc. destruct a as [b n i o m]; simpl in *. subst m.
  unfold CondVar.put_call. cv_steps.
  destruct (Z.eqb_spec n BUFFER_SIZE) as [->|_]; [lia|]. simpl. cv_steps.
  rewrite CondVarFacts.cv_in_bounds_true by (simpl; lia). simpl. cv_steps.
  unfold CondVar.stored; unfold_setters.
  rewrite (CondVarFacts.cv_advance_spec BUFFER_SIZE size_ok) by done.
  rewrite CIntFacts.add_exact
    by (unfold CInt.in_range, CInt.INT_MIN, CInt.INT_MAX in *; lia).
  done.
Qed.

Lemma cv_put_blocks a x :
  CondVar.mutex a = None → CondVar.count a = BUFFER_SIZE →
  cv_put a x = CondVar.Suspended.
Proof.
  intros Hm Hc. destruct a as [b n i o m]; simpl in *. subst m n.
  unfold CondVar.put_call. cv_steps.
  by rewrite Z.eqb_refl.
Qed.

Lemma cv_take_returns a x :
  CondVar.mutex a = None →
  Z.of_nat (length (CondVar.buffer a)) = BUFFER_SIZE →
  0 <= CondVar.out a < BUFFER_SIZE →
  0 < CondVar.count a <= BUFFER_SIZE →
  CondVar.buffer a !! Z.to_nat (CondVar.out a) = Some x →
  cv_take a = CondVar.Returned (CondVar.fetched BUFFER_SIZE a)
                (CondVar.Local 0 1 x CondVar.C_for) [CondVar.Take 0 x].
Proof.
  intros Hm Hlen Hout Hc Hx. destruct a as [b n i o m]; simpl in *. subst m.
  unfold CondVar.take_call. cv_steps.
  destruct (Z.eqb_spec n 0) as [->|_]; [lia|]. simpl. cv_steps.
  rewrite CondVarFacts.cv_in_bounds_true by (simpl; lia). rewrite Hx. simpl.
  cv_steps. unfold CondVar.fetched; unfold_setters.
  rewrite (CondVarFacts.cv_advance_spec BUFFER_SIZE size_ok) by done.
  rewrite CIntFacts.sub_exact
    by (unfold CInt.in_range, CInt.INT_MIN, CInt.INT_MAX in *; lia).
  done.
Qed.

Lemma cv_take_blocks a :
  CondVar.mutex a = None → CondVar.count a = 0 →
  cv_take a = CondVar.Suspended.
Proof.
  intros Hm Hc. destruct a as [b n i o m]; simpl in *. subst m n.
  unfold CondVar.take_call. by cv_steps.
Qed.

Local Abbreviation sem_stored := (Semaphores.stored BUFFER_SIZE).
Local Abbreviation sem_fetched := (Semaphores.fetched BUFFER_SIZE).

Lemma sem_put_returns b x :
  Semaphores.mutex b = 1 →
  Z.of_nat (length (Semaphores.buffer b)) = BUFFER_SIZE →
  0 <= Semaphores.in_ b < BUFFER_SIZE →
  0 < Semaphores.empty b →
  Semaphores.full b < Semaphores.SEM_VALUE_MAX →
  sem_put b x = Semaphores.Returned (sem_stored x b)
                  (Semaphores.Local 0 1 x Semaphores.P_for)
                  [Semaphores.Put 0 x].
Proof.
  intros Hm Hlen Hin He Hf. destruct b as [b i o em fu m]; simpl in *. subst m.
  unfold Semaphores.put_call. sem_steps.
  unfold Semaphores.sem_wait at 1. destruct (Z.ltb_spec 0 em); [|lia]. simpl.
  sem_steps.
  rewrite SemaphoresFacts.sem_in_bounds_true by (simpl; lia). simpl. sem_steps.
  unfold Semaphores.stored; unfold_setters.
  rewrite (SemaphoresFacts.sem_advance_spec BUFFER_SIZE size_ok) by done.
  destruct (Z.ltb_spec fu Semaphores.SEM_VALUE_MAX); [done|lia].
Qed.

(** With [full] at [SEM_VALUE_MAX] the producer's [sem_post(&full)] fails:
    the item is stored and [full] keeps its value. *)
Lemma sem_put_overflow b x :
  Semaphores.mutex b = 1 →
  Z.of_nat (length (Semaphores.buffer b)) = BUFFER_SIZE →
  0 <= Semaphores.in_ b < BUFFER_SIZE →
  0 < Semaphores.empty b →
  Semaphores.SEM_VALUE_MAX <= Semaphores.full b →
  sem_put b x = Semaphores.Returned
                  (Semaphores.set_full (sem_stored x b) (Semaphores.full b))
                  (Semaphores.Local 0 1 x Semaphores.P_for)
                  [Semaphores.Put 0 x].
Proof.
  intros Hm Hlen Hin He Hf. destruct b as [b i o em fu m]; simpl in *. subst m.
  unfold Semaphores.put_call. sem_steps.
  unfold Semaphores.sem_wait at 1. destruct (Z.ltb_spec 0 em); [|lia]. simpl.
  sem_steps.
  rewrite SemaphoresFacts.sem_in_bounds_true by (simpl; lia). simpl. sem_steps.
  unfold Semaphores.stored; unfold_setters.
  rewrite (SemaphoresFacts.sem_advance_spec BUFFER_SIZE size_ok) by done.
  destruct (Z.ltb_spec fu Semaphores.SEM_VALUE_MAX); [lia|done].
Qed.

Lemma sem_put_blocks b x :
  Semaphores.empty b <= 0 → sem_put b x = Semaphores.Suspended.
Proof.
  intros He. destruct b as [b i o em fu m]; simpl in *.
  unfold Semaphores.put_call. sem_steps.
  unfold Semaphores.sem_wait. by destruct (Z.ltb_spec 0 em); [lia|].
Qed.

Lemma sem_take_returns b x :
  Semaphores.mutex b = 1 →
  Z.of_nat (length (Semaphores.buffer b)) = BUFFER_SIZE →
  0 <= Semaphores.out b < BUFFER_SIZE →
  0 < Semaphores.full b →
  Semaphores.empty b < Semaphores.SEM_VALUE_MAX →
  Semaphores.buffer b !! Z.to_nat (Semaphores.out b) = Some x →
  sem_take b = Semaphores.Returned (sem_fetched b)
                 (Semaphores.Local 0 1 x Semaphores.C_for)
                 [Semaphores.Take 0 x].
Proof.
  intros Hm Hlen Hout Hf He Hx. destruct b as [b i o em fu m]; simpl in *.
  subst m.
  unfold Semaphores.take_call. sem_steps.
  unfold Semaphores.sem_wait at 1. destruct (Z.ltb_spec 0 fu); [|lia]. simpl.
  sem_steps.
  rewrite SemaphoresFacts.sem_in_bounds_true by (simpl; lia). rewrite Hx. simpl.
  sem_steps. unfold Semaphores.fetched; unfold_setters.
  rewrite (SemaphoresFacts.sem_advance_spec BUFFER_SIZE size_ok) by done.
  destruct (Z.ltb_spec em Semaphores.SEM_VALUE_MAX); [done|lia].
Qed.

(** With [empty] at [SEM_VALUE_MAX] the consumer's [sem_post(&empty)]
    fails: the item is fetched and [empty] keeps its value. *)
Lemma sem_take_overflow b x :
  Semaphores.mutex b = 1 →
  Z.of_nat (length (Semaphores.buffer b)) = BUFFER_SIZE →
  0 <= Semaphores.out b < BUFFER_SIZE →
  0 < Semaphores.full b →
  Semaphores.SEM_VALUE_MAX <= Semaphores.empty b →
  Semaphores.buffer b !! Z.to_nat (Semaphores.out b) = Some x →
  sem_take b = Semaphores.Returned
                 (Semaphores.set_empty (sem_fetched b) (Semaphores.empty b))
                 (Semaphores.Local 0 1 x Semaphores.C_for)
                 [Semaphores.Take 0 x].
Proof.
  intros Hm Hlen Hout Hf He Hx. destruct b as [b i o em fu m]; simpl in *.
  subst m.
  unfold Semaphores.take_call. sem_steps.
  unfold Semaphores.sem_wait at 1. destruct (Z.ltb_spec 0 fu); [|lia]. simpl.
  sem_steps.
  rewrite SemaphoresFacts.sem_in_bounds_true by (simpl; lia). rewrite Hx. simpl.
  sem_steps. unfold Semaphores.fetched; unfold_setters.
  rewrite (SemaphoresFacts.sem_advance_spec BUFFER_SIZE size_ok) by done.
  destruct (Z.ltb_spec em Semaphores.SEM_VALUE_MAX); [lia|done].
Qed.

Lemma sem_take_blocks b :
  Semaphores.full b <= 0 → sem_take b = Semaphores.Suspended.
Proof.
  intros He. destruct b as [b i o em fu m]; simpl in *.
  unfold Semaphores.take_call. sem_steps.
  unfold Semaphores.sem_wait. by destruct (Z.ltb_spec 0 fu); [lia|].
Qed.

(** *** Agreement *)

Lemma agree_stored a b x :
  agree a b → CondVar.count a < BUFFER_SIZE →
  agree (CondVar.stored BUFFER_SIZE x a) (sem_stored x b).
Proof.
  intros [Hb Hi Ho Hf He Hm Hs Hlen Hir Hor Hcr] Hc.
  constructor; simpl; rewrite ?Hb, ?Hi, ?Ho, ?Hf, ?He, ?length_insert;
    try done; try lia.
  apply Z.mod_pos_bound; lia.
Qed.

Lemma agree_fetched a b :
  agree a b → 0 < CondVar.count a →
  agree (CondVar.fetched BUFFER_SIZE a) (sem_fetched b).
Proof.
  intros [Hb Hi Ho Hf He Hm Hs Hlen Hir Hor Hcr] Hc.
  constructor; simpl; rewrite ?Hb, ?Hi, ?Ho, ?Hf, ?He;
    try done; try lia.
  apply Z.mod_pos_bound; lia.
Qed.

Lemma put_agrees a b x :
  agree a b → same_reply (cv_put a x) (sem_put b x).
Proof.
  intros H. pose proof H as [Hb Hi Ho Hf He Hm Hs Hlen Hir Hor Hcr].
  destruct (decide (CondVar.count a = BUFFER_SIZE)) as [Hfull|Hroom].
  - rewrite cv_put_blocks, sem_put_blocks by (try done; lia). done.
  - rewrite cv_put_returns, sem_put_returns
      by (rewrite ?Hb, ?Hi; try done;
          unfold Semaphores.SEM_VALUE_MAX, CInt.INT_MAX in *; lia).
    simpl. split; [apply agree_stored; [done|lia]|done].
Qed.

Lemma take_agrees a b :
  agree a b → same_reply (cv_take a) (sem_take b).
Proof.
  intros H. pose proof H as [Hb Hi Ho Hf He Hm Hs Hlen Hir Hor Hcr].
  destruct (decide (CondVar.count a = 0)) as [Hempty|Hitem].
  - rewrite cv_take_blocks, sem_take_blocks by (try done; lia). done.
  - destruct (lookup_lt_is_Some_2 (CondVar.buffer a) (Z.to_nat (CondVar.out a))
                ltac:(lia)) as [x Hx].
    rewrite (cv_take_returns a x), (sem_take_returns b x)
      by (rewrite ?Hb, ?Ho; try done;
          unfold Semaphores.SEM_VALUE_MAX, CInt.INT_MAX in *; lia).
    simpl. split; [apply agree_fetched; [done|lia]|done].
Qed.

Lemma ops_agree ops : ∀ a b,
  agree a b →
  same_result (Refinement.cv_ops BUFFER_SIZE NUM_ITEMS ops a)
              (Refinement.sem_ops BUFFER_SIZE NUM_ITEMS ops b).
Proof.
  induction ops as [|[x|] ops IH]; intros a b H; simpl.
  - done.
  - pose proof (put_agrees a b x H) as Hp.
    destruct (cv_put a x) as [a' la ea| |], (sem_put b x) as [b' lb eb| |];
      simpl in Hp; try done.
    apply IH. by destruct Hp.
  - pose proof (take_agrees a b H) as Hp.
    destruct (cv_take a) as [a' la ea| |], (sem_take b) as [b' lb eb| |];
      simpl in Hp; try done.
    destruct Hp as (H' & Hitem & _). specialize (IH a' b' H').
    destruct (Refinement.cv_ops _ _ ops a') as [[a2 xs]|],
             (Refinement.sem_ops _ _ ops b') as [[b2 ys]|]; simpl in *; try done.
    destruct IH as [? ->]. by rewrite Hitem.
Qed.

Lemma agree_init :
  agree (CondVar.init_shared BUFFER_SIZE) (Semaphores.init_shared BUFFER_SIZE).
Proof.
  constructor; simpl; rewrite ?length_replicate; try done; lia.
Qed.

End Facts.
End RefinementFacts.

(** ** The waiters *)

Module SpuriousWakeupFacts.
Import SpuriousWakeup.

Lemma sw_sched_step_inv t c c' e :
  sched_step t c = Some (c', e) →
  ∃ j p s' p', threads c !! t = Some p ∧ thread_step t j (sh c) p = Step s' p' e
               ∧ c' = Config s' (<[t := p']> (threads c)).
Proof.
  unfold sched_step. intros H.
  destruct (threads c !! t) as [p|]; [|done].
  destruct (thread_step t _ (sh c) p) as [s' p' e'| |] eqn:E; try done.
  eexists _, p, s', p'. simplify_eq. eauto.
Qed.

Lemma ready_stays t j s p s' p' e :
  thread_step t j s p = Step s' p' e → ready s ≠ 0 → ready s' ≠ 0.
Proof.
  unfold thread_step, lock, unlock.
  destruct p; intros H; repeat case_match; simplify_eq; simpl; done.
Qed.

Lemma process_after_test t j s p s' e :
  thread_step t j s p = Step s' W_process e → ready s' ≠ 0.
Proof.
  unfold thread_step, lock, unlock.
  destruct p; intros H; repeat case_match; simplify_eq; simpl.
  by apply Z.eqb_neq.
Qed.

Lemma correct_event t j s p s' p' e :
  thread_step t j s p = Step s' p' e →
  e = [] ∨ (p = W_process ∧ e = [Correct (ready s)]) ∨ (∃ r, e = [Wrong r]).
Proof.
  unfold thread_step, lock, unlock.
  destruct p; intros H; repeat case_match; simplify_eq; eauto.
Qed.

Lemma sw_inv_step tr c t c' e :
  inv tr c → sched_step t c = Some (c', e) → inv (tr ++ e) c'.
Proof.
  intros [Hp Htr] Hs.
  apply sw_sched_step_inv in Hs as (j & p & s' & p' & Hl & Hst & ->).
  split.
  - intros u. simpl. destruct (decide (u = t)) as [->|Hne].
    + rewrite list_lookup_insert_eq by (by eapply lookup_lt_Some).
      intros [= ->]. by eapply process_after_test.
    + rewrite list_lookup_insert_ne by done. intros Hu.
      eapply ready_stays; [done|]. by eapply Hp.
  - apply Forall_app. split; [done|].
    destruct (correct_event _ _ _ _ _ _ _ Hst) as [-> | [[-> ->] | [r ->]]].
    + constructor.
    + repeat constructor. intros [= E]. by apply (Hp t Hl).
    + by repeat constructor.
Qed.

Lemma sw_inv_init ts : Forall (λ p, p ≠ W_process) ts → inv [] (init ts).
Proof.
  intros H. split; [|constructor]. intros t Ht. simpl in Ht.
  rewrite Forall_lookup in H. by specialize (H t _ Ht).
Qed.

Lemma sw_inv_reach ts sched c tr :
  Forall (λ p, p ≠ W_process) ts → run sched (init ts) = Some (c, tr) →
  inv tr c.
Proof.
  intros Hts Hr.
  apply (MachineFacts.run_invariant sched_step inv
           ltac:(intros; by eapply sw_inv_step) sched [] _ _ _ (sw_inv_init ts Hts) Hr).
Qed.

End SpuriousWakeupFacts.


(** * The claims *)

Ltac capacity_ok := unfold CInt.INT_MAX; lia.

Ltac threads_created :=
  repeat (constructor; [first [left; reflexivity | right; reflexivity]|]);
  constructor.

(** Sanity checks of the model with spurious wake-ups.  A consumer woken
    while the buffer is empty goes back to sleep; a waiter written with
    [if] processes although [ready] is still 0. *)
Example consumer_woken_on_empty_buffer :
  ∃ c, CondVar.run 5 20 [2; 2; 2; 2; 2; 2]%nat Demo.cv_start = Some (c, [])
       ∧ CondVar.pc <$> CondVar.threads c !! 2%nat = Some CondVar.C_wait.
Proof. eexists. split; reflexivity. Qed.

Example waiter_wrong_processes_unready :
  ∃ c, SpuriousWakeup.run [1; 1; 1; 1; 1]%nat
         (SpuriousWakeup.init [SpuriousWakeup.M_sleep; SpuriousWakeup.X_lock])
       = Some (c, [SpuriousWakeup.Wrong 0]).
Proof. eexists. reflexivity. Qed.

(** C1 (FIFO delivery).  In every run of the condition-variable program,
    for any created producers and consumers and any schedule, the items
    fetched, in the order of the fetches, are a prefix of the items
    stored, in the order of the stores: the n-th item taken is the n-th
    item put. *)
Theorem fifo_delivery (BUFFER_SIZE NUM_ITEMS : Z) (ts : list CondVar.local)
    (sched : list nat) (c : CondVar.config) (tr : list CondVar.event) :
  0 < BUFFER_SIZE <= CInt.INT_MAX →
  Forall CondVar.created ts →
  CondVar.run BUFFER_SIZE NUM_ITEMS sched (CondVar.init BUFFER_SIZE ts)
    = Some (c, tr) →
  CondVar.takes tr `prefix_of` CondVar.puts tr ∧
  ∀ n x, CondVar.takes tr !! n = Some x → CondVar.puts tr !! n = Some x.
Proof.
  intros Hsize Hts Hr.
  pose proof (CondVarFacts.cv_inv_reach _ _ Hsize _ _ _ _ Hts Hr) as Hi.
  split; [by eapply CondVarFacts.fifo_prefix|].
  intros n x. by eapply CondVarFacts.cv_fifo_nth.
Qed.

Lemma fifo_delivery_witness :
  0 < 5 <= CInt.INT_MAX ∧
  Forall CondVar.created CondVar.main_threads ∧
  CondVar.run 5 20 Demo.cv_schedule (CondVar.init 5 CondVar.main_threads)
    = Some (Demo.cv_final, Demo.cv_trace) ∧
  CondVar.takes Demo.cv_trace `prefix_of` CondVar.puts Demo.cv_trace ∧
  ∀ n x, CondVar.takes Demo.cv_trace !! n = Some x →
         CondVar.puts Demo.cv_trace !! n = Some x.
Proof.
  assert (H1 : 0 < 5 <= CInt.INT_MAX) by capacity_ok.
  assert (H2 : Forall CondVar.created CondVar.main_threads) by threads_created.
  assert (H3 : CondVar.run 5 20 Demo.cv_schedule
                 (CondVar.init 5 CondVar.main_threads)
               = Some (Demo.cv_final, Demo.cv_trace))
    by (vm_compute; reflexivity).
  split; [exact H1|]. split; [exact H2|]. split; [exact H3|].
  exact (fifo_delivery 5 20 _ _ _ _ H1 H2 H3).
Defined.

(** The same holds in the semaphore program. *)
Corollary fifo_delivery_semaphores (BUFFER_SIZE NUM_ITEMS : Z)
    (ts : list Semaphores.local) (sched : list nat) (c : Semaphores.config)
    (tr : list Semaphores.event) :
  0 < BUFFER_SIZE <= CInt.INT_MAX →
  Forall Semaphores.created ts →
  Semaphores.run BUFFER_SIZE NUM_ITEMS sched (Semaphores.init BUFFER_SIZE ts)
    = Some (c, tr) →
  ∀ n x, Semaphores.takes tr !! n = Some x → Semaphores.puts tr !! n = Some x.
Proof.
  intros Hsize Hts Hr n x.
  eapply SemaphoresFacts.sem_fifo_nth.
  by eapply (SemaphoresFacts.sem_ok_reach _ _ Hsize).
Qed.

(** C2 (put postcondition).  Condition-variable program: when a producer
    has left its wait loop, [count < BUFFER_SIZE]; once it has executed its
    three statements, and whatever transitions the other threads took
    meanwhile, the globals are those it found with [item] stored at
    [buffer[in]], [in] advanced modulo [BUFFER_SIZE], [count] incremented
    by one, and nothing else changed.  Semaphore program: the slot count is
    carried by the semaphores; when a producer is about to store, fewer
    than [BUFFER_SIZE] slots are occupied, and from its store to its
    [sem_post(&mutex)], whatever the other threads did meanwhile, buffer
    and cursors change by this store and this advance only.  A whole put
    made with nothing in between, from a state with fewer than
    [BUFFER_SIZE] items ([count < BUFFER_SIZE]; in the second program
    [0 < empty] and [full < BUFFER_SIZE]), has the same effect in both
    programs, with [full] one higher and [empty] one lower in the
    second. *)
Theorem put_postcondition (BUFFER_SIZE NUM_ITEMS : Z) :
  0 < BUFFER_SIZE <= CInt.INT_MAX →
  (∀ ts sched0 c tr t l sched c' e,
     Forall CondVar.created ts →
     CondVar.run BUFFER_SIZE NUM_ITEMS sched0 (CondVar.init BUFFER_SIZE ts)
       = Some (c, tr) →
     CondVar.threads c !! t = Some l → CondVar.pc l = CondVar.P_write →
     CondVar.run BUFFER_SIZE NUM_ITEMS sched c = Some (c', e) →
     Machine.turns t sched = 3%nat →
     CondVar.count (CondVar.sh c) < BUFFER_SIZE ∧
     CondVar.sh c'
       = CondVar.stored BUFFER_SIZE (CondVar.item l) (CondVar.sh c) ∧
     (∃ l', CondVar.threads c' !! t = Some l'
            ∧ CondVar.pc l' = CondVar.P_signal) ∧
     e = [CondVar.Put t (CondVar.item l)]) ∧
  (∀ ts sched0 c tr t l sched c' e,
     Forall Semaphores.created ts →
     Semaphores.run BUFFER_SIZE NUM_ITEMS sched0
       (Semaphores.init BUFFER_SIZE ts) = Some (c, tr) →
     Semaphores.threads c !! t = Some l →
     Semaphores.pc l = Semaphores.P_write →
     Semaphores.run BUFFER_SIZE NUM_ITEMS sched c = Some (c', e) →
     Machine.turns t sched = 2%nat →
     Z.of_nat (length (Semaphores.puts tr))
       - Z.of_nat (length (Semaphores.takes tr)) < BUFFER_SIZE ∧
     Semaphores.buffer (Semaphores.sh c')
       = <[Z.to_nat (Semaphores.in_ (Semaphores.sh c)) := Semaphores.item l]>
           (Semaphores.buffer (Semaphores.sh c)) ∧
     Semaphores.in_ (Semaphores.sh c')
       = (Semaphores.in_ (Semaphores.sh c) + 1) mod BUFFER_SIZE ∧
     Semaphores.out (Semaphores.sh c') = Semaphores.out (Semaphores.sh c) ∧
     (∃ l', Semaphores.threads c' !! t = Some l'
            ∧ Semaphores.pc l' = Semaphores.P_post_mutex) ∧
     e = [Semaphores.Put t (Semaphores.item l)]) ∧
  (∀ s x,
     CondVar.mutex s = None →
     Z.of_nat (length (CondVar.buffer s)) = BUFFER_SIZE →
     0 <= CondVar.in_ s < BUFFER_SIZE →
     0 <= CondVar.count s < BUFFER_SIZE →
     CondVar.put_call BUFFER_SIZE NUM_ITEMS s x
       = CondVar.Returned (CondVar.stored BUFFER_SIZE x s)
           (CondVar.Local 0 1 x CondVar.P_for) [CondVar.Put 0 x]) ∧
  (∀ s x,
     Semaphores.mutex s = 1 →
     Z.of_nat (length (Semaphores.buffer s)) = BUFFER_SIZE →
     0 <= Semaphores.in_ s < BUFFER_SIZE →
     0 < Semaphores.empty s →
     Semaphores.full s < BUFFER_SIZE →
     Semaphores.put_call BUFFER_SIZE NUM_ITEMS s x
       = Semaphores.Returned (Semaphores.stored BUFFER_SIZE x s)
           (Semaphores.Local 0 1 x Semaphores.P_for) [Semaphores.Put 0 x]).
Proof.
  intros Hsize. split; [|split; [|split]].
  - intros ts sched0 c tr t l sched c' e Hts Hr0 Hl Hp Hr Ht.
    eapply CondVarFacts.cv_put_atomic; try done.
    by eapply (CondVarFacts.cv_inv_reach _ _ Hsize).
  - intros ts sched0 c tr t l sched c' e Hts Hr0 Hl Hp Hr Ht.
    eapply SemaphoresFacts.sem_put_atomic; try done.
    by eapply (SemaphoresFacts.sem_ok_reach _ _ Hsize).
  - intros s x. by apply RefinementFacts.cv_put_returns.
  - intros s x Hm Hlen Hin He Hf.
    apply RefinementFacts.sem_put_returns; try done.
    unfold Semaphores.SEM_VALUE_MAX, CInt.INT_MAX in *. lia.
Qed.

Lemma put_postcondition_witness :
  0 < 5 <= CInt.INT_MAX ∧
  Forall CondVar.created CondVar.main_threads ∧
  CondVar.run 5 20 [0; 0; 0]%nat (CondVar.init 5 CondVar.main_threads)
    = Some (Demo.cv_at_write, []) ∧
  CondVar.threads Demo.cv_at_write !! 0%nat
    = Some (CondVar.Local 1 0 100 CondVar.P_write) ∧
  CondVar.run 5 20 Demo.cv_put_section Demo.cv_at_write
    = Some (Demo.cv_after_put, [CondVar.Put 0 100]) ∧
  Machine.turns 0 Demo.cv_put_section = 3%nat ∧
  CondVar.sh Demo.cv_after_put
    = CondVar.stored 5 100 (CondVar.sh Demo.cv_at_write).
Proof.
  assert (H1 : 0 < 5 <= CInt.INT_MAX) by capacity_ok.
  assert (H2 : Forall CondVar.created CondVar.main_threads) by threads_created.
  assert (H3 : CondVar.run 5 20 [0; 0; 0]%nat
                 (CondVar.init 5 CondVar.main_threads)
               = Some (Demo.cv_at_write, [])) by (vm_compute; reflexivity).
  assert (H4 : CondVar.threads Demo.cv_at_write !! 0%nat
               = Some (CondVar.Local 1 0 100 CondVar.P_write)) by reflexivity.
  assert (H5 : CondVar.run 5 20 Demo.cv_put_section Demo.cv_at_write
               = Some (Demo.cv_after_put, [CondVar.Put 0 100]))
    by (vm_compute; reflexivity).
  assert (H6 : Machine.turns 0 Demo.cv_put_section = 3%nat) by reflexivity.
  repeat (split; [assumption|]).
  exact (proj1 (proj2 (proj1 (put_postcondition 5 20 H1)
                         _ _ _ _ _ _ _ _ _ H2 H3 H4 eq_refl H5 H6))).
Defined.

(** C3 (take postcondition).  Condition-variable program: when a consumer
    has left its wait loop, [count > 0]; once it has executed its three
    statements, and whatever transitions the other threads took meanwhile,
    it holds the item that was at [buffer[out]], and the globals are those
    it found with [out] advanced modulo [BUFFER_SIZE], [count] decremented
    by one, and nothing else changed.  Semaphore program: when a consumer
    is about to fetch, at least one slot is occupied, and from its fetch to
    its [sem_post(&mutex)], whatever the other threads did meanwhile, only
    [out] changes, by this advance.  A whole take made with nothing in
    between, from a state with at least one item ([count > 0]; in the
    second program [0 < full] and [empty < BUFFER_SIZE]), has the same
    effect in both programs, with [full] one lower and [empty] one higher
    in the second. *)
Theorem take_postcondition (BUFFER_SIZE NUM_ITEMS : Z) :
  0 < BUFFER_SIZE <= CInt.INT_MAX →
  (∀ ts sched0 c tr t l sched c' e,
     Forall CondVar.created ts →
     CondVar.run BUFFER_SIZE NUM_ITEMS sched0 (CondVar.init BUFFER_SIZE ts)
       = Some (c, tr) →
     CondVar.threads c !! t = Some l → CondVar.pc l = CondVar.C_read →
     CondVar.run BUFFER_SIZE NUM_ITEMS sched c = Some (c', e) →
     Machine.turns t sched = 3%nat →
     0 < CondVar.count (CondVar.sh c) ∧
     ∃ x, CondVar.buffer (CondVar.sh c) !! Z.to_nat (CondVar.out (CondVar.sh c))
            = Some x ∧
          CondVar.sh c' = CondVar.fetched BUFFER_SIZE (CondVar.sh c) ∧
          (∃ l', CondVar.threads c' !! t = Some l'
                 ∧ CondVar.pc l' = CondVar.C_signal ∧ CondVar.item l' = x) ∧
          e = [CondVar.Take t x]) ∧
  (∀ ts sched0 c tr t l sched c' e,
     Forall Semaphores.created ts →
     Semaphores.run BUFFER_SIZE NUM_ITEMS sched0
       (Semaphores.init BUFFER_SIZE ts) = Some (c, tr) →
     Semaphores.threads c !! t = Some l →
     Semaphores.pc l = Semaphores.C_read →
     Semaphores.run BUFFER_SIZE NUM_ITEMS sched c = Some (c', e) →
     Machine.turns t sched = 2%nat →
     0 < Z.of_nat (length (Semaphores.puts tr))
         - Z.of_nat (length (Semaphores.takes tr)) ∧
     ∃ x, Semaphores.buffer (Semaphores.sh c)
            !! Z.to_nat (Semaphores.out (Semaphores.sh c)) = Some x ∧
          Semaphores.buffer (Semaphores.sh c')
            = Semaphores.buffer (Semaphores.sh c) ∧
          Semaphores.in_ (Semaphores.sh c') = Semaphores.in_ (Semaphores.sh c) ∧
          Semaphores.out (Semaphores.sh c')
            = (Semaphores.out (Semaphores.sh c) + 1) mod BUFFER_SIZE ∧
          (∃ l', Semaphores.threads c' !! t = Some l'
                 ∧ Semaphores.pc l' = Semaphores.C_post_mutex
                 ∧ Semaphores.item l' = x) ∧
          e = [Semaphores.Take t x]) ∧
  (∀ s x,
     CondVar.mutex s = None →
     Z.of_nat (length (CondVar.buffer s)) = BUFFER_SIZE →
     0 <= CondVar.out s < BUFFER_SIZE →
     0 < CondVar.count s <= BUFFER_SIZE →
     CondVar.buffer s !! Z.to_nat (CondVar.out s) = Some x →
     CondVar.take_call BUFFER_SIZE NUM_ITEMS s
       = CondVar.Returned (CondVar.fetched BUFFER_SIZE s)
           (CondVar.Local 0 1 x CondVar.C_for) [CondVar.Take 0 x]) ∧
  (∀ s x,
     Semaphores.mutex s = 1 →
     Z.of_nat (length (Semaphores.buffer s)) = BUFFER_SIZE →
     0 <= Semaphores.out s < BUFFER_SIZE →
     0 < Semaphores.full s →
     Semaphores.empty s < BUFFER_SIZE →
     Semaphores.buffer s !! Z.to_nat (Semaphores.out s) = Some x →
     Semaphores.take_call BUFFER_SIZE NUM_ITEMS s
       = Semaphores.Returned (Semaphores.fetched BUFFER_SIZE s)
           (Semaphores.Local 0 1 x Semaphores.C_for) [Semaphores.Take 0 x]).
Proof.
  intros Hsize. split; [|split; [|split]].
  - intros ts sched0 c tr t l sched c' e Hts Hr0 Hl Hp Hr Ht.
    eapply CondVarFacts.cv_take_atomic; try done.
    by eapply (CondVarFacts.cv_inv_reach _ _ Hsize).
  - intros ts sched0 c tr t l sched c' e Hts Hr0 Hl Hp Hr Ht.
    eapply SemaphoresFacts.sem_take_atomic; try done.
    by eapply (SemaphoresFacts.sem_ok_reach _ _ Hsize).
  - intros s x. by apply RefinementFacts.cv_take_returns.
  - intros s x Hm Hlen Hout Hf He Hx.
    apply RefinementFacts.sem_take_returns; try done.
    unfold Semaphores.SEM_VALUE_MAX, CInt.INT_MAX in *. lia.
Qed.

Lemma take_postcondition_witness :
  0 < 5 <= CInt.INT_MAX ∧
  Forall CondVar.created CondVar.main_threads ∧
  CondVar.run 5 20 Demo.cv_to_read (CondVar.init 5 CondVar.main_threads)
    = Some (Demo.cv_at_read, Demo.cv_read_trace) ∧
  CondVar.threads Demo.cv_at_read !! 2%nat
    = Some (CondVar.Local 1 0 0 CondVar.C_read) ∧
  CondVar.run 5 20 Demo.cv_take_section Demo.cv_at_read
    = Some (Demo.cv_after_take, [CondVar.Take 2 100]) ∧
  Machine.turns 2 Demo.cv_take_section = 3%nat ∧
  0 < CondVar.count (CondVar.sh Demo.cv_at_read) ∧
  ∃ x, CondVar.buffer (CondVar.sh Demo.cv_at_read)
         !! Z.to_nat (CondVar.out (CondVar.sh Demo.cv_at_read)) = Some x ∧
       CondVar.sh Demo.cv_after_take
         = CondVar.fetched 5 (CondVar.sh Demo.cv_at_read) ∧
       (∃ l', CondVar.threads Demo.cv_after_take !! 2%nat = Some l'
              ∧ CondVar.pc l' = CondVar.C_signal ∧ CondVar.item l' = x) ∧
       [CondVar.Take 2 100] = [CondVar.Take 2 x].
Proof.
  assert (H1 : 0 < 5 <= CInt.INT_MAX) by capacity_ok.
  assert (H2 : Forall CondVar.created CondVar.main_threads) by threads_created.
  assert (H3 : CondVar.run 5 20 Demo.cv_to_read
                 (CondVar.init 5 CondVar.main_threads)
               = Some (Demo.cv_at_read, Demo.cv_read_trace))
    by (vm_compute; reflexivity).
  assert (H4 : CondVar.threads Demo.cv_at_read !! 2%nat
               = Some (CondVar.Local 1 0 0 CondVar.C_read)) by reflexivity.
  assert (H5 : CondVar.run 5 20 Demo.cv_take_section Demo.cv_at_read
               = Some (Demo.cv_after_take, [CondVar.Take 2 100]))
    by (vm_compute; reflexivity).
  assert (H6 : Machine.turns 2 Demo.cv_take_section = 3%nat) by reflexivity.
  repeat (split; [assumption|]).
  exact (proj1 (take_postcondition 5 20 H1)
           _ _ _ _ _ _ _ _ _ H2 H3 H4 eq_refl H5 H6).
Defined.

(** C4 (capacity bound).  The initial [count] is 0, and in every
    configuration the condition-variable program can reach, under any
    schedule and also in the middle of a put or a take,
    [0 <= count <= BUFFER_SIZE]; the same after any sequence of completed
    puts and takes made one after the other on the initial queue. *)
Theorem capacity_bound (BUFFER_SIZE NUM_ITEMS : Z) :
  0 < BUFFER_SIZE <= CInt.INT_MAX →
  CondVar.count (CondVar.init_shared BUFFER_SIZE) = 0 ∧
  (∀ ts sched c tr,
     Forall CondVar.created ts →
     CondVar.run BUFFER_SIZE NUM_ITEMS sched (CondVar.init BUFFER_SIZE ts)
       = Some (c, tr) →
     0 <= CondVar.count (CondVar.sh c) <= BUFFER_SIZE) ∧
  (∀ ops a xs,
     Refinement.cv_ops BUFFER_SIZE NUM_ITEMS ops (CondVar.init_shared BUFFER_SIZE)
       = Some (a, xs) →
     0 <= CondVar.count a <= BUFFER_SIZE).
Proof.
  intros Hsize. split; [done|]. split.
  - intros ts sched c tr Hts Hr.
    eapply CondVarFacts.count_bound.
    by eapply (CondVarFacts.cv_inv_reach _ _ Hsize).
  - intros ops a xs Hops.
    pose proof (RefinementFacts.ops_agree BUFFER_SIZE NUM_ITEMS Hsize ops _ _
                  (RefinementFacts.agree_init BUFFER_SIZE Hsize)) as H.
    rewrite Hops in H. simpl in H.
    destruct (Refinement.sem_ops _ _ _ _) as [[b ys]|]; [|done].
    destruct H as [H _]. exact (Refinement.ag_count_range _ _ _ H).
Qed.

Lemma capacity_bound_witness :
  0 < 5 <= CInt.INT_MAX ∧
  Forall CondVar.created CondVar.main_threads ∧
  CondVar.run 5 20 Demo.cv_schedule (CondVar.init 5 CondVar.main_threads)
    = Some (Demo.cv_final, Demo.cv_trace) ∧
  0 <= CondVar.count (CondVar.sh Demo.cv_final) <= 5.
Proof.
  assert (H1 : 0 < 5 <= CInt.INT_MAX) by capacity_ok.
  assert (H2 : Forall CondVar.created CondVar.main_threads) by threads_created.
  assert (H3 : CondVar.run 5 20 Demo.cv_schedule
                 (CondVar.init 5 CondVar.main_threads)
               = Some (Demo.cv_final, Demo.cv_trace))
    by (vm_compute; reflexivity).
  repeat (split; [assumption|]).
  exact (proj1 (proj2 (capacity_bound 5 20 H1)) _ _ _ _ H2 H3).
Defined.

(** C5 (recheck loop).  In every reachable configuration of the
    condition-variable program, a producer that has left its wait loop has
    [count < BUFFER_SIZE] and a consumer that has left its wait loop has
    [count > 0], wake-ups without a signal and wake-ups lost to another
    thread included.  The statements after a wait loop are entered only
    from the test of the loop, with the predicate found true; a woken
    thread takes the mutex and goes back to that test.  In the
    spurious-wakeup demonstration, [waiter_correct] processes only once
    [ready] is set. *)
Theorem recheck_loop_sound (BUFFER_SIZE NUM_ITEMS : Z) :
  0 < BUFFER_SIZE <= CInt.INT_MAX →
  (∀ ts sched c tr t l,
     Forall CondVar.created ts →
     CondVar.run BUFFER_SIZE NUM_ITEMS sched (CondVar.init BUFFER_SIZE ts)
       = Some (c, tr) →
     CondVar.threads c !! t = Some l →
     (CondVar.pc l = CondVar.P_write →
        CondVar.count (CondVar.sh c) < BUFFER_SIZE) ∧
     (CondVar.pc l = CondVar.C_read → 0 < CondVar.count (CondVar.sh c))) ∧
  (∀ t s l s' l' e,
     CondVar.thread_step BUFFER_SIZE NUM_ITEMS t s l = CondVar.Step s' l' e →
     CondVar.pc l ≠ CondVar.pc l' →
     (CondVar.pc l' = CondVar.P_write →
        CondVar.pc l = CondVar.P_while ∧ CondVar.count s ≠ BUFFER_SIZE
        ∧ s' = s) ∧
     (CondVar.pc l' = CondVar.C_read →
        CondVar.pc l = CondVar.C_while ∧ CondVar.count s ≠ 0 ∧ s' = s)) ∧
  (∀ t s l s' l' e,
     CondVar.thread_step BUFFER_SIZE NUM_ITEMS t s l = CondVar.Step s' l' e →
     (CondVar.pc l = CondVar.P_wait →
        CondVar.pc l' = CondVar.P_relock ∧ s' = s) ∧
     (CondVar.pc l = CondVar.P_relock → CondVar.pc l' = CondVar.P_while) ∧
     (CondVar.pc l = CondVar.C_wait →
        CondVar.pc l' = CondVar.C_relock ∧ s' = s) ∧
     (CondVar.pc l = CondVar.C_relock → CondVar.pc l' = CondVar.C_while)) ∧
  (∀ ts sched c tr,
     Forall (λ p, p ≠ SpuriousWakeup.W_process) ts →
     SpuriousWakeup.run sched (SpuriousWakeup.init ts) = Some (c, tr) →
     Forall (λ e, e ≠ SpuriousWakeup.Correct 0) tr ∧
     ∀ t, SpuriousWakeup.threads c !! t = Some SpuriousWakeup.W_process →
          SpuriousWakeup.ready (SpuriousWakeup.sh c) ≠ 0).
Proof.
  intros Hsize. split; [|split; [|split]].
  - intros ts sched c tr t l Hts Hr Hl.
    eapply CondVarFacts.after_wait_loop; [|done].
    by eapply (CondVarFacts.cv_inv_reach _ _ Hsize).
  - intros t s l s' l' e. apply CondVarFacts.enter_only_by_test.
  - intros t s l s' l' e. apply CondVarFacts.wake_rechecks.
  - intros ts sched c tr Hts Hr.
    destruct (SpuriousWakeupFacts.sw_inv_reach ts sched c tr Hts Hr) as [H1 H2].
    done.
Qed.

Lemma recheck_loop_sound_witness :
  0 < 5 <= CInt.INT_MAX ∧
  Forall CondVar.created CondVar.main_threads ∧
  CondVar.run 5 20 Demo.cv_to_read (CondVar.init 5 CondVar.main_threads)
    = Some (Demo.cv_at_read, Demo.cv_read_trace) ∧
  CondVar.threads Demo.cv_at_read !! 2%nat
    = Some (CondVar.Local 1 0 0 CondVar.C_read) ∧
  0 < CondVar.count (CondVar.sh Demo.cv_at_read).
Proof.
  assert (H1 : 0 < 5 <= CInt.INT_MAX) by capacity_ok.
  assert (H2 : Forall CondVar.created CondVar.main_threads) by threads_created.
  assert (H3 : CondVar.run 5 20 Demo.cv_to_read
                 (CondVar.init 5 CondVar.main_threads)
               = Some (Demo.cv_at_read, Demo.cv_read_trace))
    by (vm_compute; reflexivity).
  assert (H4 : CondVar.threads Demo.cv_at_read !! 2%nat
               = Some (CondVar.Local 1 0 0 CondVar.C_read)) by reflexivity.
  repeat (split; [assumption|]).
  exact (proj2 (proj1 (recheck_loop_sound 5 20 H1) _ _ _ _ _ _ H2 H3 H4)
           eq_refl).
Defined.
(** C7 (the two strategies agree).  Started from states that hold the same
    queue, a put of the same item, and a take, give the same reply in both
    programs: both return, leaving states that hold the same queue and,
    for a take, the same item, or both block.  Hence any sequence of calls
    made one after the other gives the same items and the same final
    queue in both, or stops at the same call.  The initial states hold
    the same queue. *)
Theorem strategies_agree (BUFFER_SIZE NUM_ITEMS : Z) :
  0 < BUFFER_SIZE <= CInt.INT_MAX →
  Refinement.agree BUFFER_SIZE (CondVar.init_shared BUFFER_SIZE)
                   (Semaphores.init_shared BUFFER_SIZE) ∧
  (∀ a b x,
     Refinement.agree BUFFER_SIZE a b →
     Refinement.same_reply BUFFER_SIZE
       (CondVar.put_call BUFFER_SIZE NUM_ITEMS a x)
       (Semaphores.put_call BUFFER_SIZE NUM_ITEMS b x)) ∧
  (∀ a b,
     Refinement.agree BUFFER_SIZE a b →
     Refinement.same_reply BUFFER_SIZE
       (CondVar.take_call BUFFER_SIZE NUM_ITEMS a)
       (Semaphores.take_call BUFFER_SIZE NUM_ITEMS b)) ∧
  (∀ ops a b,
     Refinement.agree BUFFER_SIZE a b →
     Refinement.same_result BUFFER_SIZE
       (Refinement.cv_ops BUFFER_SIZE NUM_ITEMS ops a)
       (Refinement.sem_ops BUFFER_SIZE NUM_ITEMS ops b)).
Proof.
  intros Hsize. split; [by apply RefinementFacts.agree_init|].
  split; [|split].
  - intros a b x. by apply RefinementFacts.put_agrees.
  - intros a b. by apply RefinementFacts.take_agrees.
  - intros ops a b. by apply RefinementFacts.ops_agree.
Qed.

Lemma strategies_agree_witness :
  0 < 5 <= CInt.INT_MAX ∧
  Refinement.agree 5 Demo.cv_one Demo.sem_one ∧
  Refinement.same_reply 5 (CondVar.put_call 5 20 Demo.cv_one 8)
                          (Semaphores.put_call 5 20 Demo.sem_one 8) ∧
  Refinement.same_reply 5 (CondVar.take_call 5 20 Demo.cv_one)
                          (Semaphores.take_call 5 20 Demo.sem_one).
Proof.
  assert (H1 : 0 < 5 <= CInt.INT_MAX) by capacity_ok.
  assert (H2 : Refinement.agree 5 Demo.cv_one Demo.sem_one)
    by (constructor; simpl; first [reflexivity | lia]).
  repeat (split; [assumption|]).
  pose proof (strategies_agree 5 20 H1) as (_ & Hput & Htake & _).
  exact (conj (Hput _ _ 8 H2) (Htake _ _ H2)).
Defined.

(** C9 (cursor range).  In every reachable configuration of both programs
    [in] and [out] lie in [0, BUFFER_SIZE), the buffer has [BUFFER_SIZE]
    slots, and no thread's next statement accesses the buffer out of
    bounds; a cursor in range advances to its successor modulo
    [BUFFER_SIZE]. *)
Theorem cursor_range_invariant (BUFFER_SIZE NUM_ITEMS : Z) :
  0 < BUFFER_SIZE <= CInt.INT_MAX →
  (∀ ts sched c tr,
     Forall CondVar.created ts →
     CondVar.run BUFFER_SIZE NUM_ITEMS sched (CondVar.init BUFFER_SIZE ts)
       = Some (c, tr) →
     0 <= CondVar.in_ (CondVar.sh c) < BUFFER_SIZE ∧
     0 <= CondVar.out (CondVar.sh c) < BUFFER_SIZE ∧
     Z.of_nat (length (CondVar.buffer (CondVar.sh c))) = BUFFER_SIZE ∧
     ∀ t l, CondVar.threads c !! t = Some l →
            CondVar.thread_step BUFFER_SIZE NUM_ITEMS t (CondVar.sh c) l
              ≠ CondVar.Undefined) ∧
  (∀ ts sched c tr,
     Forall Semaphores.created ts →
     Semaphores.run BUFFER_SIZE NUM_ITEMS sched (Semaphores.init BUFFER_SIZE ts)
       = Some (c, tr) →
     0 <= Semaphores.in_ (Semaphores.sh c) < BUFFER_SIZE ∧
     0 <= Semaphores.out (Semaphores.sh c) < BUFFER_SIZE ∧
     Z.of_nat (length (Semaphores.buffer (Semaphores.sh c))) = BUFFER_SIZE ∧
     ∀ t l, Semaphores.threads c !! t = Some l →
            Semaphores.thread_step BUFFER_SIZE NUM_ITEMS t (Semaphores.sh c) l
              ≠ Semaphores.Undefined) ∧
  (∀ x, 0 <= x < BUFFER_SIZE →
        CondVar.advance BUFFER_SIZE x = (x + 1) mod BUFFER_SIZE ∧
        Semaphores.advance BUFFER_SIZE x = (x + 1) mod BUFFER_SIZE).
Proof.
  intros Hsize. split; [|split].
  - intros ts sched c tr Hts Hr.
    pose proof (CondVarFacts.cv_inv_reach _ _ Hsize _ _ _ _ Hts Hr) as Hi.
    destruct (CondVarFacts.cv_cursor_range _ Hsize _ _ Hi) as (? & ? & ?).
    do 3 (split; [done|]).
    intros t l. by eapply CondVarFacts.cv_no_undefined.
  - intros ts sched c tr Hts Hr.
    pose proof (SemaphoresFacts.sem_ok_reach _ _ Hsize _ _ _ _ Hts Hr) as Hi.
    destruct (SemaphoresFacts.sem_cursor_range _ Hsize _ _ Hi) as (? & ? & ?).
    do 3 (split; [done|]).
    intros t l. by eapply SemaphoresFacts.sem_no_undefined.
  - intros x Hx. split.
    + by apply CondVarFacts.cv_advance_spec.
    + by apply SemaphoresFacts.sem_advance_spec.
Qed.

Lemma cursor_range_invariant_witness :
  0 < 5 <= CInt.INT_MAX ∧
  Forall Semaphores.created Semaphores.main_threads ∧
  Semaphores.run 5 15 Demo.sem_schedule
    (Semaphores.init 5 Semaphores.main_threads)
    = Some (Demo.sem_final, Demo.sem_trace) ∧
  0 <= Semaphores.in_ (Semaphores.sh Demo.sem_final) < 5 ∧
  0 <= Semaphores.out (Semaphores.sh Demo.sem_final) < 5 ∧
  Z.of_nat (length (Semaphores.buffer (Semaphores.sh Demo.sem_final))) = 5 ∧
  ∀ t l, Semaphores.threads Demo.sem_final !! t = Some l →
         Semaphores.thread_step 5 15 t (Semaphores.sh Demo.sem_final) l
           ≠ Semaphores.Undefined.
Proof.
  assert (H1 : 0 < 5 <= CInt.INT_MAX) by capacity_ok.
  assert (H2 : Forall Semaphores.created Semaphores.main_threads)
    by threads_created.
  assert (H3 : Semaphores.run 5 15 Demo.sem_schedule
                 (Semaphores.init 5 Semaphores.main_threads)
               = Some (Demo.sem_final, Demo.sem_trace))
    by (vm_compute; reflexivity).
  repeat (split; [assumption|]).
  exact (proj1 (proj2 (cursor_range_invariant 5 15 H1)) _ _ _ _ H2 H3).
Defined.

(** C10 (iterations of the semaphore program).  [NUM_ITEMS / 2] is
    [15 / 2 = 7].  Whatever the buffer size and the schedule, when the two
    producers and the two consumers of [main] have returned, each has gone
    7 times round its loop, each producer has stored 7 items and each
    consumer fetched 7: 14 items stored and 14 fetched in all, one fewer
    than [NUM_ITEMS].  The program as compiled has a run in which all four
    return. *)
Theorem semaphore_iterations :
  CInt.div 15 2 = 7 ∧
  (∀ BUFFER_SIZE sched c tr,
     0 < BUFFER_SIZE <= CInt.INT_MAX →
     Semaphores.run BUFFER_SIZE 15 sched
       (Semaphores.init BUFFER_SIZE Semaphores.main_threads) = Some (c, tr) →
     Semaphores.terminated c = true →
     Forall (λ l, Semaphores.i l = 7) (Semaphores.threads c) ∧
     length (Semaphores.puts_by 0 tr) = 7%nat ∧
     length (Semaphores.puts_by 1 tr) = 7%nat ∧
     length (Semaphores.takes_by 2 tr) = 7%nat ∧
     length (Semaphores.takes_by 3 tr) = 7%nat ∧
     length (Semaphores.puts tr) = 14%nat ∧
     length (Semaphores.takes tr) = 14%nat ∧
     length (Semaphores.puts tr) = length (Semaphores.takes tr) ∧
     Z.of_nat (length (Semaphores.puts tr)) = 15 - 1) ∧
  (∃ sched c tr,
     Semaphores.run 5 15 sched (Semaphores.init 5 Semaphores.main_threads)
       = Some (c, tr) ∧
     Semaphores.terminated c = true).
Proof.
  assert (E : CInt.div 15 2 = 7) by reflexivity.
  split; [exact E|]. split.
  - intros BUFFER_SIZE sched c tr Hsize Hr Ht.
    assert (Hts : Forall Semaphores.created Semaphores.main_threads)
      by threads_created.
    assert (Hitems : 0 <= CInt.div 15 2) by (rewrite E; lia).
    pose proof (SemaphoresFacts.sem_inv_reach _ _ Hsize Hitems _ _ _ _ Hts Hr)
      as Hi.
    destruct (SemaphoresFacts.iterations_main _ _ _ _ Hi Ht)
      as (H0 & H1 & H2 & H3 & H4 & H5 & H6).
    rewrite E in *. split_and!; try lia. exact H0.
  - exists Demo.sem_schedule, Demo.sem_final, Demo.sem_trace.
    split; vm_compute; reflexivity.
Qed.

Lemma semaphore_iterations_witness :
  0 < 5 <= CInt.INT_MAX ∧
  Semaphores.run 5 15 Demo.sem_schedule
    (Semaphores.init 5 Semaphores.main_threads)
    = Some (Demo.sem_final, Demo.sem_trace) ∧
  Semaphores.terminated Demo.sem_final = true ∧
  length (Semaphores.puts Demo.sem_trace) = 14%nat ∧
  length (Semaphores.takes Demo.sem_trace) = 14%nat.
Proof.
  assert (H1 : 0 < 5 <= CInt.INT_MAX) by capacity_ok.
  assert (H2 : Semaphores.run 5 15 Demo.sem_schedule
                 (Semaphores.init 5 Semaphores.main_threads)
               = Some (Demo.sem_final, Demo.sem_trace))
    by (vm_compute; reflexivity).
  assert (H3 : Semaphores.terminated Demo.sem_final = true) by reflexivity.
  repeat (split; [assumption|]).
  pose proof (proj1 (proj2 semaphore_iterations) 5 _ _ _ H1 H2 H3)
    as (_ & _ & _ & _ & _ & Hp & Ht & _).
  exact (conj Hp Ht).
Defined.

(** * Further invariants *)

Module ItemsFacts.
Import Items.

Lemma items_of_S n k :
  items_of n (S k) = items_of n k ++ [item_of n (Z.of_nat k)].
Proof. unfold items_of. by rewrite seq_S, fmap_app. Qed.

Lemma items_of_lookup n k j :
  (j < k)%nat → items_of n k !! j = Some (item_of n (Z.of_nat j)).
Proof.
  intros Hj. unfold items_of. rewrite list_lookup_fmap, lookup_seq_lt by done.
  done.
Qed.

Lemma items_of_length n k : length (items_of n k) = k.
Proof. unfold items_of. by rewrite length_fmap, length_seq. Qed.

End ItemsFacts.

(** ** The semaphore program: permits, progress and termination *)

Module SemLoopsFacts.
Import Semaphores Items SemLoops SemaphoresFacts ItemsFacts.

Lemma tally_zero f ts :
  (∀ t l, ts !! t = Some l → f (pc l) = 0) → tally f ts = 0.
Proof.
  induction ts as [|l ts IH]; intros H; simpl; [done|].
  rewrite (H 0%nat l eq_refl), IH; [done|].
  intros t l' Hl. exact (H (S t) l' Hl).
Qed.

Lemma tally_roles f (ts ts0 : list local) :
  (λ l, is_producer (pc l)) <$> ts = (λ l, is_producer (pc l)) <$> ts0 →
  tally (λ p, f (is_producer p)) ts = tally (λ p, f (is_producer p)) ts0.
Proof.
  revert ts0. induction ts as [|l ts IH]; intros [|l0 ts0] H; simplify_eq/=;
    [done|].
  by rewrite (IH ts0), H.
Qed.

Lemma total_le g w K ts :
  Forall (λ l, g l <= K * w (pc l)) ts → total g ts <= K * tally w ts.
Proof. induction 1; simpl; lia. Qed.

Lemma total_lt g w K ts t l :
  Forall (λ l, g l <= K * w (pc l)) ts → ts !! t = Some l →
  g l < K * w (pc l) → total g ts < K * tally w ts.
Proof.
  intros H. revert t. induction H as [|l0 ts H0 H IH]; intros [|t] Hl Hlt;
    simplify_eq/=.
  - pose proof (total_le g w K ts H). lia.
  - specialize (IH t Hl Hlt). lia.
Qed.

Lemma total_eq g w K ts :
  Forall (λ l, g l = K * w (pc l)) ts → total g ts = K * tally w ts.
Proof. induction 1; simpl; lia. Qed.

Lemma not_terminated c :
  terminated c = false →
  ∃ t l, threads c !! t = Some l ∧ ¬ (pc l = P_ret ∨ pc l = C_ret).
Proof.
  unfold terminated. induction (threads c) as [|l ts IH]; simpl; [done|].
  destruct (bool_decide (pc l = P_ret ∨ pc l = C_ret)) eqn:Hd; simpl.
  - intros H. destruct (IH H) as (t & l' & Hl & Hn). by exists (S t), l'.
  - intros _. exists 0%nat, l. split; [done|].
    by apply bool_decide_eq_false in Hd.
Qed.

Lemma total_nonneg g ts : Forall (λ l, 0 <= g l) ts → 0 <= total g ts.
Proof. induction 1; simpl; lia. Qed.

Section Facts.

Variables BUFFER_SIZE NUM_ITEMS : Z.
Hypothesis size_ok : 0 < BUFFER_SIZE <= CInt.INT_MAX.
Hypothesis items_ok : 0 <= CInt.div NUM_ITEMS 2.

Local Abbreviation thread_step := (Semaphores.thread_step BUFFER_SIZE NUM_ITEMS).
Local Abbreviation sched_step := (Semaphores.sched_step BUFFER_SIZE NUM_ITEMS).
Local Abbreviation run := (Semaphores.run BUFFER_SIZE NUM_ITEMS).
Local Abbreviation init := (Semaphores.init BUFFER_SIZE).
Local Abbreviation sem_ok := (Semaphores.sem_ok BUFFER_SIZE).
Local Abbreviation loop_ok := (Semaphores.loop_ok NUM_ITEMS).
Local Abbreviation inv := (Semaphores.inv BUFFER_SIZE NUM_ITEMS).
Local Abbreviation enabled := (SemLoops.enabled BUFFER_SIZE NUM_ITEMS).

Lemma occupied_spec tr c :
  sem_ok tr c →
  occupied c = Z.of_nat (length (puts tr)) - Z.of_nat (length (takes tr)).
Proof. intros []. unfold occupied. lia. Qed.

(** A thread that cannot take a transition has returned or waits in a
    [sem_wait] whose semaphore is zero. *)
Lemma stuck_thread tr c t l :
  sem_ok tr c → threads c !! t = Some l → sched_step t c = None →
  (pc l = P_ret ∨ pc l = C_ret) ∨
  (pc l = P_wait_empty ∧ empty (sh c) = 0) ∨
  (pc l = C_wait_full ∧ full (sh c) = 0) ∨
  ((pc l = P_wait_mutex ∨ pc l = C_wait_mutex) ∧ mutex (sh c) = 0).
Proof.
  intros Hok Hl Hs.
  assert (Hu : thread_step t (sh c) l ≠ Undefined)
    by (eapply sem_no_undefined; eauto).
  destruct (permits_range _ _ _ Hok) as (He & Hf & Hm).
  unfold Semaphores.sched_step in Hs. rewrite Hl in Hs.
  destruct (thread_step t (sh c) l) as [s' l' e| | |] eqn:Hstep; try done.
  - unfold Semaphores.thread_step, sem_wait in Hstep.
    destruct (pc l); repeat case_match; simplify_eq; try lia; auto 10 with lia.
  - unfold Semaphores.thread_step in Hstep.
    destruct (pc l); repeat case_match; simplify_eq; auto.
Qed.

Lemma done_bounds tr t l :
  loop_ok tr t l →
  done_puts l <= CInt.div NUM_ITEMS 2 * (if is_producer (pc l) then 1 else 0) ∧
  done_takes l <= CInt.div NUM_ITEMS 2 * (if is_producer (pc l) then 0 else 1).
Proof.
  intros [Hr Hb _ _ _]. unfold done_puts, done_takes.
  destruct (pc l); simpl in *; try specialize (Hb eq_refl); lia.
Qed.

Lemma roles_kept ts0 tr c :
  inv ts0 tr c →
  producers (threads c) = producers ts0 ∧ consumers (threads c) = consumers ts0.
Proof.
  intros [_ _ _ _ Hrole]. unfold producers, consumers. split.
  - exact (tally_roles (λ b : bool, if b then 1 else 0) _ _ Hrole).
  - exact (tally_roles (λ b : bool, if b then 0 else 1) _ _ Hrole).
Qed.

(** No configuration in which some thread has not returned is stuck,
    provided there are as many producers as consumers. *)
Lemma stuck_terminated ts0 tr c :
  inv ts0 tr c → producers ts0 = consumers ts0 →
  (∀ t, sched_step t c = None) → terminated c = true.
Proof.
  intros Hinv Hpc Hstuck.
  destruct (roles_kept _ _ _ Hinv) as [HP HC].
  destruct Hinv as [Hok Hloop Hputs Htakes _].
  assert (Hst : ∀ t l, threads c !! t = Some l →
    (pc l = P_ret ∨ pc l = C_ret) ∨
    (pc l = P_wait_empty ∧ empty (sh c) = 0) ∨
    (pc l = C_wait_full ∧ full (sh c) = 0) ∨
    ((pc l = P_wait_mutex ∨ pc l = C_wait_mutex) ∧ mutex (sh c) = 0))
    by (intros t l Hl; eapply stuck_thread; eauto).
  assert (Hcs : tally in_cs (threads c) = 0).
  { apply tally_zero. intros t l Hl.
    destruct (Hst t l Hl) as [[->| ->]|[[-> _]|[[-> _]|[[->| ->] _]]]]; done. }
  pose proof (so_mutex _ _ _ Hok) as Hm. rewrite Hcs in Hm.
  assert (Hst' : ∀ t l, threads c !! t = Some l →
    (pc l = P_ret ∨ pc l = C_ret) ∨
    (pc l = P_wait_empty ∧ empty (sh c) = 0) ∨
    (pc l = C_wait_full ∧ full (sh c) = 0)).
  { intros t l Hl. destruct (Hst t l Hl) as [?|[?|[?|[_ ?]]]]; auto. lia. }
  clear Hst.
  assert (Hz : ∀ f, f P_ret = 0 → f C_ret = 0 → f P_wait_empty = 0 →
                    f C_wait_full = 0 → tally f (threads c) = 0).
  { intros f ? ? ? ?. apply tally_zero. intros t l Hl.
    destruct (Hst' t l Hl) as [[->| ->]|[[-> _]|[-> _]]]; done. }
  pose proof (so_empty _ _ _ Hok) as He. pose proof (so_full _ _ _ Hok) as Hf.
  rewrite (Hz has_empty), (Hz owes_empty) in He by done.
  rewrite (Hz has_full), (Hz owes_full) in Hf by done.
  rewrite Hputs, Htakes in He, Hf.
  set (K := CInt.div NUM_ITEMS 2) in *.
  assert (HbP : Forall (λ l, done_puts l
                  <= K * (if is_producer (pc l) then 1 else 0)) (threads c)).
  { apply Forall_lookup. intros t l Hl. by apply (done_bounds tr t), Hloop. }
  assert (HbC : Forall (λ l, done_takes l
                  <= K * (if is_producer (pc l) then 0 else 1)) (threads c)).
  { apply Forall_lookup. intros t l Hl. by apply (done_bounds tr t), Hloop. }
  pose proof (total_le _ (λ p, if is_producer p then 1 else 0) _ _ HbP) as HleP.
  fold (producers (threads c)) in HleP.
  pose proof (total_le _ (λ p, if is_producer p then 0 else 1) _ _ HbC) as HleC.
  fold (consumers (threads c)) in HleC.
  unfold terminated. apply Is_true_true, forallb_True, Forall_lookup. intros t l Hl.
  apply bool_decide_spec.
  destruct (Hst' t l Hl) as [?|[[Hp He0]|[Hp Hf0]]]; [done|exfalso..].
  - (* a producer waits for room: the buffer is full and every consumer has
       returned, so more items were fetched than the producers can store *)
    assert (HR : total done_takes (threads c) = K * consumers (threads c)).
    { apply (total_eq _ (λ p, if is_producer p then 0 else 1)), Forall_lookup.
      intros u lu Hu.
      destruct (Hloop u lu Hu) as [_ _ Hret _ _]. unfold done_takes.
      destruct (Hst' u lu Hu) as [[Hq|Hq]|[[Hq Hx]|[Hq Hx]]];
        rewrite Hq in *; simpl; [lia| |lia|lia].
      rewrite Hret by auto. lia. }
    assert (HW : total done_puts (threads c) < K * producers (threads c)).
    { apply (total_lt _ (λ p, if is_producer p then 1 else 0) _ _ t l HbP Hl).
      destruct (Hloop t l Hl) as [_ Hb _ _ _]. unfold done_puts.
      rewrite Hp in *. simpl. specialize (Hb eq_refl). lia. }
    lia.
  - assert (HW : total done_puts (threads c) = K * producers (threads c)).
    { apply (total_eq _ (λ p, if is_producer p then 1 else 0)), Forall_lookup.
      intros u lu Hu.
      destruct (Hloop u lu Hu) as [_ _ Hret _ _]. unfold done_puts.
      destruct (Hst' u lu Hu) as [[Hq|Hq]|[[Hq Hx]|[Hq Hx]]];
        rewrite Hq in *; simpl; [|lia|lia|lia].
      rewrite Hret by auto. lia. }
    assert (HR : total done_takes (threads c) < K * consumers (threads c)).
    { apply (total_lt _ (λ p, if is_producer p then 0 else 1) _ _ t l HbC Hl).
      destruct (Hloop t l Hl) as [_ Hb _ _ _]. unfold done_takes.
      rewrite Hp in *. simpl. specialize (Hb eq_refl). lia. }
    lia.
Qed.

Lemma progress ts0 tr c :
  inv ts0 tr c → producers ts0 = consumers ts0 → terminated c = false →
  ∃ t c' e, sched_step t c = Some (c', e).
Proof.
  intros Hinv Hpc Hterm.
  destruct (decide (Exists (λ t, is_Some (sched_step t c))
                      (seq 0 (length (threads c))))) as [Hex|Hno].
  - apply Exists_exists in Hex as (t & _ & [[c' e] Hs]). by exists t, c', e.
  - rewrite (stuck_terminated ts0 tr c) in Hterm; [done..|].
    intros t. destruct (sched_step t c) as [[c' e]|] eqn:Hs; [|done].
    exfalso. apply Hno, Exists_exists. exists t. split; [|by eexists].
    apply elem_of_seq. split; [lia|]. simpl.
    apply sem_sched_step_inv in Hs as (l & _ & _ & Hl & _).
    by apply lookup_lt_Some in Hl.
Qed.

(** Every transition is one of the at most [7 * (NUM_ITEMS / 2) + 1] a
    thread makes. *)
Lemma steps_step tr t s l s' l' e :
  loop_ok tr t l → thread_step t s l = Step s' l' e →
  steps_done l' = steps_done l + 1.
Proof.
  intros [Hr Hb _ _ _] Hst.
  pose proof (CIntFacts.wrap_range (Z.quot NUM_ITEMS 2)) as Hd.
  fold (CInt.div NUM_ITEMS 2) in Hd.
  unfold Semaphores.thread_step in Hst.
  destruct l as [n j x p]; unfold steps_done in *; simpl in *.
  destruct p; repeat case_match; simplify_eq; simpl in *;
    try specialize (Hb eq_refl);
    rewrite ?CIntFacts.add_exact
      by (unfold CInt.in_range, CInt.INT_MIN, CInt.INT_MAX in *; lia);
    lia.
Qed.

Lemma steps_bound tr t l :
  loop_ok tr t l →
  0 <= steps_done l <= 7 * CInt.div NUM_ITEMS 2 + 1 ∧
  (steps_done l = 7 * CInt.div NUM_ITEMS 2 + 1 ↔ pc l = P_ret ∨ pc l = C_ret).
Proof.
  intros [Hr Hb Hret _ _]. unfold steps_done.
  destruct (pc l) eqn:Hp; simpl in *; try specialize (Hb eq_refl);
    try specialize (Hret (or_introl eq_refl));
    try specialize (Hret (or_intror eq_refl));
    (split; [lia|]); (split; [intros ?; first [by auto | exfalso; lia]
                            | intros [|]; first [done | lia]]).
Qed.

Lemma steps_run ts0 sched : ∀ tr c c' e,
  inv ts0 tr c → run sched c = Some (c', e) →
  total steps_done (threads c')
  = total steps_done (threads c) + Z.of_nat (length sched).
Proof.
  induction sched as [|t sched IH]; intros tr c c' e Hinv Hrun.
  - simpl in Hrun. simplify_eq. simpl. lia.
  - apply MachineFacts.run_cons_inv in Hrun as (c1 & e1 & e2 & Hs & Hrun & ->).
    pose proof (sem_inv_step _ _ size_ok _ _ _ _ _ _ Hinv Hs) as Hinv1.
    rewrite (IH _ _ _ _ Hinv1 Hrun).
    apply sem_sched_step_inv in Hs as (l & s' & l' & Hl & Hst & ->). simpl.
    rewrite (total_insert _ _ _ _ _ Hl).
    rewrite (steps_step tr t _ _ _ _ _ (inv_loop _ _ _ _ _ Hinv t l Hl) Hst).
    lia.
Qed.

Lemma tally_length ts : tally (λ _, 1) ts = Z.of_nat (length ts).
Proof. induction ts; simpl; lia. Qed.

Lemma steps_total ts0 tr c :
  inv ts0 tr c →
  total steps_done (threads c)
  <= (7 * CInt.div NUM_ITEMS 2 + 1) * Z.of_nat (length (threads c)) ∧
  (terminated c = false →
   total steps_done (threads c)
   < (7 * CInt.div NUM_ITEMS 2 + 1) * Z.of_nat (length (threads c))) ∧
  (terminated c = true →
   total steps_done (threads c)
   = (7 * CInt.div NUM_ITEMS 2 + 1) * Z.of_nat (length (threads c))).
Proof.
  intros Hinv. rewrite <- tally_length.
  assert (Hb : Forall (λ l, steps_done l
                 <= (7 * CInt.div NUM_ITEMS 2 + 1) * (λ _ : loc, 1) (pc l))
                 (threads c)).
  { apply Forall_lookup. intros t l Hl.
    pose proof (steps_bound tr t l (inv_loop _ _ _ _ _ Hinv t l Hl)). lia. }
  split; [by apply total_le|]. split.
  - intros Hterm.
    destruct (not_terminated c Hterm) as (t & l & Hl & Hnr).
    apply (total_lt _ (λ _, 1) _ _ t l Hb Hl).
    pose proof (steps_bound tr t l (inv_loop _ _ _ _ _ Hinv t l Hl)) as [? ?].
    destruct (decide (steps_done l = 7 * CInt.div NUM_ITEMS 2 + 1)); [|lia].
    tauto.
  - intros Hterm. apply (total_eq _ (λ _, 1)), Forall_lookup. intros t l Hl.
    pose proof (steps_bound tr t l (inv_loop _ _ _ _ _ Hinv t l Hl)) as [_ Hiff].
    unfold terminated in Hterm. apply Is_true_true, forallb_True in Hterm.
    rewrite Forall_lookup in Hterm. specialize (Hterm t l Hl).
    apply bool_decide_spec in Hterm. apply Hiff in Hterm. lia.
Qed.

Lemma completion ts0 (n : nat) : ∀ tr c,
  inv ts0 tr c → producers ts0 = consumers ts0 →
  (7 * CInt.div NUM_ITEMS 2 + 1) * Z.of_nat (length (threads c))
  - total steps_done (threads c) <= Z.of_nat n →
  ∃ sched c' e, run sched c = Some (c', e) ∧ terminated c' = true.
Proof.
  induction n as [|n IH]; intros tr c Hinv Hpc Hn;
    destruct (steps_total ts0 tr c Hinv) as (Hle & Hlt & _);
    destruct (terminated c) eqn:Hterm;
    try (by exists [], c, []); try (specialize (Hlt eq_refl); lia).
  destruct (progress ts0 tr c Hinv Hpc Hterm) as (t & c1 & e1 & Hs).
  pose proof (sem_inv_step _ _ size_ok _ _ _ _ _ _ Hinv Hs) as Hinv1.
  assert (Hrun1 : run [t] c = Some (c1, e1 ++ [])) by (simpl; by rewrite Hs).
  pose proof (steps_run ts0 [t] tr c c1 _ Hinv Hrun1) as Hsteps. simpl in Hsteps.
  assert (Hlen : length (threads c1) = length (threads c)).
  { apply sem_sched_step_inv in Hs as (l & s' & l' & _ & _ & ->). simpl.
    by rewrite length_insert. }
  destruct (IH _ c1 Hinv1 Hpc) as (sched & c' & e & Hrun & Hdone).
  { rewrite Hlen. specialize (Hlt eq_refl). lia. }
  exists (t :: sched), c', (e1 ++ e). split; [|done].
  unfold Semaphores.run in *.
  by rewrite (MachineFacts.run_cons _ _ _ _ _ _ _ _ Hs Hrun).
Qed.

(** What the threads leave behind when all of them have returned. *)
Lemma final_state ts0 tr c :
  inv ts0 tr c → producers ts0 = consumers ts0 → terminated c = true →
  takes tr = puts tr ∧
  Z.of_nat (length (puts tr)) = CInt.div NUM_ITEMS 2 * producers ts0 ∧
  empty (sh c) = BUFFER_SIZE ∧ full (sh c) = 0 ∧ mutex (sh c) = 1 ∧
  in_ (sh c) = Z.of_nat (length (puts tr)) mod BUFFER_SIZE ∧
  out (sh c) = in_ (sh c).
Proof.
  intros Hinv Hpc Hterm.
  destruct (roles_kept _ _ _ Hinv) as [HP HC].
  destruct Hinv as [Hok Hloop Hputs Htakes _].
  unfold terminated in Hterm. apply Is_true_true, forallb_True in Hterm.
  rewrite Forall_lookup in Hterm.
  assert (Hret : ∀ t l, threads c !! t = Some l → pc l = P_ret ∨ pc l = C_ret).
  { intros t l Hl. exact (bool_decide_unpack _ (Hterm t l Hl)). }
  assert (Hz : ∀ f, f P_ret = 0 → f C_ret = 0 → tally f (threads c) = 0).
  { intros f ? ?. apply tally_zero. intros t l Hl.
    destruct (Hret t l Hl) as [->| ->]; done. }
  set (K := CInt.div NUM_ITEMS 2) in *.
  assert (HW : total done_puts (threads c) = K * producers (threads c)).
  { apply (total_eq _ (λ p, if is_producer p then 1 else 0)), Forall_lookup.
    intros u lu Hu. destruct (Hloop u lu Hu) as [_ _ Hi _ _]. unfold done_puts.
    specialize (Hi (Hret u lu Hu)).
    destruct (Hret u lu Hu) as [Hq|Hq]; rewrite Hq; simpl; lia. }
  assert (HR : total done_takes (threads c) = K * consumers (threads c)).
  { apply (total_eq _ (λ p, if is_producer p then 0 else 1)), Forall_lookup.
    intros u lu Hu. destruct (Hloop u lu Hu) as [_ _ Hi _ _]. unfold done_takes.
    specialize (Hi (Hret u lu Hu)).
    destruct (Hret u lu Hu) as [Hq|Hq]; rewrite Hq; simpl; lia. }
  destruct Hok as [Hm _ He _ Hf _ _ Hin Hout _ Hfifo].
  rewrite (Hz in_cs) in Hm by done.
  rewrite (Hz has_empty), (Hz owes_empty) in He by done.
  rewrite (Hz has_full), (Hz owes_full) in Hf by done.
  rewrite (Hz at_P_adv) in Hin by done. rewrite (Hz at_C_adv) in Hout by done.
  assert (Hlen : length (takes tr) = length (puts tr)) by lia.
  split; [|split; [lia|]].
  - rewrite Hlen in Hfifo. rewrite Hfifo. apply firstn_all.
  - rewrite Hin, Hout, Hlen, !Z.sub_0_r. repeat split; lia.
Qed.

(** *** The items a producer stores *)

Lemma producer_ok_self ts0 tr t s l s' l' e :
  loop_ok tr t l → producer_ok ts0 tr t l → thread_step t s l = Step s' l' e →
  producer_ok ts0 (tr ++ e) t l'.
Proof.
  intros Hloop [Hid Hitem Hputs] Hst.
  pose proof Hst as Hd. eapply done_step in Hd as [Hd _]; eauto.
  pose proof (lo_puts _ _ _ _ Hloop) as Hlen.
  unfold Semaphores.thread_step in Hst.
  destruct l as [n j x p]; simpl in *.
  destruct p; repeat case_match; simplify_eq; simpl in *;
    (constructor; simpl;
     [done
     |try done; intros; by auto
     |rewrite puts_by_app, Hputs, Hd; simpl; rewrite ?decide_True by done;
      rewrite ?app_nil_r, ?Z.add_0_r; try done]).
  rewrite Z2Nat.inj_add, Nat.add_1_r, items_of_S by lia.
  rewrite Z2Nat.id by lia. rewrite Hitem by done.
  unfold done_puts. simpl. by rewrite Z.add_0_r.
Qed.

Lemma producer_ok_other ts0 tr t u s l s' l' e lu :
  u ≠ t → thread_step t s l = Step s' l' e → producer_ok ts0 tr u lu →
  producer_ok ts0 (tr ++ e) u lu.
Proof.
  intros Hne Hst [Hid Hitem Hputs]. constructor; try done.
  rewrite puts_by_app.
  pose proof Hst as He. eapply step_events in He as [-> | [[x ->] | [x ->]]];
    simpl;
    rewrite ?decide_False by done; by rewrite ?app_nil_r.
Qed.

Local Abbreviation all_producer_ok ts0 tr c :=
  (∀ t l, threads c !! t = Some l → producer_ok ts0 tr t l).

Lemma items_step ts0 tr c t c' e :
  inv ts0 tr c → all_producer_ok ts0 tr c → sched_step t c = Some (c', e) →
  all_producer_ok ts0 (tr ++ e) c'.
Proof.
  intros Hinv Hall Hs u lu Hu.
  apply sem_sched_step_inv in Hs as (l & s' & l' & Hl & Hst & ->).
  simpl in Hu. destruct (decide (u = t)) as [->|Hne].
  - rewrite list_lookup_insert_eq in Hu by (by eapply lookup_lt_Some).
    simplify_eq.
    eapply producer_ok_self; eauto. by eapply inv_loop.
  - rewrite list_lookup_insert_ne in Hu by done.
    eapply producer_ok_other; eauto.
Qed.

Lemma items_run ts0 sched : ∀ tr c c' e,
  inv ts0 tr c → all_producer_ok ts0 tr c → run sched c = Some (c', e) →
  all_producer_ok ts0 (tr ++ e) c'.
Proof.
  induction sched as [|t sched IH]; intros tr c c' e Hinv Hall Hrun.
  - simpl in Hrun. simplify_eq. by rewrite app_nil_r.
  - apply MachineFacts.run_cons_inv in Hrun as (c1 & e1 & e2 & Hs & Hrun & ->).
    rewrite app_assoc. eapply IH; [|by eapply items_step|done].
    eapply sem_inv_step; eauto.
Qed.

Lemma items_init ts : Forall created ts → all_producer_ok ts [] (init ts).
Proof.
  intros Hts t l Hl. simpl in Hl.
  rewrite Forall_lookup in Hts. specialize (Hts t l Hl).
  constructor.
  - by rewrite Hl.
  - by destruct Hts as [-> | ->].
  - by destruct Hts as [-> | ->].
Qed.

Lemma items_reach ts sched c tr :
  Forall created ts → run sched (init ts) = Some (c, tr) →
  all_producer_ok ts tr c.
Proof.
  intros Hts Hrun.
  apply (items_run ts sched [] (init ts) c tr); [|by apply items_init|done].
  by apply sem_inv_init.
Qed.

Lemma sem_ok_run sched tr c c' e :
  sem_ok tr c → run sched c = Some (c', e) → sem_ok (tr ++ e) c'.
Proof.
  apply (MachineFacts.run_invariant sched_step sem_ok).
  intros. by eapply sem_ok_step.
Qed.

Lemma steps_created ts : Forall created ts → total steps_done ts = 0.
Proof.
  induction 1 as [|l ts [Hl|Hl] _ IH]; simpl; [done|rewrite Hl, IH..]; done.
Qed.

Lemma threads_length ts0 tr c : inv ts0 tr c → length (threads c) = length ts0.
Proof.
  intros [_ _ _ _ Hrole].
  by rewrite <- (length_fmap (λ l, is_producer (pc l)) (threads c)), Hrole,
    length_fmap.
Qed.

End Facts.
End SemLoopsFacts.

(** ** The condition-variable program: loops and final state *)

Module CvLoopsFacts.
Import CondVar Items CvLoops CondVarFacts ItemsFacts.

Lemma cv_puts_by_app t tr1 tr2 :
  puts_by t (tr1 ++ tr2) = puts_by t tr1 ++ puts_by t tr2.
Proof.
  induction tr1 as [|[u x|u x] tr1 IH]; simpl; [done| |done].
  destruct (decide (u = t)); simpl; by rewrite IH.
Qed.

Lemma cv_takes_by_app t tr1 tr2 :
  takes_by t (tr1 ++ tr2) = takes_by t tr1 ++ takes_by t tr2.
Proof.
  induction tr1 as [|[u x|u x] tr1 IH]; simpl; [done|done|].
  destruct (decide (u = t)); simpl; by rewrite IH.
Qed.

Lemma cv_total_insert g ts t l l' :
  ts !! t = Some l → total g (<[t := l']> ts) = total g ts - g l + g l'.
Proof.
  revert t. induction ts as [|a ts IH]; intros [|t] H; simplify_eq/=; [lia|].
  rewrite (IH t) by done. lia.
Qed.

Lemma cv_tally_insert f ts t l l' :
  ts !! t = Some l →
  tally f (<[t := l']> ts) = tally f ts - f (pc l) + f (pc l').
Proof. intros H. unfold tally. by rewrite (cv_total_insert _ _ _ _ _ H). Qed.

Lemma cv_total_nonneg g ts : (∀ l, 0 <= g l) → 0 <= total g ts.
Proof. intros H. induction ts as [|l ts IH]; simpl; [done|]. specialize (H l). lia. Qed.

Lemma cv_total_zero g ts :
  (∀ t l, ts !! t = Some l → g l = 0) → total g ts = 0.
Proof.
  induction ts as [|l ts IH]; intros H; simpl; [done|].
  rewrite (H 0%nat l eq_refl), IH; [done|].
  intros t l' Hl. exact (H (S t) l' Hl).
Qed.

Lemma cv_tally_zero f ts :
  (∀ t l, ts !! t = Some l → f (pc l) = 0) → tally f ts = 0.
Proof. apply cv_total_zero. Qed.

Lemma cv_tally_roles f (ts ts0 : list local) :
  (λ l, is_producer (pc l)) <$> ts = (λ l, is_producer (pc l)) <$> ts0 →
  tally (λ p, f (is_producer p)) ts = tally (λ p, f (is_producer p)) ts0.
Proof.
  unfold tally.
  revert ts0. induction ts as [|l ts IH]; intros [|l0 ts0] H; simplify_eq/=;
    [done|].
  by rewrite (IH ts0), H.
Qed.

Lemma cv_tally_length ts : tally (λ _, 1) ts = Z.of_nat (length ts).
Proof. unfold tally. induction ts; simpl; lia. Qed.

Lemma cv_total_le g w K ts :
  Forall (λ l, g l <= K * w (pc l)) ts → total g ts <= K * tally w ts.
Proof. unfold tally. induction 1; simpl; lia. Qed.

Lemma cv_total_lt g w K ts t l :
  Forall (λ l, g l <= K * w (pc l)) ts → ts !! t = Some l →
  g l < K * w (pc l) → total g ts < K * tally w ts.
Proof.
  intros H. revert t. induction H as [|l0 ts H0 H IH]; intros [|t] Hl Hlt;
    simplify_eq/=.
  - pose proof (cv_total_le g w K ts H). unfold tally in *. simpl. lia.
  - specialize (IH t Hl Hlt). unfold tally in *. simpl. lia.
Qed.

Lemma cv_total_eq g w K ts :
  Forall (λ l, g l = K * w (pc l)) ts → total g ts = K * tally w ts.
Proof. unfold tally. induction 1; simpl; lia. Qed.

Lemma cv_not_terminated c :
  terminated c = false →
  ∃ t l, threads c !! t = Some l ∧ ¬ (pc l = P_ret ∨ pc l = C_ret).
Proof.
  unfold terminated. induction (threads c) as [|l ts IH]; simpl; [done|].
  destruct (bool_decide (pc l = P_ret ∨ pc l = C_ret)) eqn:Hd; simpl.
  - intros H. destruct (IH H) as (t & l' & Hl & Hn). by exists (S t), l'.
  - intros _. exists 0%nat, l. split; [done|].
    by apply bool_decide_eq_false in Hd.
Qed.

Lemma cv_terminated_spec c :
  terminated c = true ↔
  ∀ t l, threads c !! t = Some l → pc l = P_ret ∨ pc l = C_ret.
Proof.
  unfold terminated. rewrite <- Is_true_true, forallb_True, Forall_lookup.
  split; intros H t l Hl; specialize (H t l Hl).
  - by apply bool_decide_unpack in H.
  - by apply bool_decide_pack.
Qed.

Section Facts.

Variables BUFFER_SIZE NUM_ITEMS : Z.
Hypothesis size_ok : 0 < BUFFER_SIZE <= CInt.INT_MAX.
Hypothesis items_ok : 0 <= CInt.div NUM_ITEMS 2.

Local Abbreviation thread_step := (CondVar.thread_step BUFFER_SIZE NUM_ITEMS).
Local Abbreviation sched_step := (CondVar.sched_step BUFFER_SIZE NUM_ITEMS).
Local Abbreviation run := (CondVar.run BUFFER_SIZE NUM_ITEMS).
Local Abbreviation init := (CondVar.init BUFFER_SIZE).
Local Abbreviation loop_ok := (CvLoops.loop_ok NUM_ITEMS).
Local Abbreviation linv := (CvLoops.inv NUM_ITEMS).

Lemma cv_step_events t s l s' l' e :
  thread_step t s l = Step s' l' e →
  e = [] ∨ (∃ x, e = [Put t x]) ∨ (∃ x, e = [Take t x]).
Proof.
  unfold CondVar.thread_step. destruct (pc l); repeat case_match;
    intros; simplify_eq; eauto.
Qed.

Lemma cv_step_role t s l s' l' e :
  thread_step t s l = Step s' l' e → is_producer (pc l') = is_producer (pc l).
Proof.
  unfold CondVar.thread_step. destruct (pc l) eqn:Hp; repeat case_match;
    intros; simplify_eq; done.
Qed.

Lemma cv_loop_ok_self tr t s l s' l' e :
  loop_ok tr t l → thread_step t s l = Step s' l' e → loop_ok (tr ++ e) t l'.
Proof.
  intros [Hr Hb Hret Hp Hc] Hst.
  pose proof (CIntFacts.wrap_range (Z.quot NUM_ITEMS 2)) as Hd.
  fold (CInt.div NUM_ITEMS 2) in Hd.
  unfold CondVar.thread_step in Hst.
  destruct l as [n j x p]; unfold done_puts, done_takes in *; simpl in *.
  destruct p; repeat case_match; simplify_eq; simpl in *;
    repeat match goal with
           | H : (_ <? _) = true |- _ => apply Z.ltb_lt in H
           | H : (_ <? _) = false |- _ => apply Z.ltb_ge in H
           end;
    try specialize (Hb eq_refl);
    constructor; unfold done_puts, done_takes; simpl;
    rewrite ?CIntFacts.add_exact
      by (unfold CInt.in_range, CInt.INT_MIN, CInt.INT_MAX in *; lia);
    rewrite ?cv_puts_by_app, ?cv_takes_by_app; simpl;
    rewrite ?decide_True by done;
    rewrite ?app_nil_r, ?length_app; simpl; try done; try lia;
    intros [|]; done.
Qed.

Lemma cv_loop_ok_other tr t u s l s' l' e lu :
  u ≠ t → thread_step t s l = Step s' l' e → loop_ok tr u lu →
  loop_ok (tr ++ e) u lu.
Proof.
  intros Hne Hst [Hr Hb Hret Hp Hc].
  constructor; try done; rewrite ?cv_puts_by_app, ?cv_takes_by_app;
    destruct (cv_step_events _ _ _ _ _ _ Hst) as [-> | [[x ->] | [x ->]]]; simpl;
    rewrite ?decide_False by done; by rewrite ?app_nil_r.
Qed.

Lemma cv_done_step tr t s l s' l' e :
  loop_ok tr t l → thread_step t s l = Step s' l' e →
  done_puts l' = done_puts l + Z.of_nat (length (puts e)) ∧
  done_takes l' = done_takes l + Z.of_nat (length (takes e)).
Proof.
  intros [Hr Hb Hret Hp Hc] Hst.
  pose proof (CIntFacts.wrap_range (Z.quot NUM_ITEMS 2)) as Hd.
  fold (CInt.div NUM_ITEMS 2) in Hd.
  unfold CondVar.thread_step in Hst.
  destruct l as [n j x p]; unfold done_puts, done_takes in *; simpl in *.
  destruct p; repeat case_match; simplify_eq; simpl in *;
    try specialize (Hb eq_refl);
    rewrite ?CIntFacts.add_exact
      by (unfold CInt.in_range, CInt.INT_MIN, CInt.INT_MAX in *; lia);
    lia.
Qed.

Lemma cv_producer_ok_self ts0 tr t s l s' l' e :
  loop_ok tr t l → producer_ok ts0 tr t l → thread_step t s l = Step s' l' e →
  producer_ok ts0 (tr ++ e) t l'.
Proof.
  intros Hloop [Hid Hitem Hputs] Hst.
  destruct (cv_done_step _ _ _ _ _ _ _ Hloop Hst) as [Hd _].
  pose proof (lo_puts _ _ _ _ Hloop) as Hlen.
  unfold CondVar.thread_step in Hst.
  destruct l as [n j x p]; simpl in *.
  destruct p; repeat case_match; simplify_eq; simpl in *;
    (constructor; simpl;
     [done
     |try done; intros; by auto
     |rewrite cv_puts_by_app, Hputs, Hd; simpl; rewrite ?decide_True by done;
      rewrite ?app_nil_r, ?Z.add_0_r; try done]).
  rewrite Z2Nat.inj_add, Nat.add_1_r, items_of_S by lia.
  rewrite Z2Nat.id by lia. rewrite Hitem by done.
  unfold done_puts. simpl. by rewrite Z.add_0_r.
Qed.

Lemma cv_producer_ok_other ts0 tr t u s l s' l' e lu :
  u ≠ t → thread_step t s l = Step s' l' e → producer_ok ts0 tr u lu →
  producer_ok ts0 (tr ++ e) u lu.
Proof.
  intros Hne Hst [Hid Hitem Hputs]. constructor; try done.
  rewrite cv_puts_by_app.
  destruct (cv_step_events _ _ _ _ _ _ Hst) as [-> | [[x ->] | [x ->]]]; simpl;
    rewrite ?decide_False by done; by rewrite ?app_nil_r.
Qed.

(** The mutex is given to the thread that takes the transition only. *)
Lemma cv_step_owner t s l s' l' e o :
  thread_step t s l = Step s' l' e → mutex s' = Some o →
  o = t ∨ mutex s = Some o.
Proof.
  unfold CondVar.thread_step. destruct (pc l); repeat case_match;
    intros; simplify_eq/=; auto.
Qed.

Lemma cv_loops_step ts0 tr c t c' e :
  linv ts0 tr c → sched_step t c = Some (c', e) → linv ts0 (tr ++ e) c'.
Proof.
  intros [Hloop Hitems Hputs Htakes Hrole Hown] Hs.
  apply cv_sched_step_inv in Hs as (l & s' & l' & Hl & Hst & ->).
  pose proof (lookup_lt_Some _ _ _ Hl) as Hlt.
  destruct (cv_done_step tr t _ _ _ _ _ (Hloop t l Hl) Hst) as [Hdp Hdt].
  constructor; simpl.
  - intros u lu Hu. destruct (decide (u = t)) as [->|Hne].
    + rewrite list_lookup_insert_eq in Hu by done. simplify_eq.
      eapply cv_loop_ok_self; eauto.
    + rewrite list_lookup_insert_ne in Hu by done.
      eapply cv_loop_ok_other; eauto.
  - intros u lu Hu. destruct (decide (u = t)) as [->|Hne].
    + rewrite list_lookup_insert_eq in Hu by done. simplify_eq.
      eapply cv_producer_ok_self; eauto.
    + rewrite list_lookup_insert_ne in Hu by done.
      eapply cv_producer_ok_other; eauto.
  - rewrite cv_puts_app, length_app, (cv_total_insert _ _ _ _ _ Hl). lia.
  - rewrite cv_takes_app, length_app, (cv_total_insert _ _ _ _ _ Hl). lia.
  - rewrite <- Hrole. rewrite list_fmap_insert.
    rewrite (cv_step_role _ _ _ _ _ _ Hst).
    apply list_insert_id. by rewrite list_lookup_fmap, Hl.
  - intros o Ho. apply lookup_lt_is_Some. rewrite length_insert.
    destruct (cv_step_owner _ _ _ _ _ _ _ Hst Ho) as [->|Ho']; [done|].
    by apply lookup_lt_is_Some, Hown.
Qed.

Lemma cv_loops_run ts0 sched tr c c' e :
  linv ts0 tr c → run sched c = Some (c', e) → linv ts0 (tr ++ e) c'.
Proof.
  apply (MachineFacts.run_invariant sched_step (linv ts0)).
  intros. by eapply cv_loops_step.
Qed.

Lemma cv_total_created ts :
  Forall created ts → total done_puts ts = 0 ∧ total done_takes ts = 0.
Proof.
  induction 1 as [|l ts [Hl|Hl] _ [IH1 IH2]]; simpl; [done|..];
    rewrite Hl, IH1, IH2; done.
Qed.

Lemma cv_loops_init ts : Forall created ts → linv ts [] (init ts).
Proof.
  intros Hts. destruct (cv_total_created ts Hts) as [H1 H2].
  constructor; simpl; try done.
  - intros t l Hl. rewrite Forall_lookup in Hts.
    destruct (Hts t l Hl) as [-> | ->]; constructor; simpl; try done; try lia;
      intros [|]; done.
  - intros t l Hl. rewrite Forall_lookup in Hts. specialize (Hts t l Hl).
    constructor.
    + by rewrite Hl.
    + by destruct Hts as [-> | ->].
    + by destruct Hts as [-> | ->].
Qed.

Lemma cv_loops_reach ts sched c tr :
  Forall created ts → run sched (init ts) = Some (c, tr) → linv ts tr c.
Proof.
  intros Hts Hrun.
  apply (cv_loops_run ts sched [] (init ts) c tr); [|done].
  by apply cv_loops_init.
Qed.

Lemma cv_done_bounds tr t l :
  loop_ok tr t l →
  done_puts l <= CInt.div NUM_ITEMS 2 * (if is_producer (pc l) then 1 else 0) ∧
  done_takes l <= CInt.div NUM_ITEMS 2 * (if is_producer (pc l) then 0 else 1).
Proof.
  intros [Hr Hb _ _ _]. unfold done_puts, done_takes.
  destruct (pc l); simpl in *; try specialize (Hb eq_refl); lia.
Qed.

Lemma cv_roles_kept ts0 tr c :
  linv ts0 tr c →
  producers (threads c) = producers ts0 ∧ consumers (threads c) = consumers ts0.
Proof.
  intros [_ _ _ _ Hrole _]. unfold producers, consumers. split.
  - exact (cv_tally_roles (λ b : bool, if b then 1 else 0) _ _ Hrole).
  - exact (cv_tally_roles (λ b : bool, if b then 0 else 1) _ _ Hrole).
Qed.

Lemma cv_threads_length ts0 tr c : linv ts0 tr c → length (threads c) = length ts0.
Proof.
  intros [_ _ _ _ Hrole _].
  by rewrite <- (length_fmap (λ l, is_producer (pc l)) (threads c)), Hrole,
    length_fmap.
Qed.

(** With no thread between lock and unlock the mutex is free. *)
Lemma cv_mutex_free ts0 tr c :
  mutex_inv c → linv ts0 tr c →
  (∀ t l, threads c !! t = Some l → holds (pc l) = false) →
  mutex (sh c) = None.
Proof.
  intros Hm Hl Hout. destruct (mutex (sh c)) as [o|] eqn:Ho; [|done].
  destruct (inv_owner _ _ _ _ Hl o Ho) as [lo Hlo].
  pose proof (proj1 (Hm o lo Hlo) Ho) as Hh.
  rewrite (Hout o lo Hlo) in Hh. done.
Qed.

Lemma cv_totals_returned c tr :
  (∀ t l, threads c !! t = Some l → loop_ok tr t l) →
  (∀ t l, threads c !! t = Some l → pc l = P_ret ∨ pc l = C_ret) →
  total done_puts (threads c) = CInt.div NUM_ITEMS 2 * producers (threads c) ∧
  total done_takes (threads c) = CInt.div NUM_ITEMS 2 * consumers (threads c).
Proof.
  intros Hloop Hret. split.
  - apply (cv_total_eq _ (λ p, if is_producer p then 1 else 0)), Forall_lookup.
    intros u lu Hu. destruct (Hloop u lu Hu) as [_ _ Hi _ _]. unfold done_puts.
    specialize (Hi (Hret u lu Hu)).
    destruct (Hret u lu Hu) as [Hq|Hq]; rewrite Hq; simpl; lia.
  - apply (cv_total_eq _ (λ p, if is_producer p then 0 else 1)), Forall_lookup.
    intros u lu Hu. destruct (Hloop u lu Hu) as [_ _ Hi _ _]. unfold done_takes.
    specialize (Hi (Hret u lu Hu)).
    destruct (Hret u lu Hu) as [Hq|Hq]; rewrite Hq; simpl; lia.
Qed.

(** What the threads leave behind when all of them have returned. *)
Lemma cv_final_state ts0 tr c :
  CondVar.inv BUFFER_SIZE tr c → linv ts0 tr c → terminated c = true →
  Forall (λ l, i l = CInt.div NUM_ITEMS 2) (threads c) ∧
  Z.of_nat (length (puts tr)) = CInt.div NUM_ITEMS 2 * producers ts0 ∧
  Z.of_nat (length (takes tr)) = CInt.div NUM_ITEMS 2 * consumers ts0 ∧
  mutex (sh c) = None ∧
  count (sh c)
  = Z.of_nat (length (puts tr)) - Z.of_nat (length (takes tr)) ∧
  in_ (sh c) = Z.of_nat (length (puts tr)) mod BUFFER_SIZE ∧
  out (sh c) = Z.of_nat (length (takes tr)) mod BUFFER_SIZE ∧
  (producers ts0 = consumers ts0 →
   takes tr = puts tr ∧ count (sh c) = 0 ∧ out (sh c) = in_ (sh c)).
Proof.
  intros [Hm Hd] Hl Hterm.
  destruct (cv_roles_kept _ _ _ Hl) as [HP HC].
  rewrite cv_terminated_spec in Hterm.
  assert (Hfree : mutex (sh c) = None).
  { apply (cv_mutex_free ts0 tr c Hm Hl). intros t l Hlk.
    destruct (Hterm t l Hlk) as [-> | ->]; done. }
  destruct (cv_totals_returned c tr (inv_loop _ _ _ _ Hl) Hterm) as [HW HR].
  rewrite <- (inv_puts _ _ _ _ Hl), HP in HW.
  rewrite <- (inv_takes _ _ _ _ Hl), HC in HR.
  unfold CondVar.data_inv, owner_pc in Hd. rewrite Hfree in Hd.
  destruct Hd as [_ Hin Hout Hcount _ _ _ _ _ Hfifo]. simpl in *.
  rewrite !Z.sub_0_r in *. rewrite Z.add_0_r in Hcount.
  split.
  { apply Forall_lookup. intros t l Hlk.
    destruct (inv_loop _ _ _ _ Hl t l Hlk) as [_ _ Hi _ _].
    exact (Hi (Hterm t l Hlk)). }
  do 6 (split; [done|]).
  intros Heq.
  assert (Hlen : length (takes tr) = length (puts tr)) by (rewrite Heq in HW; lia).
  split; [|rewrite Hcount, Hin, Hout, Hlen; split; [lia|done]].
  rewrite Hlen in Hfifo. rewrite Hfifo. apply firstn_all.
Qed.

End Facts.
End CvLoopsFacts.

(** ** The condition-variable program with its signals *)

Module SignalsFacts.
Import CondVar CvLoops Signals CondVarFacts CvLoopsFacts.

Lemma run_app {config event : Type}
    (step : nat → config → option (config * list event)) s1 : ∀ s2 c c1 e1 c2 e2,
  Machine.run step s1 c = Some (c1, e1) → Machine.run step s2 c1 = Some (c2, e2) →
  Machine.run step (s1 ++ s2) c = Some (c2, e1 ++ e2).
Proof.
  induction s1 as [|t s1 IH]; intros s2 c c1 e1 c2 e2 H1 H2.
  - simpl in H1. by simplify_eq.
  - apply MachineFacts.run_cons_inv in H1 as (c0 & e0 & e' & Hs & H1 & ->).
    rewrite <- app_assoc.
    exact (MachineFacts.run_cons step _ _ _ _ _ _ _ Hs (IH _ _ _ _ _ _ H1 H2)).
Qed.

Lemma asleep_spec p ts u : u ∈ asleep p ts ↔ pc <$> ts !! u = Some p.
Proof.
  unfold asleep. rewrite list_elem_of_filter, elem_of_seq. split.
  - by intros [? _].
  - intros H. split; [done|]. destruct (ts !! u) eqn:E; [|done].
    apply lookup_lt_Some in E. lia.
Qed.

(** A signal changes nothing when no thread sleeps at [p], and moves one
    of the sleepers to [q] otherwise. *)
Lemma signal_spec p q k ts :
  ((∀ u l, ts !! u = Some l → pc l ≠ p) ∧ signal p q k ts = ts) ∨
  (∃ u l, ts !! u = Some l ∧ pc l = p ∧ signal p q k ts = <[u := goto l q]> ts).
Proof.
  unfold signal. destruct (asleep p ts) as [|u0 sl] eqn:E.
  - left. split; [|done]. intros u l Hl Hp.
    assert (H : u ∈ asleep p ts) by (apply asleep_spec; by rewrite Hl, <- Hp).
    rewrite E in H. by apply elem_of_nil in H.
  - right. destruct ((u0 :: sl) !! (k mod length (u0 :: sl))%nat) as [u|] eqn:Eu.
    + assert (H : u ∈ asleep p ts)
        by (rewrite E; by eapply list_elem_of_lookup_2).
      apply asleep_spec in H. destruct (ts !! u) as [l|] eqn:El; [|done].
      simpl in H. exists u, l. by simplify_eq.
    + apply lookup_ge_None in Eu.
      pose proof (Nat.mod_upper_bound k (length (u0 :: sl))). simpl in *. lia.
Qed.

Lemma at_insert (p : loc) (ts : list local) (t : nat) l1 :
  (∃ u lu, <[t := l1]> ts !! u = Some lu ∧ pc lu = p) →
  pc l1 = p ∨ ∃ u lu, ts !! u = Some lu ∧ pc lu = p.
Proof.
  intros (u & lu & Hu & Hp). destruct (decide (u = t)) as [->|Hne].
  - apply list_lookup_insert_Some in Hu as [(_ & -> & _)|[? _]]; [auto|done].
  - rewrite list_lookup_insert_ne in Hu by done. eauto.
Qed.

Section Facts.

Variables BUFFER_SIZE NUM_ITEMS : Z.
Hypothesis size_ok : 0 < BUFFER_SIZE <= CInt.INT_MAX.
Hypothesis items_ok : 0 <= CInt.div NUM_ITEMS 2.

Local Abbreviation thread_step := (CondVar.thread_step BUFFER_SIZE NUM_ITEMS).
Local Abbreviation cv_step := (CondVar.sched_step BUFFER_SIZE NUM_ITEMS).
Local Abbreviation cv_run := (CondVar.run BUFFER_SIZE NUM_ITEMS).
Local Abbreviation sched_step := (Signals.sched_step BUFFER_SIZE NUM_ITEMS).
Local Abbreviation run := (Signals.run BUFFER_SIZE NUM_ITEMS).
Local Abbreviation init := (CondVar.init BUFFER_SIZE).
Local Abbreviation loop_ok := (CvLoops.loop_ok NUM_ITEMS).
Local Abbreviation linv := (CvLoops.inv NUM_ITEMS).
Local Abbreviation wake_ok := (Signals.wake_ok BUFFER_SIZE).

Lemma sig_step_inv b tk c c' e :
  sched_step b tk c = Some (c', e) →
  ∃ l s1 l1,
    threads c !! tk.1 = Some l ∧
    thread_step tk.1 (sh c) l = Step s1 l1 e ∧
    (b = false → pc l ≠ P_wait ∧ pc l ≠ C_wait) ∧
    c' = Config s1
           (match pc l with
            | P_signal => signal C_wait C_relock tk.2 (<[tk.1 := l1]> (threads c))
            | C_signal => signal P_wait P_relock tk.2 (<[tk.1 := l1]> (threads c))
            | _ => <[tk.1 := l1]> (threads c)
            end).
Proof.
  unfold Signals.sched_step. destruct (threads c !! tk.1) as [l|] eqn:Hl; [|done].
  destruct (cv_step tk.1 c) as [[c1 e1]|] eqn:Hs; [|done].
  apply cv_sched_step_inv in Hs as (l0 & s1 & l1 & Hl0 & Hst & ->).
  simplify_eq. intros H. exists l, s1, l1.
  destruct (pc l) eqn:Hp; destruct b; simplify_eq/=; auto 10.
Qed.

Lemma wake_transition t s l p q :
  (p = P_wait ∧ q = P_relock) ∨ (p = C_wait ∧ q = C_relock) →
  pc l = p → thread_step t s l = Step s (goto l q) [].
Proof.
  intros [[-> ->]|[-> ->]] Hp; unfold CondVar.thread_step; by rewrite Hp.
Qed.

(** A transition with its signal is one or two transitions of [CondVar]:
    that of the thread, and the wake-up of the thread it signals. *)
Lemma sig_step_refines b tk c c' e :
  sched_step b tk c = Some (c', e) →
  ∃ sched, cv_run sched c = Some (c', e) ∧ (1 <= length sched <= 2)%nat.
Proof.
  intros Hs. apply sig_step_inv in Hs as (l & s1 & l1 & Hl & Hst & _ & ->).
  assert (Hcv : cv_step tk.1 c = Some (Config s1 (<[tk.1 := l1]> (threads c)), e)).
  { unfold CondVar.sched_step. by rewrite Hl, Hst. }
  assert (Hone : ∃ sched,
             cv_run sched c = Some (Config s1 (<[tk.1 := l1]> (threads c)), e)
             ∧ (1 <= length sched <= 2)%nat).
  { exists [tk.1]. split; [|simpl; lia].
    unfold CondVar.run. simpl. fold cv_step. by rewrite Hcv, app_nil_r. }
  assert (Hsig : ∀ p q,
             (p = P_wait ∧ q = P_relock) ∨ (p = C_wait ∧ q = C_relock) →
             ∃ sched,
               cv_run sched c
               = Some (Config s1 (signal p q tk.2 (<[tk.1 := l1]> (threads c))), e)
               ∧ (1 <= length sched <= 2)%nat).
  { intros p q Hpq.
    destruct (signal_spec p q tk.2 (<[tk.1 := l1]> (threads c)))
      as [[_ ->]|(u & lu & Hu & Hp & ->)]; [done|].
    exists [tk.1; u]. split; [|simpl; lia].
    unfold CondVar.run. simpl. fold cv_step. rewrite Hcv.
    unfold CondVar.sched_step at 1. simpl. rewrite Hu.
    rewrite (wake_transition u s1 lu p q Hpq Hp). simpl.
    by rewrite !app_nil_r. }
  destruct (pc l); auto.
Qed.

Lemma sig_run_refines b sched : ∀ c c' e,
  run b sched c = Some (c', e) →
  ∃ sched', cv_run sched' c = Some (c', e)
            ∧ (length sched <= length sched' <= 2 * length sched)%nat.
Proof.
  induction sched as [|tk sched IH]; intros c c' e Hr; simpl in Hr.
  - simplify_eq. exists []. split; [done|simpl; lia].
  - destruct (sched_step b tk c) as [[c1 e1]|] eqn:Hs; [|done].
    destruct (run b sched c1) as [[c2 e2]|] eqn:Hr1; [|done]. simplify_eq.
    destruct (sig_step_refines _ _ _ _ _ Hs) as (s1 & H1 & Hl1).
    destruct (IH _ _ _ Hr1) as (s2 & H2 & Hl2).
    exists (s1 ++ s2). split; [|rewrite length_app; simpl; lia].
    exact (run_app _ _ _ _ _ _ _ _ H1 H2).
Qed.

Local Abbreviation sig_inv := (Signals.sig_inv BUFFER_SIZE NUM_ITEMS).

Lemma serves_consumers_range p : 0 <= serves_consumers p.
Proof. by destruct p. Qed.
Lemma serves_producers_range p : 0 <= serves_producers p.
Proof. by destruct p. Qed.

Lemma count_step tr c t l s1 l1 e :
  CondVar.inv BUFFER_SIZE tr c → threads c !! t = Some l →
  thread_step t (sh c) l = Step s1 l1 e →
  count s1 = count (sh c) + (if decide (pc l = P_inc) then 1 else 0)
             - (if decide (pc l = C_dec) then 1 else 0).
Proof.
  intros Hinv Hl Hst.
  assert (Hc : 0 <= count (sh c) <= BUFFER_SIZE)
    by (eapply count_bound; eauto).
  assert (Hinc : pc l = P_inc → count (sh c) < BUFFER_SIZE).
  { intros Hp.
    assert (Hd : data_ok BUFFER_SIZE tr (sh c) (Some (pc l)))
      by (eapply owner_pc_at; eauto; by rewrite Hp).
    destruct Hd as [_ _ _ Hcount _ Hocc _ _ _ _]. rewrite Hp in Hcount.
    simpl in Hcount. lia. }
  unfold CondVar.thread_step in Hst.
  destruct (pc l) eqn:Hp; repeat case_match; simplify_eq/=; try lia.
  - rewrite CIntFacts.add_exact; [lia|].
    specialize (Hinc eq_refl).
    unfold CInt.in_range, CInt.INT_MIN, CInt.INT_MAX in *. lia.
  - rewrite CIntFacts.sub_exact; [lia|].
    unfold CInt.in_range, CInt.INT_MIN, CInt.INT_MAX in *. lia.
Qed.

Lemma to_sleep t s l s1 l1 e :
  thread_step t s l = Step s1 l1 e →
  (pc l1 = C_wait → count s = 0 ∧ pc l = C_while) ∧
  (pc l1 = P_wait → count s = BUFFER_SIZE ∧ pc l = P_while).
Proof.
  unfold CondVar.thread_step.
  destruct (pc l) eqn:Hp; repeat case_match; intros; simplify_eq/=;
    split; intros; try done; split; try done; lia.
Qed.

Lemma step_weights t s l s1 l1 e :
  thread_step t s l = Step s1 l1 e →
  pc l1 ≠ C_wait → pc l ≠ P_signal →
  serves_consumers (pc l)
    + (if decide (pc l = P_inc) then 1 else 0)
    - (if decide (pc l = C_dec) then 1 else 0)
  <= serves_consumers (pc l1).
Proof.
  unfold CondVar.thread_step.
  destruct (pc l) eqn:Hp; repeat case_match; intros; simplify_eq/=; done.
Qed.

Lemma step_weights_producers t s l s1 l1 e :
  thread_step t s l = Step s1 l1 e →
  pc l1 ≠ P_wait → pc l ≠ C_signal →
  serves_producers (pc l)
    - (if decide (pc l = P_inc) then 1 else 0)
    + (if decide (pc l = C_dec) then 1 else 0)
  <= serves_producers (pc l1).
Proof.
  unfold CondVar.thread_step.
  destruct (pc l) eqn:Hp; repeat case_match; intros; simplify_eq/=; done.
Qed.

Lemma signal_step t s l s1 l1 e :
  thread_step t s l = Step s1 l1 e →
  (pc l = P_signal → pc l1 = P_unlock ∧ s1 = s) ∧
  (pc l = C_signal → pc l1 = C_unlock ∧ s1 = s).
Proof.
  unfold CondVar.thread_step.
  destruct (pc l) eqn:Hp; repeat case_match; intros; simplify_eq/=; done.
Qed.

Lemma wake_ok_step b tr c tk c' e :
  CondVar.inv BUFFER_SIZE tr c → wake_ok c → sched_step b tk c = Some (c', e) →
  wake_ok c'.
Proof.
  intros Hinv [HwC HwP] Hs.
  apply sig_step_inv in Hs as (l & s1 & l1 & Hl & Hst & _ & ->).
  set (t := tk.1) in *. set (k := tk.2) in *.
  pose proof (count_step _ _ _ _ _ _ _ Hinv Hl Hst) as Hcount.
  pose proof (to_sleep _ _ _ _ _ _ Hst) as [HsC HsP].
  pose proof (signal_step _ _ _ _ _ _ Hst) as [HgP HgC].
  pose proof (cv_tally_insert serves_consumers _ _ _ l1 Hl) as HtC.
  pose proof (cv_tally_insert serves_producers _ _ _ l1 Hl) as HtP.
  assert (HnC : 0 <= tally serves_consumers (<[t := l1]> (threads c)))
    by (apply cv_total_nonneg; intros; apply serves_consumers_range).
  assert (HnP : 0 <= tally serves_producers (<[t := l1]> (threads c)))
    by (apply cv_total_nonneg; intros; apply serves_producers_range).
  assert (Hc : 0 <= count (sh c) <= BUFFER_SIZE)
    by (eapply count_bound; eauto).
  constructor; simpl.
  - (* a consumer sleeps *)
    intros Hsl.
    destruct (decide (pc l = P_signal)) as [Hp|Hp].
    + destruct (HgP Hp) as [Hp1 ->]. rewrite Hp in *.
      destruct (signal_spec C_wait C_relock k (<[t := l1]> (threads c)))
        as [[Hnone Heq]|(u & lu & Hu & Hpu & Heq)]; rewrite Heq in *.
      * destruct Hsl as (u & lu & Hu & Hpu). by destruct (Hnone u lu Hu).
      * rewrite (cv_tally_insert _ _ _ _ _ Hu), HtC, Hpu, Hp1. simpl.
        assert (Hwas : ∃ u lu, threads c !! u = Some lu ∧ pc lu = C_wait).
        { destruct (at_insert C_wait _ _ _ (ex_intro _ u (ex_intro _ lu
                      (conj Hu Hpu)))) as [H|H]; [congruence|done]. }
        specialize (HwC Hwas). lia.
    + assert (Hthreads :
        match pc l with
        | P_signal => signal C_wait C_relock k (<[t := l1]> (threads c))
        | C_signal => signal P_wait P_relock k (<[t := l1]> (threads c))
        | _ => <[t := l1]> (threads c)
        end
        = (if decide (pc l = C_signal)
           then signal P_wait P_relock k (<[t := l1]> (threads c))
           else <[t := l1]> (threads c))) by (destruct (pc l); done).
      rewrite Hthreads in *. clear Hthreads.
      destruct (decide (pc l = C_signal)) as [Hq|Hq].
      * destruct (HgC Hq) as [Hp1 ->]. rewrite Hq in *.
        destruct (signal_spec P_wait P_relock k (<[t := l1]> (threads c)))
          as [[Hnone Heq]|(u & lu & Hu & Hpu & Heq)]; rewrite Heq in *.
        -- destruct (at_insert C_wait _ _ _ Hsl) as [H|H]; [congruence|].
           specialize (HwC H). rewrite HtC, Hp1. simpl. lia.
        -- destruct (at_insert C_wait _ _ _ Hsl) as [H|H]; [done|].
           destruct (at_insert C_wait _ _ _ H) as [H'|H']; [congruence|].
           specialize (HwC H').
           rewrite (cv_tally_insert _ _ _ _ _ Hu), HtC, Hpu, Hp1. simpl. lia.
      * destruct (at_insert C_wait _ _ _ Hsl) as [H|H].
        -- destruct (HsC H) as [Hz Hpc]. rewrite Hpc in Hcount.
           simpl in Hcount. lia.
        -- specialize (HwC H).
           destruct (decide (pc l1 = C_wait)) as [Hw|Hw].
           ++ destruct (HsC Hw) as [Hz Hpc]. rewrite Hpc in Hcount.
              simpl in Hcount. lia.
           ++ pose proof (step_weights _ _ _ _ _ _ Hst Hw Hp). lia.
  - (* a producer sleeps *)
    intros Hsl.
    destruct (decide (pc l = C_signal)) as [Hp|Hp].
    + destruct (HgC Hp) as [Hp1 ->]. rewrite Hp in *.
      destruct (signal_spec P_wait P_relock k (<[t := l1]> (threads c)))
        as [[Hnone Heq]|(u & lu & Hu & Hpu & Heq)]; rewrite Heq in *.
      * destruct Hsl as (u & lu & Hu & Hpu). by destruct (Hnone u lu Hu).
      * rewrite (cv_tally_insert _ _ _ _ _ Hu), HtP, Hpu, Hp1. simpl.
        assert (Hwas : ∃ u lu, threads c !! u = Some lu ∧ pc lu = P_wait).
        { destruct (at_insert P_wait _ _ _ (ex_intro _ u (ex_intro _ lu
                      (conj Hu Hpu)))) as [H|H]; [congruence|done]. }
        specialize (HwP Hwas). lia.
    + assert (Hthreads :
        match pc l with
        | P_signal => signal C_wait C_relock k (<[t := l1]> (threads c))
        | C_signal => signal P_wait P_relock k (<[t := l1]> (threads c))
        | _ => <[t := l1]> (threads c)
        end
        = (if decide (pc l = P_signal)
           then signal C_wait C_relock k (<[t := l1]> (threads c))
           else <[t := l1]> (threads c))) by (destruct (pc l); done).
      rewrite Hthreads in *. clear Hthreads.
      destruct (decide (pc l = P_signal)) as [Hq|Hq].
      * destruct (HgP Hq) as [Hp1 ->]. rewrite Hq in *.
        destruct (signal_spec C_wait C_relock k (<[t := l1]> (threads c)))
          as [[Hnone Heq]|(u & lu & Hu & Hpu & Heq)]; rewrite Heq in *.
        -- destruct (at_insert P_wait _ _ _ Hsl) as [H|H]; [congruence|].
           specialize (HwP H). rewrite HtP, Hp1. simpl. lia.
        -- destruct (at_insert P_wait _ _ _ Hsl) as [H|H]; [done|].
           destruct (at_insert P_wait _ _ _ H) as [H'|H']; [congruence|].
           specialize (HwP H').
           rewrite (cv_tally_insert _ _ _ _ _ Hu), HtP, Hpu, Hp1. simpl. lia.
      * destruct (at_insert P_wait _ _ _ Hsl) as [H|H].
        -- destruct (HsP H) as [Hz Hpc]. rewrite Hpc in Hcount.
           simpl in Hcount. lia.
        -- specialize (HwP H).
           destruct (decide (pc l1 = P_wait)) as [Hw|Hw].
           ++ destruct (HsP Hw) as [Hz Hpc]. rewrite Hpc in Hcount.
              simpl in Hcount. lia.
           ++ pose proof (step_weights_producers _ _ _ _ _ _ Hst Hw Hp). lia.
Qed.

Lemma sig_inv_step b ts0 tr c tk c' e :
  sig_inv ts0 tr c → sched_step b tk c = Some (c', e) → sig_inv ts0 (tr ++ e) c'.
Proof.
  intros [Hcv Hl Hw] Hs.
  destruct (sig_step_refines _ _ _ _ _ Hs) as (sched & Hrun & _).
  constructor.
  - eapply cv_inv_run; eauto.
  - eapply cv_loops_run; eauto.
  - eapply wake_ok_step; eauto.
Qed.

Lemma sig_inv_run b ts0 sched : ∀ tr c c' e,
  sig_inv ts0 tr c → run b sched c = Some (c', e) → sig_inv ts0 (tr ++ e) c'.
Proof.
  induction sched as [|tk sched IH]; intros tr c c' e Hinv Hr; simpl in Hr.
  - simplify_eq. by rewrite app_nil_r.
  - destruct (sched_step b tk c) as [[c1 e1]|] eqn:Hs; [|done].
    destruct (run b sched c1) as [[c2 e2]|] eqn:Hr1; [|done]. simplify_eq.
    rewrite app_assoc. eapply IH; [|done]. by eapply sig_inv_step.
Qed.

Lemma sig_inv_init ts : Forall created ts → sig_inv ts [] (init ts).
Proof.
  intros Hts. constructor.
  - by apply cv_inv_init.
  - by apply cv_loops_init.
  - rewrite Forall_lookup in Hts.
    constructor; intros (u & l & Hu & Hp); simpl in Hu;
      destruct (Hts u l Hu) as [H|H]; rewrite H in Hp; done.
Qed.

Lemma sig_inv_reach b ts sched c tr :
  Forall created ts → run b sched (init ts) = Some (c, tr) → sig_inv ts tr c.
Proof.
  intros Hts Hr.
  apply (sig_inv_run b ts sched [] (init ts) c tr); [|done].
  by apply sig_inv_init.
Qed.

(** A thread that cannot take a transition, when sleepers wake on a signal
    only: it has returned, it sleeps, or it waits for the mutex. *)
Lemma sig_stuck_thread tr c t l :
  CondVar.inv BUFFER_SIZE tr c → threads c !! t = Some l →
  sched_step false (t, 0%nat) c = None →
  (pc l = P_ret ∨ pc l = C_ret) ∨ (pc l = P_wait ∨ pc l = C_wait) ∨
  ((pc l = P_lock ∨ pc l = P_relock ∨ pc l = C_lock ∨ pc l = C_relock)
   ∧ mutex (sh c) ≠ None).
Proof.
  intros Hinv Hl Hs.
  assert (Hu : thread_step t (sh c) l ≠ Undefined)
    by (eapply cv_no_undefined; eauto).
  unfold Signals.sched_step, CondVar.sched_step in Hs. simpl in Hs.
  rewrite Hl in Hs.
  destruct (thread_step t (sh c) l) as [s' l' e| | |] eqn:Hstep; try done.
  - destruct (pc l); simplify_eq; auto.
  - unfold CondVar.thread_step in Hstep.
    destruct (pc l); repeat case_match; simplify_eq; auto 10.
  - unfold CondVar.thread_step in Hstep.
    destruct (pc l); repeat case_match; simplify_eq; auto.
Qed.

(** No configuration in which some thread has not returned is stuck,
    provided there are as many producers as consumers: no wake-up is
    lost. *)
Lemma sig_stuck_terminated ts0 tr c :
  sig_inv ts0 tr c → producers ts0 = consumers ts0 →
  (∀ t, sched_step false (t, 0%nat) c = None) → terminated c = true.
Proof.
  intros [Hcv Hl [HwC HwP]] Hpc Hstuck.
  destruct (cv_roles_kept _ _ _ _ Hl) as [HP HC].
  assert (Hst : ∀ t l, threads c !! t = Some l →
    (pc l = P_ret ∨ pc l = C_ret) ∨ (pc l = P_wait ∨ pc l = C_wait) ∨
    ((pc l = P_lock ∨ pc l = P_relock ∨ pc l = C_lock ∨ pc l = C_relock)
     ∧ mutex (sh c) ≠ None))
    by (intros t l Hlk; eapply sig_stuck_thread; eauto).
  assert (Hfree : mutex (sh c) = None).
  { apply (cv_mutex_free _ ts0 tr c (inv_mutex _ _ _ Hcv) Hl). intros t l Hlk.
    destruct (Hst t l Hlk) as [[->| ->]|[[->| ->]|[[->|[->|[->| ->]]] _]]];
      done. }
  assert (Hst' : ∀ t l, threads c !! t = Some l →
    (pc l = P_ret ∨ pc l = C_ret) ∨ pc l = P_wait ∨ pc l = C_wait).
  { intros t l Hlk. destruct (Hst t l Hlk) as [?|[?|[_ ?]]]; auto. done. }
  clear Hst.
  assert (Hz : ∀ f, f P_ret = 0 → f C_ret = 0 → f P_wait = 0 → f C_wait = 0 →
                    tally f (threads c) = 0).
  { intros f ? ? ? ?. apply cv_tally_zero. intros t l Hlk.
    destruct (Hst' t l Hlk) as [[->| ->]|[->| ->]]; done. }
  rewrite (Hz serves_consumers) in HwC by done.
  rewrite (Hz serves_producers) in HwP by done.
  assert (Hc : 0 <= count (sh c) <= BUFFER_SIZE) by (eapply count_bound; eauto).
  pose proof (inv_data _ _ _ Hcv) as Hd.
  unfold CondVar.data_inv, owner_pc in Hd. rewrite Hfree in Hd.
  destruct Hd as [_ _ _ Hcount _ _ _ _ _ _]. simpl in Hcount.
  rewrite (inv_puts _ _ _ _ Hl), (inv_takes _ _ _ _ Hl) in Hcount.
  set (K := CInt.div NUM_ITEMS 2) in *.
  assert (HbP : Forall (λ l, done_puts l
                  <= K * (if is_producer (pc l) then 1 else 0)) (threads c)).
  { apply Forall_lookup. intros t l Hlk.
    by apply (cv_done_bounds _ tr t), (inv_loop _ _ _ _ Hl). }
  assert (HbC : Forall (λ l, done_takes l
                  <= K * (if is_producer (pc l) then 0 else 1)) (threads c)).
  { apply Forall_lookup. intros t l Hlk.
    by apply (cv_done_bounds _ tr t), (inv_loop _ _ _ _ Hl). }
  pose proof (cv_total_le _ (λ p, if is_producer p then 1 else 0) _ _ HbP) as HleP.
  fold (producers (threads c)) in HleP.
  pose proof (cv_total_le _ (λ p, if is_producer p then 0 else 1) _ _ HbC) as HleC.
  fold (consumers (threads c)) in HleC.
  apply cv_terminated_spec. intros t l Hlk.
  destruct (Hst' t l Hlk) as [?|[Hp|Hp]]; [done|exfalso..].
  - (* a producer sleeps: the buffer is full, no consumer sleeps *)
    assert (Hfull : count (sh c) = BUFFER_SIZE) by (specialize (HwP (ex_intro _ t
              (ex_intro _ l (conj Hlk Hp)))); lia).
    assert (HR : total done_takes (threads c) = K * consumers (threads c)).
    { apply (cv_total_eq _ (λ p, if is_producer p then 0 else 1)), Forall_lookup.
      intros u lu Hu.
      destruct (inv_loop _ _ _ _ Hl u lu Hu) as [_ _ Hret _ _]. unfold done_takes.
      destruct (Hst' u lu Hu) as [[Hq|Hq]|[Hq|Hq]];
        rewrite Hq in *; simpl; [lia| |lia|].
      - rewrite Hret by auto. lia.
      - specialize (HwC (ex_intro _ u (ex_intro _ lu (conj Hu Hq)))). lia. }
    assert (HW : total done_puts (threads c) < K * producers (threads c)).
    { apply (cv_total_lt _ (λ p, if is_producer p then 1 else 0) _ _ t l HbP Hlk).
      destruct (inv_loop _ _ _ _ Hl t l Hlk) as [_ Hb _ _ _]. unfold done_puts.
      rewrite Hp in *. simpl. specialize (Hb eq_refl). lia. }
    lia.
  - (* a consumer sleeps: the buffer is empty, no producer sleeps *)
    assert (Hempty : count (sh c) = 0) by (specialize (HwC (ex_intro _ t
              (ex_intro _ l (conj Hlk Hp)))); lia).
    assert (HW : total done_puts (threads c) = K * producers (threads c)).
    { apply (cv_total_eq _ (λ p, if is_producer p then 1 else 0)), Forall_lookup.
      intros u lu Hu.
      destruct (inv_loop _ _ _ _ Hl u lu Hu) as [_ _ Hret _ _]. unfold done_puts.
      destruct (Hst' u lu Hu) as [[Hq|Hq]|[Hq|Hq]];
        rewrite Hq in *; simpl; [|lia| |lia].
      - rewrite Hret by auto. lia.
      - specialize (HwP (ex_intro _ u (ex_intro _ lu (conj Hu Hq)))). lia. }
    assert (HR : total done_takes (threads c) < K * consumers (threads c)).
    { apply (cv_total_lt _ (λ p, if is_producer p then 0 else 1) _ _ t l HbC Hlk).
      destruct (inv_loop _ _ _ _ Hl t l Hlk) as [_ Hb _ _ _]. unfold done_takes.
      rewrite Hp in *. simpl. specialize (Hb eq_refl). lia. }
    lia.
Qed.

Lemma sig_progress ts0 tr c :
  sig_inv ts0 tr c → producers ts0 = consumers ts0 → terminated c = false →
  ∃ t c' e, sched_step false (t, 0%nat) c = Some (c', e).
Proof.
  intros Hinv Hpc Hterm.
  destruct (decide (Exists (λ t, is_Some (sched_step false (t, 0%nat) c))
                      (seq 0 (length (threads c))))) as [Hex|Hno].
  - apply Exists_exists in Hex as (t & _ & [[c' e] Hs]). by exists t, c', e.
  - rewrite (sig_stuck_terminated ts0 tr c) in Hterm; [done..|].
    intros t. destruct (sched_step false (t, 0%nat) c) as [[c' e]|] eqn:Hs; [|done].
    exfalso. apply Hno, Exists_exists. exists t. split; [|by eexists].
    apply elem_of_seq. split; [lia|]. simpl.
    apply sig_step_inv in Hs as (l & _ & _ & Hlk & _).
    by apply lookup_lt_Some in Hlk.
Qed.

(** *** Termination when sleepers wake on a signal only *)

Lemma progress_step tr t s l s1 l1 e :
  loop_ok tr t l → thread_step t s l = Step s1 l1 e →
  progress l1
  = progress l
    + (if decide (pc l = P_signal ∨ pc l = C_signal) then 3
       else if decide (pc l = P_wait ∨ pc l = C_wait) then -2 else 1).
Proof.
  intros [Hr Hb _ _ _] Hst.
  pose proof (CIntFacts.wrap_range (Z.quot NUM_ITEMS 2)) as Hd.
  fold (CInt.div NUM_ITEMS 2) in Hd.
  unfold CondVar.thread_step in Hst.
  destruct l as [n j x p]; unfold progress in *; simpl in *.
  destruct p; repeat case_match; simplify_eq; simpl in *;
    try specialize (Hb eq_refl);
    rewrite ?CIntFacts.add_exact
      by (unfold CInt.in_range, CInt.INT_MIN, CInt.INT_MAX in *; lia);
    try lia;
    match goal with H : _ ∨ _ |- _ => by destruct H end.
Qed.

Lemma progress_bound tr t l :
  loop_ok tr t l →
  0 <= progress l <= 10 * CInt.div NUM_ITEMS 2 + 1 ∧
  (progress l = 10 * CInt.div NUM_ITEMS 2 + 1 ↔ pc l = P_ret ∨ pc l = C_ret).
Proof.
  intros [Hr Hb Hret _ _]. unfold progress.
  destruct (pc l) eqn:Hp; simpl in *; try specialize (Hb eq_refl);
    try specialize (Hret (or_introl eq_refl));
    try specialize (Hret (or_intror eq_refl));
    (split; [lia|]); (split; [intros ?; first [by auto | exfalso; lia]
                            | intros [|]; first [done | lia]]).
Qed.

Lemma progress_total ts0 tr c :
  linv ts0 tr c →
  total progress (threads c)
  <= (10 * CInt.div NUM_ITEMS 2 + 1) * Z.of_nat (length (threads c)) ∧
  (terminated c = false →
   total progress (threads c)
   < (10 * CInt.div NUM_ITEMS 2 + 1) * Z.of_nat (length (threads c))).
Proof.
  intros Hinv. rewrite <- cv_tally_length.
  assert (Hb : Forall (λ l, progress l
                 <= (10 * CInt.div NUM_ITEMS 2 + 1) * (λ _ : loc, 1) (pc l))
                 (threads c)).
  { apply Forall_lookup. intros t l Hl.
    pose proof (progress_bound tr t l (inv_loop _ _ _ _ Hinv t l Hl)). lia. }
  split; [by apply cv_total_le|].
  intros Hterm.
  destruct (cv_not_terminated c Hterm) as (t & l & Hl & Hnr).
  apply (cv_total_lt _ (λ _, 1) _ _ t l Hb Hl).
  pose proof (progress_bound tr t l (inv_loop _ _ _ _ Hinv t l Hl)) as [? ?].
  destruct (decide (progress l = 10 * CInt.div NUM_ITEMS 2 + 1)); [|lia].
  tauto.
Qed.

Lemma sig_measure_step ts0 tr c tk c' e :
  sig_inv ts0 tr c → sched_step false tk c = Some (c', e) →
  total progress (threads c) + 1 <= total progress (threads c').
Proof.
  intros [_ Hl _] Hs.
  apply sig_step_inv in Hs as (l & s1 & l1 & Hlk & Hst & Hawake & ->).
  destruct (Hawake eq_refl) as [HnP HnC].
  pose proof (progress_step tr _ _ _ _ _ _ (inv_loop _ _ _ _ Hl _ l Hlk) Hst)
    as Hp.
  pose proof (cv_total_insert progress _ _ _ l1 Hlk) as Hins.
  rewrite (decide_False (P := pc l = P_wait ∨ pc l = C_wait)) in Hp by tauto.
  assert (Hsig : ∀ p q,
            (p = P_wait ∧ q = P_relock) ∨ (p = C_wait ∧ q = C_relock) →
            total progress (<[tk.1 := l1]> (threads c)) - 2
            <= total progress (signal p q tk.2 (<[tk.1 := l1]> (threads c)))).
  { intros p q Hpq.
    destruct (signal_spec p q tk.2 (<[tk.1 := l1]> (threads c)))
      as [[_ ->]|(u & lu & Hu & Hpu & ->)]; [lia|].
    rewrite (cv_total_insert _ _ _ _ _ Hu). unfold progress at 3 4. simpl.
    rewrite Hpu. destruct Hpq as [[-> ->]|[-> ->]]; simpl; lia. }
  simpl. destruct (pc l) eqn:Hpc; simpl in Hp;
    try (rewrite Hins; lia).
  - specialize (Hsig C_wait C_relock (or_intror (conj eq_refl eq_refl))). lia.
  - specialize (Hsig P_wait P_relock (or_introl (conj eq_refl eq_refl))). lia.
Qed.

Lemma sig_measure_run ts0 sched : ∀ tr c c' e,
  sig_inv ts0 tr c → run false sched c = Some (c', e) →
  total progress (threads c) + Z.of_nat (length sched)
  <= total progress (threads c').
Proof.
  induction sched as [|tk sched IH]; intros tr c c' e Hinv Hr; simpl in Hr.
  - simplify_eq. simpl. lia.
  - destruct (sched_step false tk c) as [[c1 e1]|] eqn:Hs; [|done].
    destruct (run false sched c1) as [[c2 e2]|] eqn:Hr1; [|done]. simplify_eq.
    pose proof (sig_measure_step _ _ _ _ _ _ Hinv Hs).
    pose proof (IH _ _ _ _ (sig_inv_step _ _ _ _ _ _ _ Hinv Hs) Hr1).
    simpl length. lia.
Qed.

Lemma sig_completion ts0 (n : nat) : ∀ tr c,
  sig_inv ts0 tr c → producers ts0 = consumers ts0 →
  (10 * CInt.div NUM_ITEMS 2 + 1) * Z.of_nat (length (threads c))
  - total progress (threads c) <= Z.of_nat n →
  ∃ sched c' e, run false sched c = Some (c', e) ∧ terminated c' = true.
Proof.
  induction n as [|n IH]; intros tr c Hinv Hpc Hn;
    destruct (progress_total ts0 tr c (si_loops _ _ _ _ _ Hinv)) as (Hle & Hlt);
    destruct (terminated c) eqn:Hterm;
    try (by exists [], c, []); try (specialize (Hlt eq_refl); lia).
  destruct (sig_progress ts0 tr c Hinv Hpc Hterm) as (t & c1 & e1 & Hs).
  pose proof (sig_inv_step _ _ _ _ _ _ _ Hinv Hs) as Hinv1.
  pose proof (sig_measure_step _ _ _ _ _ _ Hinv Hs) as Hm.
  assert (Hlen : length (threads c1) = length (threads c)).
  { rewrite (cv_threads_length _ _ _ _ (si_loops _ _ _ _ _ Hinv1)).
    by rewrite (cv_threads_length _ _ _ _ (si_loops _ _ _ _ _ Hinv)). }
  destruct (IH _ c1 Hinv1 Hpc) as (sched & c' & e & Hrun & Hdone).
  { rewrite Hlen. lia. }
  exists ((t, 0%nat) :: sched), c', (e1 ++ e). split; [|done].
  simpl. fold sched_step. by rewrite Hs, Hrun.
Qed.

End Facts.
End SignalsFacts.

(** ** The spurious-wakeup demonstration *)

Module WaitersFacts.
Import SpuriousWakeup Waiters SpuriousWakeupFacts.

Lemma main_ok_config tr c m w :
  main_ok tr c m w → c = Config (Shared (ready_of m) (owner m w)) [m; w].
Proof. intros []. destruct c as [[r mu] ts]. simpl in *. by subst. Qed.

Ltac main_cases Hok m w t :=
  pose proof (main_ok_config _ _ _ _ Hok) as ->;
  destruct Hok as [_ Hm Hw _ _ Hx Hp Hj Htr]; simpl in *;
  destruct m; try discriminate Hm;
  destruct w; try discriminate Hw;
  try discriminate (Hx eq_refl); try discriminate (Hp eq_refl);
  try discriminate (Hj eq_refl);
  simpl in Htr;
  try match type of Htr with ?x = [] => subst x end;
  destruct t as [|[|t]].


Lemma main_ok_init w :
  w = W_lock ∨ w = X_lock → main_ok [] (init [M_sleep; w]) M_sleep w.
Proof. intros [-> | ->]; by constructor. Qed.


(** One transition with its signal keeps the invariants. *)
Lemma waiters_step b tr c m w tk c' e :
  main_ok tr c m w → wake_ok b tr m w →
  Waiters.sched_step b tk c = Some (c', e) →
  ∃ m' w', main_ok (tr ++ e) c' m' w' ∧ wake_ok b (tr ++ e) m' w' ∧
           is_correct w' = is_correct w.
Proof.
  intros Hok [Hsl Hwr Htn] Hs. destruct tk as [t k].
  main_cases Hok m w t; simpl in Hsl;
    try discriminate (Hsl eq_refl);
    destruct b;
    try discriminate (Hwr eq_refl (or_introl eq_refl));
    try discriminate (Hwr eq_refl (or_intror eq_refl));
    vm_compute in Hs; simplify_eq;
    rewrite ?app_nil_r; simpl;
    eexists _, _;
    (split; [constructor; simpl; try done; auto|
     split; [constructor; simpl; try done; auto|done]]);
    simpl; auto 10;
    try (intros ? [|]; done); try (intros; discriminate).
Qed.

(** Without wake-ups of their own the threads move on. *)
Lemma waiters_step_measure tr c m w tk c' e :
  main_ok tr c m w → Waiters.sched_step false tk c = Some (c', e) →
  measure c + 1 <= measure c'.
Proof.
  intros Hok Hs. destruct tk as [t k].
  main_cases Hok m w t;
    vm_compute in Hs; simplify_eq; vm_compute; discriminate.
Qed.



Lemma waiters_inv_step b k tr c tk c' e :
  inv b k tr c → Waiters.sched_step b tk c = Some (c', e) →
  inv b k (tr ++ e) c'.
Proof.
  intros (m & w & Hok & Hwk & Hk) Hs.
  destruct (waiters_step _ _ _ _ _ _ _ _ Hok Hwk Hs)
    as (m' & w' & Hok' & Hwk' & Hk').
  exists m', w'. split_and!; [done|done|congruence].
Qed.

Lemma waiters_inv_run b k sched : ∀ tr c c' e,
  inv b k tr c → Waiters.run b sched c = Some (c', e) →
  inv b k (tr ++ e) c' ∧
  (b = false → measure c + Z.of_nat (length sched) <= measure c').
Proof.
  induction sched as [|tk sched IH]; intros tr c c' e Hinv Hr; simpl in Hr.
  - simplify_eq. rewrite app_nil_r. split; [done|]. simpl. lia.
  - destruct (Waiters.sched_step b tk c) as [[c1 e1]|] eqn:Hs; [|done].
    destruct (Waiters.run b sched c1) as [[c2 e2]|] eqn:Hr1; [|done].
    simplify_eq.
    pose proof (waiters_inv_step _ _ _ _ _ _ _ Hinv Hs) as Hinv1.
    destruct (IH _ _ _ _ Hinv1 Hr1) as [Hinv2 Hm2].
    rewrite app_assoc. split; [done|].
    intros ->. specialize (Hm2 eq_refl).
    destruct Hinv as (m & w & Hok & _).
    pose proof (waiters_step_measure _ _ _ _ _ _ _ Hok Hs).
    simpl length. lia.
Qed.

Lemma waiters_inv_init b w :
  w = W_lock ∨ w = X_lock → inv b (is_correct w) [] (init [M_sleep; w]).
Proof.
  intros Hw. exists M_sleep, w. split; [by apply main_ok_init|].
  split; [|done].
  destruct Hw as [-> | ->]; constructor; simpl; try done; by intros _ [|].
Qed.

Lemma waiters_inv_reach b w sched c tr :
  w = W_lock ∨ w = X_lock →
  Waiters.run b sched (init [M_sleep; w]) = Some (c, tr) →
  inv b (is_correct w) tr c ∧ (b = false → Z.of_nat (length sched) <= measure c).
Proof.
  intros Hw Hr.
  destruct (waiters_inv_run b _ sched [] _ _ _ (waiters_inv_init b w Hw) Hr)
    as [Hinv Hm].
  split; [done|]. intros Hb. specialize (Hm Hb).
  unfold measure in Hm at 1. simpl in Hm. destruct Hw as [-> | ->]; simpl in Hm; lia.
Qed.

(** The signal of [main] is not lost: until both threads have returned,
    one that is not asleep can take a transition. *)
Lemma waiters_progress b k tr c :
  inv b k tr c → terminated c = false →
  ∃ t c' e, Waiters.sched_step false (t, 0%nat) c = Some (c', e).
Proof.
  intros (m & w & Hok & [Hsl _ _] & _) Hterm.
  pose proof (main_ok_config _ _ _ _ Hok) as ->.
  destruct Hok as [_ Hm Hw _ _ Hx Hp Hj _]; simpl in *.
  destruct m; try discriminate Hm;
    destruct w; try discriminate Hw;
    try discriminate (Hx eq_refl); try discriminate (Hp eq_refl);
    try discriminate (Hj eq_refl); try discriminate Hterm;
    simpl in Hsl; try discriminate (Hsl eq_refl);
    first [ by (exists 0%nat; vm_compute; eauto)
          | by (exists 1%nat; vm_compute; eauto) ].
Qed.



End WaitersFacts.

(** ** Every item is delivered once *)

Module OnceFacts.
Import Items ItemsFacts.

(** Without overflow the items are [100 * id + i]. *)
Lemma items_of_exact n k :
  0 <= n <= 1000 → (k <= 1000)%nat →
  items_of n k = (λ j : nat, 100 * n + Z.of_nat j) <$> seq 0 k.
Proof.
  intros Hn Hk. unfold items_of. apply list_fmap_ext.
  intros i j Hj. apply lookup_seq in Hj as [-> Hj]. simpl.
  unfold item_of, CInt.mul. rewrite (CIntFacts.wrap_id (n * 100)).
  - rewrite CIntFacts.add_exact; [lia|].
    unfold CInt.in_range, CInt.INT_MIN, CInt.INT_MAX. lia.
  - unfold CInt.in_range, CInt.INT_MIN, CInt.INT_MAX. lia.
Qed.

(** The items of the two producers of [main] are pairwise different as
    long as a producer makes at most 100 of them. *)
Lemma items_main_NoDup k :
  (k <= 100)%nat → NoDup (items_of 1 k ++ items_of 2 k).
Proof.
  intros Hk. rewrite !items_of_exact by lia.
  apply NoDup_app. split_and!.
  - apply NoDup_fmap_2; [|apply NoDup_seq]. intros a b H. lia.
  - intros x Hx Hy.
    apply list_elem_of_fmap in Hx as (a & -> & Ha).
    apply list_elem_of_fmap in Hy as (b & Hb & Hb').
    apply elem_of_seq in Ha, Hb'. lia.
  - apply NoDup_fmap_2; [|apply NoDup_seq]. intros a b H. lia.
Qed.

End OnceFacts.

Module SemOnceFacts.
Import Semaphores Items SemLoops SemaphoresFacts SemLoopsFacts.

Lemma puts_by_sub t u tr : t ≠ u → puts_by t tr ++ puts_by u tr ⊆+ puts tr.
Proof.
  intros Hne. induction tr as [|[v x|v x] tr IH]; simpl; [done| |done].
  destruct (decide (v = t)) as [Ht|Ht]; destruct (decide (v = u)) as [Hu|Hu];
    simplify_eq.
  - simpl. by apply submseteq_skip.
  - rewrite <- Permutation_middle. by apply submseteq_skip.
  - by apply submseteq_cons.
Qed.

Lemma takes_by_sub t u tr : t ≠ u → takes_by t tr ++ takes_by u tr ⊆+ takes tr.
Proof.
  intros Hne. induction tr as [|[v x|v x] tr IH]; simpl; [done|done|].
  destruct (decide (v = t)) as [Ht|Ht]; destruct (decide (v = u)) as [Hu|Hu];
    simplify_eq.
  - simpl. by apply submseteq_skip.
  - rewrite <- Permutation_middle. by apply submseteq_skip.
  - by apply submseteq_cons.
Qed.

(** In [main] every store is made by thread 0 or 1 and every fetch by
    thread 2 or 3. *)
Lemma main_split BUFFER_SIZE NUM_ITEMS tr c :
  inv BUFFER_SIZE NUM_ITEMS main_threads tr c →
  puts tr ≡ₚ puts_by 0 tr ++ puts_by 1 tr ∧
  takes tr ≡ₚ takes_by 2 tr ++ takes_by 3 tr.
Proof.
  intros [_ Hl Hp Hc Hr]. destruct c as [s ts]. simpl in *.
  destruct ts as [|l0 [|l1 [|l2 [|l3 [|l4 ts]]]]]; try discriminate Hr.
  simpl in Hr. injection Hr as R0 R1 R2 R3.
  destruct (Hl 0%nat l0 eq_refl) as [_ _ _ A0 B0].
  destruct (Hl 1%nat l1 eq_refl) as [_ _ _ A1 B1].
  destruct (Hl 2%nat l2 eq_refl) as [_ _ _ A2 B2].
  destruct (Hl 3%nat l3 eq_refl) as [_ _ _ A3 B3].
  unfold done_puts, done_takes in *. simpl in Hp, Hc.
  rewrite R0, R1, R2, R3 in *.
  split; symmetry; apply submseteq_length_Permutation;
    try (by apply puts_by_sub); try (by apply takes_by_sub);
    rewrite length_app; lia.
Qed.

Lemma main_items BUFFER_SIZE NUM_ITEMS tr c :
  inv BUFFER_SIZE NUM_ITEMS main_threads tr c →
  (∀ t l, threads c !! t = Some l → producer_ok main_threads tr t l) →
  terminated c = true →
  puts_by 0 tr = items_of 1 (Z.to_nat (CInt.div NUM_ITEMS 2)) ∧
  puts_by 1 tr = items_of 2 (Z.to_nat (CInt.div NUM_ITEMS 2)).
Proof.
  intros [_ Hl _ _ Hr] Hitems Ht. destruct c as [s ts]. simpl in *.
  unfold terminated in Ht; simpl in Ht.
  destruct ts as [|l0 [|l1 [|l2 [|l3 [|l4 ts]]]]]; try discriminate Hr.
  simpl in Hr, Ht. injection Hr as R0 R1 R2 R3.
  apply andb_true_iff in Ht as [T0 Ht]. apply andb_true_iff in Ht as [T1 Ht].
  pose proof (returned_producer l0 T0 R0) as P0.
  pose proof (returned_producer l1 T1 R1) as P1.
  destruct (Hl 0%nat l0 eq_refl) as [_ _ I0 _ _].
  destruct (Hl 1%nat l1 eq_refl) as [_ _ I1 _ _].
  destruct (Hitems 0%nat l0 eq_refl) as [D0 _ E0].
  destruct (Hitems 1%nat l1 eq_refl) as [D1 _ E1].
  simpl in D0, D1. injection D0 as D0. injection D1 as D1.
  unfold done_puts in E0, E1. rewrite P0 in E0. rewrite P1 in E1.
  cbn [is_producer owes_full] in E0, E1.
  rewrite I0 in E0 by auto. rewrite I1 in E1 by auto.
  rewrite Z.add_0_r in E0, E1. rewrite <- D0 in E0. rewrite <- D1 in E1.
  exact (conj E0 E1).
Qed.

End SemOnceFacts.

Module CvOnceFacts.
Import CondVar Items CvLoops CondVarFacts CvLoopsFacts.

Lemma cv_puts_by_sub t u tr : t ≠ u → puts_by t tr ++ puts_by u tr ⊆+ puts tr.
Proof.
  intros Hne. induction tr as [|[v x|v x] tr IH]; simpl; [done| |done].
  destruct (decide (v = t)) as [Ht|Ht]; destruct (decide (v = u)) as [Hu|Hu];
    simplify_eq.
  - simpl. by apply submseteq_skip.
  - rewrite <- Permutation_middle. by apply submseteq_skip.
  - by apply submseteq_cons.
Qed.

Lemma cv_takes_by_sub t u tr :
  t ≠ u → takes_by t tr ++ takes_by u tr ⊆+ takes tr.
Proof.
  intros Hne. induction tr as [|[v x|v x] tr IH]; simpl; [done|done|].
  destruct (decide (v = t)) as [Ht|Ht]; destruct (decide (v = u)) as [Hu|Hu];
    simplify_eq.
  - simpl. by apply submseteq_skip.
  - rewrite <- Permutation_middle. by apply submseteq_skip.
  - by apply submseteq_cons.
Qed.

Lemma cv_main_split NUM_ITEMS tr c :
  CvLoops.inv NUM_ITEMS main_threads tr c →
  puts tr ≡ₚ puts_by 0 tr ++ puts_by 1 tr ∧
  takes tr ≡ₚ takes_by 2 tr ++ takes_by 3 tr.
Proof.
  intros [Hl _ Hp Hc Hr _]. destruct c as [s ts]. simpl in *.
  destruct ts as [|l0 [|l1 [|l2 [|l3 [|l4 ts]]]]]; try discriminate Hr.
  simpl in Hr. injection Hr as R0 R1 R2 R3.
  destruct (Hl 0%nat l0 eq_refl) as [_ _ _ A0 B0].
  destruct (Hl 1%nat l1 eq_refl) as [_ _ _ A1 B1].
  destruct (Hl 2%nat l2 eq_refl) as [_ _ _ A2 B2].
  destruct (Hl 3%nat l3 eq_refl) as [_ _ _ A3 B3].
  unfold done_puts, done_takes in *. simpl in Hp, Hc.
  rewrite R0, R1, R2, R3 in *.
  split; symmetry; apply submseteq_length_Permutation;
    try (by apply cv_puts_by_sub); try (by apply cv_takes_by_sub);
    rewrite length_app; lia.
Qed.

Lemma cv_main_items NUM_ITEMS tr c :
  CvLoops.inv NUM_ITEMS main_threads tr c → terminated c = true →
  puts_by 0 tr = items_of 1 (Z.to_nat (CInt.div NUM_ITEMS 2)) ∧
  puts_by 1 tr = items_of 2 (Z.to_nat (CInt.div NUM_ITEMS 2)).
Proof.
  intros [Hl Hitems _ _ Hr _] Ht. rewrite cv_terminated_spec in Ht.
  destruct c as [s ts]. simpl in *.
  destruct ts as [|l0 [|l1 [|l2 [|l3 [|l4 ts]]]]]; try discriminate Hr.
  simpl in Hr. injection Hr as R0 R1 R2 R3.
  assert (P0 : pc l0 = P_ret)
    by (destruct (Ht 0%nat l0 eq_refl) as [H|H]; [done|by rewrite H in R0]).
  assert (P1 : pc l1 = P_ret)
    by (destruct (Ht 1%nat l1 eq_refl) as [H|H]; [done|by rewrite H in R1]).
  destruct (Hl 0%nat l0 eq_refl) as [_ _ I0 _ _].
  destruct (Hl 1%nat l1 eq_refl) as [_ _ I1 _ _].
  destruct (Hitems 0%nat l0 eq_refl) as [D0 _ E0].
  destruct (Hitems 1%nat l1 eq_refl) as [D1 _ E1].
  simpl in D0, D1. injection D0 as D0. injection D1 as D1.
  unfold done_puts in E0, E1. rewrite P0 in E0. rewrite P1 in E1.
  cbn [is_producer has_stored] in E0, E1.
  rewrite I0 in E0 by auto. rewrite I1 in E1 by auto.
  rewrite Z.add_0_r in E0, E1. rewrite <- D0 in E0. rewrite <- D1 in E1.
  exact (conj E0 E1).
Qed.

End CvOnceFacts.

(** ** No signed overflow *)

Module ExactFacts.
Import Exact.

Lemma half_range n :
  0 <= n <= CInt.INT_MAX → 0 <= CInt.div n 2 <= 1073741823.
Proof.
  intros Hn. rewrite CIntFacts.div_exact by lia.
  unfold CInt.INT_MAX in Hn. split.
  - apply Z.div_pos; lia.
  - assert (n / 2 < 1073741824) by (apply Z.div_lt_upper_bound; lia). lia.
Qed.

Lemma cv_exact_reach BUFFER_SIZE NUM_ITEMS ts tr c t l :
  0 < BUFFER_SIZE <= CInt.INT_MAX → 0 <= NUM_ITEMS <= CInt.INT_MAX →
  Forall (λ l, small (CondVar.id l)) ts →
  CondVar.inv BUFFER_SIZE tr c → CvLoops.inv NUM_ITEMS ts tr c →
  CondVar.threads c !! t = Some l →
  cv_exact BUFFER_SIZE NUM_ITEMS (CondVar.sh c) l.
Proof.
  intros Hsize Hn Hids Hinv Hl Ht.
  pose proof (half_range _ Hn) as Hk.
  destruct (CvLoops.inv_loop _ _ _ _ Hl t l Ht) as [Hr Hb _ _ _].
  destruct (CvLoops.inv_items _ _ _ _ Hl t l Ht) as [Hid _ _].
  assert (Hsmall : small (CondVar.id l)).
  { destruct (ts !! t) as [l0|] eqn:E; [|done]. simpl in Hid.
    injection Hid as <-. rewrite Forall_lookup in Hids. by eapply Hids. }
  assert (Hc : 0 <= CondVar.in_ (CondVar.sh c) < BUFFER_SIZE ∧
               0 <= CondVar.out (CondVar.sh c) < BUFFER_SIZE ∧
               Z.of_nat (length (CondVar.buffer (CondVar.sh c))) = BUFFER_SIZE)
    by (eapply CondVarFacts.cv_cursor_range; eauto).
  assert (Hcount : 0 <= CondVar.count (CondVar.sh c) <= BUFFER_SIZE)
    by (eapply CondVarFacts.count_bound; eauto).
  unfold cv_exact, small, CInt.in_range, CInt.INT_MIN, CInt.INT_MAX in *.
  destruct (CondVar.pc l) eqn:Hp; simpl in Hb; try specialize (Hb eq_refl);
    try done; try lia.
  assert (Hd : CondVar.data_ok BUFFER_SIZE tr (CondVar.sh c)
                 (Some (CondVar.pc l)))
    by (eapply CondVarFacts.owner_pc_at; eauto; by rewrite Hp).
  destruct Hd as [_ _ _ Hcnt _ Hocc _ _ _ _]. rewrite Hp in Hcnt.
  simpl in Hcnt. lia.
Qed.

Lemma sem_exact_reach BUFFER_SIZE NUM_ITEMS ts tr c t l :
  0 < BUFFER_SIZE <= CInt.INT_MAX → 0 <= NUM_ITEMS <= CInt.INT_MAX →
  Forall (λ l, small (Semaphores.id l)) ts →
  Semaphores.inv BUFFER_SIZE NUM_ITEMS ts tr c →
  (∀ t l, Semaphores.threads c !! t = Some l → SemLoops.producer_ok ts tr t l) →
  Semaphores.threads c !! t = Some l →
  sem_exact BUFFER_SIZE NUM_ITEMS (Semaphores.sh c) l.
Proof.
  intros Hsize Hn Hids Hinv Hitems Ht.
  pose proof (half_range _ Hn) as Hk.
  destruct (Semaphores.inv_loop _ _ _ _ _ Hinv t l Ht) as [Hr Hb _ _ _].
  destruct (Hitems t l Ht) as [Hid _ _].
  assert (Hsmall : small (Semaphores.id l)).
  { destruct (ts !! t) as [l0|] eqn:E; [|done]. simpl in Hid.
    injection Hid as <-. rewrite Forall_lookup in Hids. by eapply Hids. }
  assert (Hc : 0 <= Semaphores.in_ (Semaphores.sh c) < BUFFER_SIZE ∧
               0 <= Semaphores.out (Semaphores.sh c) < BUFFER_SIZE ∧
               Z.of_nat (length (Semaphores.buffer (Semaphores.sh c)))
               = BUFFER_SIZE).
  { eapply SemaphoresFacts.sem_cursor_range; eauto.
    eapply Semaphores.inv_sem; eauto. }
  unfold sem_exact, small, CInt.in_range, CInt.INT_MIN, CInt.INT_MAX in *.
  destruct (Semaphores.pc l) eqn:Hp; simpl in Hb; try specialize (Hb eq_refl);
    try done; lia.
Qed.

End ExactFacts.

(** * Further properties *)

Ltac half_items := vm_compute; discriminate.

(** X1 (mutual exclusion by the [mutex] semaphore).  In every configuration
    the semaphore program can reach, for any created threads and any
    schedule: while one thread is between its [sem_wait(&mutex)] and its
    [sem_post(&mutex)], no other thread is, and [mutex] is 0. *)
Theorem semaphore_mutual_exclusion (BUFFER_SIZE NUM_ITEMS : Z)
    (ts : list Semaphores.local) (sched : list nat) (c : Semaphores.config)
    (tr : list Semaphores.event) (t u : nat) (l lu : Semaphores.local) :
  0 < BUFFER_SIZE <= CInt.INT_MAX →
  Forall Semaphores.created ts →
  Semaphores.run BUFFER_SIZE NUM_ITEMS sched (Semaphores.init BUFFER_SIZE ts)
    = Some (c, tr) →
  Semaphores.threads c !! t = Some l → Semaphores.threads c !! u = Some lu →
  t ≠ u →
  Semaphores.in_cs (Semaphores.pc l) = 1 →
  Semaphores.in_cs (Semaphores.pc lu) = 0 ∧
  Semaphores.mutex (Semaphores.sh c) = 0.
Proof.
  intros Hsize Hts Hrun Hl Hu Hne Hin.
  assert (Hok : Semaphores.sem_ok BUFFER_SIZE tr c)
    by (eapply SemaphoresFacts.sem_ok_reach; eauto).
  pose proof (SemaphoresFacts.tally_two Semaphores.in_cs _ _ _ _ _
                SemaphoresFacts.in_cs_range Hl Hu Hne) as Htwo.
  pose proof (Semaphores.so_mutex _ _ _ Hok).
  pose proof (Semaphores.so_mutex_pos _ _ _ Hok).
  pose proof (SemaphoresFacts.in_cs_range (Semaphores.pc lu)). lia.
Qed.

Lemma semaphore_mutual_exclusion_witness :
  0 < 5 <= CInt.INT_MAX ∧
  Forall Semaphores.created Semaphores.main_threads ∧
  Semaphores.run 5 15 [0; 0; 0]%nat (Semaphores.init 5 Semaphores.main_threads)
    = Some (Demo.sem_at_write, []) ∧
  Semaphores.threads Demo.sem_at_write !! 0%nat
    = Some (Semaphores.Local 1 0 100 Semaphores.P_write) ∧
  Semaphores.threads Demo.sem_at_write !! 1%nat
    = Some (Semaphores.producer 2) ∧
  Semaphores.mutex (Semaphores.sh Demo.sem_at_write) = 0.
Proof.
  assert (H1 : 0 < 5 <= CInt.INT_MAX) by capacity_ok.
  assert (H2 : Forall Semaphores.created Semaphores.main_threads)
    by threads_created.
  assert (H3 : Semaphores.run 5 15 [0; 0; 0]%nat
                 (Semaphores.init 5 Semaphores.main_threads)
               = Some (Demo.sem_at_write, [])) by (vm_compute; reflexivity).
  assert (H4 : Semaphores.threads Demo.sem_at_write !! 0%nat
               = Some (Semaphores.Local 1 0 100 Semaphores.P_write))
    by reflexivity.
  assert (H5 : Semaphores.threads Demo.sem_at_write !! 1%nat
               = Some (Semaphores.producer 2)) by reflexivity.
  repeat (split; [assumption|]).
  exact (proj2 (semaphore_mutual_exclusion 5 15 _ _ _ _ 0 1 _ _ H1 H2 H3 H4 H5
                  ltac:(lia) eq_refl)).
Defined.

(** X2 (permit accounting).  In every reachable configuration of the
    semaphore program the three semaphores stay in range, the number of
    occupied slots read off [full] and the locations is the number of
    stores minus the number of fetches and lies between 0 and
    [BUFFER_SIZE], and [empty], the permits producers hold and the slots
    consumers have not given back account for the rest; when no thread is
    inside an iteration, [empty + full = BUFFER_SIZE] and [mutex = 1]. *)
Theorem semaphore_permits (BUFFER_SIZE NUM_ITEMS : Z)
    (ts : list Semaphores.local) (sched : list nat) (c : Semaphores.config)
    (tr : list Semaphores.event) :
  0 < BUFFER_SIZE <= CInt.INT_MAX →
  Forall Semaphores.created ts →
  Semaphores.run BUFFER_SIZE NUM_ITEMS sched (Semaphores.init BUFFER_SIZE ts)
    = Some (c, tr) →
  0 <= Semaphores.empty (Semaphores.sh c) <= BUFFER_SIZE ∧
  0 <= Semaphores.full (Semaphores.sh c) <= BUFFER_SIZE ∧
  0 <= Semaphores.mutex (Semaphores.sh c) <= 1 ∧
  SemLoops.occupied c
    = Z.of_nat (length (Semaphores.puts tr))
      - Z.of_nat (length (Semaphores.takes tr)) ∧
  0 <= SemLoops.occupied c <= BUFFER_SIZE ∧
  Semaphores.empty (Semaphores.sh c)
    + Semaphores.tally Semaphores.has_empty (Semaphores.threads c)
    + Semaphores.tally Semaphores.owes_empty (Semaphores.threads c)
    + SemLoops.occupied c = BUFFER_SIZE ∧
  ((∀ t l, Semaphores.threads c !! t = Some l →
           Semaphores.busy (Semaphores.pc l) = false) →
   Semaphores.empty (Semaphores.sh c) + Semaphores.full (Semaphores.sh c)
     = BUFFER_SIZE ∧
   Semaphores.full (Semaphores.sh c) = SemLoops.occupied c ∧
   Semaphores.mutex (Semaphores.sh c) = 1).
Proof.
  intros Hsize Hts Hrun.
  assert (Hok : Semaphores.sem_ok BUFFER_SIZE tr c)
    by (eapply SemaphoresFacts.sem_ok_reach; eauto).
  destruct (SemaphoresFacts.permits_range _ _ _ Hok) as (He & Hf & Hm).
  pose proof (SemLoopsFacts.occupied_spec _ _ _ Hok) as Hocc.
  assert (Hrange : 0 <= Z.of_nat (length (Semaphores.puts tr))
                        - Z.of_nat (length (Semaphores.takes tr))
                   <= BUFFER_SIZE)
    by (eapply SemaphoresFacts.occupancy; eauto).
  pose proof (Semaphores.so_empty _ _ _ Hok) as Hsum.
  pose proof (Semaphores.so_mutex _ _ _ Hok) as Hmx.
  do 4 (split; [done|]). split; [lia|]. split; [lia|].
  intros Hidle.
  assert (Hz : ∀ f, f Semaphores.P_for = 0 → f Semaphores.P_ret = 0 →
                    f Semaphores.C_for = 0 → f Semaphores.C_ret = 0 →
                    Semaphores.tally f (Semaphores.threads c) = 0).
  { intros f ? ? ? ?. apply SemLoopsFacts.tally_zero. intros t l Hl.
    specialize (Hidle t l Hl). by destruct (Semaphores.pc l). }
  unfold SemLoops.occupied in *.
  rewrite (Hz Semaphores.has_empty), (Hz Semaphores.owes_empty) in Hsum by done.
  rewrite (Hz Semaphores.in_cs) in Hmx by done.
  rewrite (Hz Semaphores.has_full), (Hz Semaphores.owes_full) in * by done.
  lia.
Qed.

Lemma semaphore_permits_witness :
  0 < 5 <= CInt.INT_MAX ∧
  Forall Semaphores.created Semaphores.main_threads ∧
  Semaphores.run 5 15 Demo.sem_to_read
    (Semaphores.init 5 Semaphores.main_threads)
    = Some (Demo.sem_at_read, Demo.sem_read_trace) ∧
  SemLoops.occupied Demo.sem_at_read = 1 ∧
  0 <= SemLoops.occupied Demo.sem_at_read <= 5.
Proof.
  assert (H1 : 0 < 5 <= CInt.INT_MAX) by capacity_ok.
  assert (H2 : Forall Semaphores.created Semaphores.main_threads)
    by threads_created.
  assert (H3 : Semaphores.run 5 15 Demo.sem_to_read
                 (Semaphores.init 5 Semaphores.main_threads)
               = Some (Demo.sem_at_read, Demo.sem_read_trace))
    by (vm_compute; reflexivity).
  repeat (split; [assumption|]).
  pose proof (semaphore_permits 5 15 _ _ _ _ H1 H2 H3)
    as (_ & _ & _ & Hocc & Hrange & _).
  exact (conj Hocc Hrange).
Defined.

(** X3 (a store and a fetch change the occupancy by one).  From a
    producer's store to its [sem_post(&mutex)], whatever the other threads
    do meanwhile, the number of occupied slots goes up by exactly one, and
    it was below [BUFFER_SIZE]; from a consumer's fetch to its
    [sem_post(&mutex)] it goes down by exactly one, and it was above 0. *)
Theorem semaphore_occupancy_step (BUFFER_SIZE NUM_ITEMS : Z) :
  0 < BUFFER_SIZE <= CInt.INT_MAX →
  (∀ ts sched0 c tr t l sched c' e,
     Forall Semaphores.created ts →
     Semaphores.run BUFFER_SIZE NUM_ITEMS sched0
       (Semaphores.init BUFFER_SIZE ts) = Some (c, tr) →
     Semaphores.threads c !! t = Some l →
     Semaphores.pc l = Semaphores.P_write →
     Semaphores.run BUFFER_SIZE NUM_ITEMS sched c = Some (c', e) →
     Machine.turns t sched = 2%nat →
     SemLoops.occupied c < BUFFER_SIZE ∧
     SemLoops.occupied c' = SemLoops.occupied c + 1) ∧
  (∀ ts sched0 c tr t l sched c' e,
     Forall Semaphores.created ts →
     Semaphores.run BUFFER_SIZE NUM_ITEMS sched0
       (Semaphores.init BUFFER_SIZE ts) = Some (c, tr) →
     Semaphores.threads c !! t = Some l →
     Semaphores.pc l = Semaphores.C_read →
     Semaphores.run BUFFER_SIZE NUM_ITEMS sched c = Some (c', e) →
     Machine.turns t sched = 2%nat →
     0 < SemLoops.occupied c ∧
     SemLoops.occupied c' = SemLoops.occupied c - 1).
Proof.
  intros Hsize. split.
  - intros ts sched0 c tr t l sched c' e Hts Hrun0 Hl Hpc Hrun Hturns.
    assert (Hok : Semaphores.sem_ok BUFFER_SIZE tr c)
      by (eapply SemaphoresFacts.sem_ok_reach; eauto).
    assert (Hok' : Semaphores.sem_ok BUFFER_SIZE (tr ++ e) c')
      by (eapply SemLoopsFacts.sem_ok_run; eauto).
    rewrite (SemLoopsFacts.occupied_spec _ _ _ Hok),
      (SemLoopsFacts.occupied_spec _ _ _ Hok').
    pose proof Hrun as Hat.
    eapply SemaphoresFacts.sem_put_atomic in Hat
        as (Hroom & _ & _ & _ & _ & ->); eauto.
    rewrite SemaphoresFacts.sem_puts_app, SemaphoresFacts.sem_takes_app,
      !length_app. simpl. split; [done|]. lia.
  - intros ts sched0 c tr t l sched c' e Hts Hrun0 Hl Hpc Hrun Hturns.
    assert (Hok : Semaphores.sem_ok BUFFER_SIZE tr c)
      by (eapply SemaphoresFacts.sem_ok_reach; eauto).
    assert (Hok' : Semaphores.sem_ok BUFFER_SIZE (tr ++ e) c')
      by (eapply SemLoopsFacts.sem_ok_run; eauto).
    rewrite (SemLoopsFacts.occupied_spec _ _ _ Hok),
      (SemLoopsFacts.occupied_spec _ _ _ Hok').
    pose proof Hrun as Hat.
    eapply SemaphoresFacts.sem_take_atomic in Hat
        as (Hsome & x & _ & _ & _ & _ & _ & ->); eauto.
    rewrite SemaphoresFacts.sem_puts_app, SemaphoresFacts.sem_takes_app,
      !length_app. simpl. split; [done|]. lia.
Qed.

Lemma semaphore_occupancy_step_witness :
  0 < 5 <= CInt.INT_MAX ∧
  Forall Semaphores.created Semaphores.main_threads ∧
  Semaphores.run 5 15 [0; 0; 0]%nat (Semaphores.init 5 Semaphores.main_threads)
    = Some (Demo.sem_at_write, []) ∧
  Semaphores.threads Demo.sem_at_write !! 0%nat
    = Some (Semaphores.Local 1 0 100 Semaphores.P_write) ∧
  Semaphores.run 5 15 Demo.sem_put_section Demo.sem_at_write
    = Some (Demo.sem_after_put, [Semaphores.Put 0 100]) ∧
  Machine.turns 0 Demo.sem_put_section = 2%nat ∧
  SemLoops.occupied Demo.sem_after_put = SemLoops.occupied Demo.sem_at_write + 1.
Proof.
  assert (H1 : 0 < 5 <= CInt.INT_MAX) by capacity_ok.
  assert (H2 : Forall Semaphores.created Semaphores.main_threads)
    by threads_created.
  assert (H3 : Semaphores.run 5 15 [0; 0; 0]%nat
                 (Semaphores.init 5 Semaphores.main_threads)
               = Some (Demo.sem_at_write, [])) by (vm_compute; reflexivity).
  assert (H4 : Semaphores.threads Demo.sem_at_write !! 0%nat
               = Some (Semaphores.Local 1 0 100 Semaphores.P_write))
    by reflexivity.
  assert (H5 : Semaphores.run 5 15 Demo.sem_put_section Demo.sem_at_write
               = Some (Demo.sem_after_put, [Semaphores.Put 0 100]))
    by (vm_compute; reflexivity).
  assert (H6 : Machine.turns 0 Demo.sem_put_section = 2%nat) by reflexivity.
  repeat (split; [assumption|]).
  exact (proj2 (proj1 (semaphore_occupancy_step 5 15 H1)
                  _ _ _ _ _ _ _ _ _ H2 H3 H4 eq_refl H5 H6)).
Defined.

(** X4 (the buffer of the semaphore program is a queue).  In every
    reachable configuration the items fetched are a prefix of the items
    stored, and every item stored and not yet fetched sits in the buffer:
    the [k]-th item stored at index [k mod BUFFER_SIZE]. *)
Theorem semaphore_fifo_slots (BUFFER_SIZE NUM_ITEMS : Z)
    (ts : list Semaphores.local) (sched : list nat) (c : Semaphores.config)
    (tr : list Semaphores.event) :
  0 < BUFFER_SIZE <= CInt.INT_MAX →
  Forall Semaphores.created ts →
  Semaphores.run BUFFER_SIZE NUM_ITEMS sched (Semaphores.init BUFFER_SIZE ts)
    = Some (c, tr) →
  Semaphores.takes tr `prefix_of` Semaphores.puts tr ∧
  ∀ k : nat,
    (length (Semaphores.takes tr) <= k < length (Semaphores.puts tr))%nat →
    Semaphores.buffer (Semaphores.sh c) !! Z.to_nat (Z.of_nat k mod BUFFER_SIZE)
    = Semaphores.puts tr !! k.
Proof.
  intros Hsize Hts Hrun.
  assert (Hok : Semaphores.sem_ok BUFFER_SIZE tr c)
    by (eapply SemaphoresFacts.sem_ok_reach; eauto).
  split.
  - rewrite (Semaphores.so_fifo _ _ _ Hok). apply prefix_take.
  - exact (Semaphores.so_slots _ _ _ Hok).
Qed.

Lemma semaphore_fifo_slots_witness :
  0 < 5 <= CInt.INT_MAX ∧
  Forall Semaphores.created Semaphores.main_threads ∧
  Semaphores.run 5 15 Demo.sem_schedule
    (Semaphores.init 5 Semaphores.main_threads)
    = Some (Demo.sem_final, Demo.sem_trace) ∧
  Semaphores.takes Demo.sem_trace `prefix_of` Semaphores.puts Demo.sem_trace.
Proof.
  assert (H1 : 0 < 5 <= CInt.INT_MAX) by capacity_ok.
  assert (H2 : Forall Semaphores.created Semaphores.main_threads)
    by threads_created.
  assert (H3 : Semaphores.run 5 15 Demo.sem_schedule
                 (Semaphores.init 5 Semaphores.main_threads)
               = Some (Demo.sem_final, Demo.sem_trace))
    by (vm_compute; reflexivity).
  repeat (split; [assumption|]).
  exact (proj1 (semaphore_fifo_slots 5 15 _ _ _ _ H1 H2 H3)).
Defined.

(** X5 (no deadlock).  With as many producers as consumers, as in [main]:
    in every configuration the semaphore program can reach, either every
    thread has returned or some thread can take a transition. *)
Theorem semaphore_deadlock_free (BUFFER_SIZE NUM_ITEMS : Z)
    (ts : list Semaphores.local) (sched : list nat) (c : Semaphores.config)
    (tr : list Semaphores.event) :
  0 < BUFFER_SIZE <= CInt.INT_MAX →
  0 <= CInt.div NUM_ITEMS 2 →
  Forall Semaphores.created ts →
  SemLoops.producers ts = SemLoops.consumers ts →
  Semaphores.run BUFFER_SIZE NUM_ITEMS sched (Semaphores.init BUFFER_SIZE ts)
    = Some (c, tr) →
  Semaphores.terminated c = false →
  ∃ t, SemLoops.enabled BUFFER_SIZE NUM_ITEMS c t = true.
Proof.
  intros Hsize Hitems Hts Hpc Hrun Hterm.
  assert (Hinv : Semaphores.inv BUFFER_SIZE NUM_ITEMS ts tr c)
    by (eapply SemaphoresFacts.sem_inv_reach; eauto).
  edestruct SemLoopsFacts.progress as (t & c' & e & Hs); eauto.
  exists t. unfold SemLoops.enabled. apply bool_decide_eq_true. by eexists.
Qed.

Lemma semaphore_deadlock_free_witness :
  0 < 5 <= CInt.INT_MAX ∧
  0 <= CInt.div 15 2 ∧
  Forall Semaphores.created Semaphores.main_threads ∧
  SemLoops.producers Semaphores.main_threads
    = SemLoops.consumers Semaphores.main_threads ∧
  Semaphores.run 5 15 Demo.sem_to_read
    (Semaphores.init 5 Semaphores.main_threads)
    = Some (Demo.sem_at_read, Demo.sem_read_trace) ∧
  Semaphores.terminated Demo.sem_at_read = false ∧
  ∃ t, SemLoops.enabled 5 15 Demo.sem_at_read t = true.
Proof.
  assert (H1 : 0 < 5 <= CInt.INT_MAX) by capacity_ok.
  assert (H2 : 0 <= CInt.div 15 2) by half_items.
  assert (H3 : Forall Semaphores.created Semaphores.main_threads)
    by threads_created.
  assert (H4 : SemLoops.producers Semaphores.main_threads
               = SemLoops.consumers Semaphores.main_threads) by reflexivity.
  assert (H5 : Semaphores.run 5 15 Demo.sem_to_read
                 (Semaphores.init 5 Semaphores.main_threads)
               = Some (Demo.sem_at_read, Demo.sem_read_trace))
    by (vm_compute; reflexivity).
  assert (H6 : Semaphores.terminated Demo.sem_at_read = false) by reflexivity.
  repeat (split; [assumption|]).
  exact (semaphore_deadlock_free 5 15 _ _ _ _ H1 H2 H3 H4 H5 H6).
Defined.

(** The numbers have to match: a producer without a consumer fills the
    buffer and then waits in [sem_wait(&empty)] for ever. *)
Example lone_producer_blocks :
  ∃ c tr,
    Semaphores.run 1 4 [0; 0; 0; 0; 0; 0; 0; 0]%nat
      (Semaphores.init 1 [Semaphores.producer 1]) = Some (c, tr) ∧
    Semaphores.terminated c = false ∧
    SemLoops.enabled 1 4 c 0 = false ∧
    Semaphores.pc <$> Semaphores.threads c !! 0%nat
      = Some Semaphores.P_wait_empty.
Proof. do 2 eexists. split; [vm_compute; reflexivity|]. by vm_compute. Qed.

(** X6 (termination).  With as many producers as consumers: a run of the
    semaphore program from its initial configuration makes at most
    [7 * (NUM_ITEMS / 2) + 1] transitions per thread, it has made exactly
    that many when and only when every thread has returned, and it can
    always be continued to a configuration in which every thread has
    returned. *)
Theorem semaphore_terminates (BUFFER_SIZE NUM_ITEMS : Z)
    (ts : list Semaphores.local) (sched : list nat) (c : Semaphores.config)
    (tr : list Semaphores.event) :
  0 < BUFFER_SIZE <= CInt.INT_MAX →
  0 <= CInt.div NUM_ITEMS 2 →
  Forall Semaphores.created ts →
  SemLoops.producers ts = SemLoops.consumers ts →
  Semaphores.run BUFFER_SIZE NUM_ITEMS sched (Semaphores.init BUFFER_SIZE ts)
    = Some (c, tr) →
  Z.of_nat (length sched)
    <= (7 * CInt.div NUM_ITEMS 2 + 1) * Z.of_nat (length ts) ∧
  (Semaphores.terminated c = true ↔
   Z.of_nat (length sched)
     = (7 * CInt.div NUM_ITEMS 2 + 1) * Z.of_nat (length ts)) ∧
  ∃ sched' c' e,
    Semaphores.run BUFFER_SIZE NUM_ITEMS sched' c = Some (c', e) ∧
    Semaphores.terminated c' = true.
Proof.
  intros Hsize Hitems Hts Hpc Hrun.
  assert (Hinv0 : Semaphores.inv BUFFER_SIZE NUM_ITEMS ts []
                    (Semaphores.init BUFFER_SIZE ts))
    by (eapply SemaphoresFacts.sem_inv_init; eauto).
  assert (Hinv : Semaphores.inv BUFFER_SIZE NUM_ITEMS ts tr c)
    by (eapply SemaphoresFacts.sem_inv_reach; eauto).
  assert (Hsteps : Semaphores.total SemLoops.steps_done (Semaphores.threads c)
                   = Z.of_nat (length sched)).
  { assert (H0 : Semaphores.total SemLoops.steps_done (Semaphores.threads c)
                 = Semaphores.total SemLoops.steps_done
                     (Semaphores.threads (Semaphores.init BUFFER_SIZE ts))
                   + Z.of_nat (length sched))
      by (eapply SemLoopsFacts.steps_run; eauto).
    simpl in H0. rewrite (SemLoopsFacts.steps_created ts Hts) in H0. lia. }
  assert (Hlen : length (Semaphores.threads c) = length ts)
    by (eapply SemLoopsFacts.threads_length; eauto).
  edestruct SemLoopsFacts.steps_total as (Hle & Hlt & Heq); eauto.
  rewrite Hsteps, Hlen in *.
  split; [done|]. split.
  - split; [done|]. intros E.
    destruct (Semaphores.terminated c); [done|]. specialize (Hlt eq_refl). lia.
  - eapply SemLoopsFacts.completion
      with (n := Z.to_nat ((7 * CInt.div NUM_ITEMS 2 + 1)
                           * Z.of_nat (length ts))); eauto.
    rewrite Hlen, Hsteps. lia.
Qed.

Lemma semaphore_terminates_witness :
  0 < 5 <= CInt.INT_MAX ∧
  0 <= CInt.div 15 2 ∧
  Forall Semaphores.created Semaphores.main_threads ∧
  SemLoops.producers Semaphores.main_threads
    = SemLoops.consumers Semaphores.main_threads ∧
  Semaphores.run 5 15 Demo.sem_schedule
    (Semaphores.init 5 Semaphores.main_threads)
    = Some (Demo.sem_final, Demo.sem_trace) ∧
  Z.of_nat (length Demo.sem_schedule)
    <= (7 * CInt.div 15 2 + 1) * Z.of_nat (length Semaphores.main_threads).
Proof.
  assert (H1 : 0 < 5 <= CInt.INT_MAX) by capacity_ok.
  assert (H2 : 0 <= CInt.div 15 2) by half_items.
  assert (H3 : Forall Semaphores.created Semaphores.main_threads)
    by threads_created.
  assert (H4 : SemLoops.producers Semaphores.main_threads
               = SemLoops.consumers Semaphores.main_threads) by reflexivity.
  assert (H5 : Semaphores.run 5 15 Demo.sem_schedule
                 (Semaphores.init 5 Semaphores.main_threads)
               = Some (Demo.sem_final, Demo.sem_trace))
    by (vm_compute; reflexivity).
  repeat (split; [assumption|]).
  exact (proj1 (semaphore_terminates 5 15 _ _ _ _ H1 H2 H3 H4 H5)).
Defined.

(** X7 (what a finished run leaves behind).  With as many producers as
    consumers, when every thread of the semaphore program has returned:
    every item stored has been fetched, in the order of the stores; each
    producer stored [NUM_ITEMS / 2] items; the semaphores are back at
    their initial values; and the two cursors coincide. *)
Theorem semaphore_final_state (BUFFER_SIZE NUM_ITEMS : Z)
    (ts : list Semaphores.local) (sched : list nat) (c : Semaphores.config)
    (tr : list Semaphores.event) :
  0 < BUFFER_SIZE <= CInt.INT_MAX →
  0 <= CInt.div NUM_ITEMS 2 →
  Forall Semaphores.created ts →
  SemLoops.producers ts = SemLoops.consumers ts →
  Semaphores.run BUFFER_SIZE NUM_ITEMS sched (Semaphores.init BUFFER_SIZE ts)
    = Some (c, tr) →
  Semaphores.terminated c = true →
  Semaphores.takes tr = Semaphores.puts tr ∧
  Z.of_nat (length (Semaphores.puts tr))
    = CInt.div NUM_ITEMS 2 * SemLoops.producers ts ∧
  Semaphores.empty (Semaphores.sh c) = BUFFER_SIZE ∧
  Semaphores.full (Semaphores.sh c) = 0 ∧
  Semaphores.mutex (Semaphores.sh c) = 1 ∧
  Semaphores.in_ (Semaphores.sh c)
    = Z.of_nat (length (Semaphores.puts tr)) mod BUFFER_SIZE ∧
  Semaphores.out (Semaphores.sh c) = Semaphores.in_ (Semaphores.sh c).
Proof.
  intros Hsize Hitems Hts Hpc Hrun Hterm.
  assert (Hinv : Semaphores.inv BUFFER_SIZE NUM_ITEMS ts tr c)
    by (eapply SemaphoresFacts.sem_inv_reach; eauto).
  eapply SemLoopsFacts.final_state; eauto.
Qed.

Lemma semaphore_final_state_witness :
  0 < 5 <= CInt.INT_MAX ∧
  0 <= CInt.div 15 2 ∧
  Forall Semaphores.created Semaphores.main_threads ∧
  SemLoops.producers Semaphores.main_threads
    = SemLoops.consumers Semaphores.main_threads ∧
  Semaphores.run 5 15 Demo.sem_schedule
    (Semaphores.init 5 Semaphores.main_threads)
    = Some (Demo.sem_final, Demo.sem_trace) ∧
  Semaphores.terminated Demo.sem_final = true ∧
  Semaphores.takes Demo.sem_trace = Semaphores.puts Demo.sem_trace.
Proof.
  assert (H1 : 0 < 5 <= CInt.INT_MAX) by capacity_ok.
  assert (H2 : 0 <= CInt.div 15 2) by half_items.
  assert (H3 : Forall Semaphores.created Semaphores.main_threads)
    by threads_created.
  assert (H4 : SemLoops.producers Semaphores.main_threads
               = SemLoops.consumers Semaphores.main_threads) by reflexivity.
  assert (H5 : Semaphores.run 5 15 Demo.sem_schedule
                 (Semaphores.init 5 Semaphores.main_threads)
               = Some (Demo.sem_final, Demo.sem_trace))
    by (vm_compute; reflexivity).
  assert (H6 : Semaphores.terminated Demo.sem_final = true) by reflexivity.
  repeat (split; [assumption|]).
  exact (proj1 (semaphore_final_state 5 15 _ _ _ _ H1 H2 H3 H4 H5 H6)).
Defined.

(** X8 (the items of a producer).  In every reachable configuration of the
    semaphore program a producer thread still has the [id] it was created
    with, and the items it has stored so far are [id * 100 + 0],
    [id * 100 + 1], ... in this order, one for each iteration it has got
    past its store in; once it has returned these are [NUM_ITEMS / 2]
    items. *)
Theorem semaphore_producer_items (BUFFER_SIZE NUM_ITEMS : Z)
    (ts : list Semaphores.local) (sched : list nat) (c : Semaphores.config)
    (tr : list Semaphores.event) (t : nat) (l : Semaphores.local) :
  0 < BUFFER_SIZE <= CInt.INT_MAX →
  0 <= CInt.div NUM_ITEMS 2 →
  Forall Semaphores.created ts →
  Semaphores.run BUFFER_SIZE NUM_ITEMS sched (Semaphores.init BUFFER_SIZE ts)
    = Some (c, tr) →
  Semaphores.threads c !! t = Some l →
  Semaphores.is_producer (Semaphores.pc l) = true →
  Semaphores.id <$> ts !! t = Some (Semaphores.id l) ∧
  Semaphores.puts_by t tr
    = Items.items_of (Semaphores.id l)
        (Z.to_nat (Semaphores.done_puts l)) ∧
  (∀ n x, Semaphores.puts_by t tr !! n = Some x →
          x = CInt.add (CInt.mul (Semaphores.id l) 100) (Z.of_nat n)) ∧
  (Semaphores.pc l = Semaphores.P_ret →
   Semaphores.puts_by t tr
     = Items.items_of (Semaphores.id l)
         (Z.to_nat (CInt.div NUM_ITEMS 2))).
Proof.
  intros Hsize Hitems Hts Hrun Hl Hprod.
  assert (Hinv : Semaphores.inv BUFFER_SIZE NUM_ITEMS ts tr c)
    by (eapply SemaphoresFacts.sem_inv_reach; eauto).
  assert (Hp : SemLoops.producer_ok ts tr t l)
    by (eapply SemLoopsFacts.items_reach; eauto).
  destruct Hp as [Hid _ Hputs].
  split; [done|]. split; [done|]. split.
  - intros n x Hn. rewrite Hputs in Hn.
    assert (Hlt : (n < Z.to_nat (Semaphores.done_puts l))%nat).
    { apply lookup_lt_Some in Hn. by rewrite ItemsFacts.items_of_length in Hn. }
    rewrite ItemsFacts.items_of_lookup in Hn by done. by simplify_eq.
  - intros Hret. rewrite Hputs. unfold Semaphores.done_puts.
    rewrite Hret. simpl.
    destruct (Semaphores.inv_loop _ _ _ _ _ Hinv t l Hl) as [_ _ Hi _ _].
    rewrite Hi by auto. by rewrite Z.add_0_r.
Qed.

Lemma semaphore_producer_items_witness :
  0 < 5 <= CInt.INT_MAX ∧
  0 <= CInt.div 15 2 ∧
  Forall Semaphores.created Semaphores.main_threads ∧
  Semaphores.run 5 15 Demo.sem_schedule
    (Semaphores.init 5 Semaphores.main_threads)
    = Some (Demo.sem_final, Demo.sem_trace) ∧
  Semaphores.threads Demo.sem_final !! 1%nat
    = Some (Semaphores.Local 2 7 206 Semaphores.P_ret) ∧
  Semaphores.puts_by 1 Demo.sem_trace = [200; 201; 202; 203; 204; 205; 206].
Proof.
  assert (H1 : 0 < 5 <= CInt.INT_MAX) by capacity_ok.
  assert (H2 : 0 <= CInt.div 15 2) by half_items.
  assert (H3 : Forall Semaphores.created Semaphores.main_threads)
    by threads_created.
  assert (H4 : Semaphores.run 5 15 Demo.sem_schedule
                 (Semaphores.init 5 Semaphores.main_threads)
               = Some (Demo.sem_final, Demo.sem_trace))
    by (vm_compute; reflexivity).
  assert (H5 : Semaphores.threads Demo.sem_final !! 1%nat
               = Some (Semaphores.Local 2 7 206 Semaphores.P_ret))
    by reflexivity.
  repeat (split; [assumption|]).
  exact (proj2 (proj2 (proj2
           (semaphore_producer_items 5 15 _ _ _ _ 1 _ H1 H2 H3 H4 H5 eq_refl)))
           eq_refl).
Defined.

(** X9 (mutual exclusion by the mutex).  In every configuration the
    condition-variable program can reach, for any created threads and any
    schedule, wake-ups without a signal included: while one thread is
    between [pthread_mutex_lock] and [pthread_mutex_unlock], not asleep in
    [pthread_cond_wait], it owns the mutex and no other thread is there. *)
Theorem condvar_mutual_exclusion (BUFFER_SIZE NUM_ITEMS : Z)
    (ts : list CondVar.local) (sched : list nat) (c : CondVar.config)
    (tr : list CondVar.event) (t u : nat) (l lu : CondVar.local) :
  0 < BUFFER_SIZE <= CInt.INT_MAX →
  Forall CondVar.created ts →
  CondVar.run BUFFER_SIZE NUM_ITEMS sched (CondVar.init BUFFER_SIZE ts)
    = Some (c, tr) →
  CondVar.threads c !! t = Some l → CondVar.threads c !! u = Some lu →
  t ≠ u →
  CondVar.holds (CondVar.pc l) = true →
  CondVar.holds (CondVar.pc lu) = false ∧
  CondVar.mutex (CondVar.sh c) = Some t.
Proof.
  intros Hsize Hts Hrun Hl Hu Hne Hin.
  assert (Hinv : CondVar.inv BUFFER_SIZE tr c)
    by (eapply CondVarFacts.cv_inv_reach; eauto).
  pose proof (CondVar.inv_mutex _ _ _ Hinv) as Hm.
  pose proof (proj2 (Hm t l Hl) Hin) as Ht.
  split; [|done].
  destruct (CondVar.holds (CondVar.pc lu)) eqn:Hh; [|done].
  pose proof (proj2 (Hm u lu Hu) Hh) as Hu'. congruence.
Qed.

Lemma condvar_mutual_exclusion_witness :
  0 < 5 <= CInt.INT_MAX ∧
  Forall CondVar.created CondVar.main_threads ∧
  CondVar.run 5 20 [0; 0; 0]%nat (CondVar.init 5 CondVar.main_threads)
    = Some (Demo.cv_at_write, []) ∧
  CondVar.threads Demo.cv_at_write !! 0%nat
    = Some (CondVar.Local 1 0 100 CondVar.P_write) ∧
  CondVar.threads Demo.cv_at_write !! 1%nat = Some (CondVar.producer 2) ∧
  CondVar.mutex (CondVar.sh Demo.cv_at_write) = Some 0%nat.
Proof.
  assert (H1 : 0 < 5 <= CInt.INT_MAX) by capacity_ok.
  assert (H2 : Forall CondVar.created CondVar.main_threads) by threads_created.
  assert (H3 : CondVar.run 5 20 [0; 0; 0]%nat
                 (CondVar.init 5 CondVar.main_threads)
               = Some (Demo.cv_at_write, [])) by (vm_compute; reflexivity).
  assert (H4 : CondVar.threads Demo.cv_at_write !! 0%nat
               = Some (CondVar.Local 1 0 100 CondVar.P_write)) by reflexivity.
  assert (H5 : CondVar.threads Demo.cv_at_write !! 1%nat
               = Some (CondVar.producer 2)) by reflexivity.
  repeat (split; [assumption|]).
  exact (proj2 (condvar_mutual_exclusion 5 20 _ _ _ _ 0 1 _ _ H1 H2 H3 H4 H5
                  ltac:(lia) eq_refl)).
Defined.

(** X10 (the buffer of the condition-variable program).  In every
    reachable configuration every item stored and not yet fetched sits in
    the buffer, the [k]-th item stored at index [k mod BUFFER_SIZE]; and
    whenever the mutex is free, [count] is the number of stores minus the
    number of fetches, [in] the number of stores and [out] the number of
    fetches modulo [BUFFER_SIZE]. *)
Theorem condvar_buffer_contents (BUFFER_SIZE NUM_ITEMS : Z)
    (ts : list CondVar.local) (sched : list nat) (c : CondVar.config)
    (tr : list CondVar.event) :
  0 < BUFFER_SIZE <= CInt.INT_MAX →
  Forall CondVar.created ts →
  CondVar.run BUFFER_SIZE NUM_ITEMS sched (CondVar.init BUFFER_SIZE ts)
    = Some (c, tr) →
  (∀ k : nat,
     (length (CondVar.takes tr) <= k < length (CondVar.puts tr))%nat →
     CondVar.buffer (CondVar.sh c) !! Z.to_nat (Z.of_nat k mod BUFFER_SIZE)
     = CondVar.puts tr !! k) ∧
  (CondVar.mutex (CondVar.sh c) = None →
   CondVar.count (CondVar.sh c)
     = Z.of_nat (length (CondVar.puts tr))
       - Z.of_nat (length (CondVar.takes tr)) ∧
   CondVar.in_ (CondVar.sh c)
     = Z.of_nat (length (CondVar.puts tr)) mod BUFFER_SIZE ∧
   CondVar.out (CondVar.sh c)
     = Z.of_nat (length (CondVar.takes tr)) mod BUFFER_SIZE).
Proof.
  intros Hsize Hts Hrun.
  assert (Hinv : CondVar.inv BUFFER_SIZE tr c)
    by (eapply CondVarFacts.cv_inv_reach; eauto).
  pose proof (CondVar.inv_data _ _ _ Hinv) as Hd.
  unfold CondVar.data_inv in Hd. split.
  - exact (CondVar.ok_slots _ _ _ _ Hd).
  - intros Hfree. unfold CondVar.owner_pc in Hd. rewrite Hfree in Hd.
    destruct Hd as [_ Hin Hout Hcount _ _ _ _ _ _]. simpl in *.
    rewrite Z.sub_0_r in Hin, Hout. rewrite Z.add_0_r in Hcount. done.
Qed.

Lemma condvar_buffer_contents_witness :
  0 < 5 <= CInt.INT_MAX ∧
  Forall CondVar.created CondVar.main_threads ∧
  CondVar.run 5 20 Demo.cv_to_read (CondVar.init 5 CondVar.main_threads)
    = Some (Demo.cv_at_read, Demo.cv_read_trace) ∧
  CondVar.buffer (CondVar.sh Demo.cv_at_read) !! 0%nat
    = CondVar.puts Demo.cv_read_trace !! 0%nat.
Proof.
  assert (H1 : 0 < 5 <= CInt.INT_MAX) by capacity_ok.
  assert (H2 : Forall CondVar.created CondVar.main_threads) by threads_created.
  assert (H3 : CondVar.run 5 20 Demo.cv_to_read
                 (CondVar.init 5 CondVar.main_threads)
               = Some (Demo.cv_at_read, Demo.cv_read_trace))
    by (vm_compute; reflexivity).
  repeat (split; [assumption|]).
  exact (proj1 (condvar_buffer_contents 5 20 _ _ _ _ H1 H2 H3) 0%nat
           ltac:(vm_compute; lia)).
Defined.

(** X11 (what a finished run leaves behind).  When every thread of the
    condition-variable program has returned: each has made
    [NUM_ITEMS / 2] iterations, the producers together that many stores
    each and the consumers that many fetches each, the mutex is free, and
    [count], [in] and [out] are the counts of stores and fetches; with as
    many producers as consumers, as in [main], every item stored has been
    fetched, in the order of the stores, [count] is 0 and the cursors
    coincide. *)
Theorem condvar_final_state (BUFFER_SIZE NUM_ITEMS : Z)
    (ts : list CondVar.local) (sched : list nat) (c : CondVar.config)
    (tr : list CondVar.event) :
  0 < BUFFER_SIZE <= CInt.INT_MAX →
  0 <= CInt.div NUM_ITEMS 2 →
  Forall CondVar.created ts →
  CondVar.run BUFFER_SIZE NUM_ITEMS sched (CondVar.init BUFFER_SIZE ts)
    = Some (c, tr) →
  CvLoops.terminated c = true →
  Forall (λ l, CondVar.i l = CInt.div NUM_ITEMS 2) (CondVar.threads c) ∧
  Z.of_nat (length (CondVar.puts tr))
    = CInt.div NUM_ITEMS 2 * CvLoops.producers ts ∧
  Z.of_nat (length (CondVar.takes tr))
    = CInt.div NUM_ITEMS 2 * CvLoops.consumers ts ∧
  CondVar.mutex (CondVar.sh c) = None ∧
  CondVar.count (CondVar.sh c)
    = Z.of_nat (length (CondVar.puts tr))
      - Z.of_nat (length (CondVar.takes tr)) ∧
  CondVar.in_ (CondVar.sh c)
    = Z.of_nat (length (CondVar.puts tr)) mod BUFFER_SIZE ∧
  CondVar.out (CondVar.sh c)
    = Z.of_nat (length (CondVar.takes tr)) mod BUFFER_SIZE ∧
  (CvLoops.producers ts = CvLoops.consumers ts →
   CondVar.takes tr = CondVar.puts tr ∧
   CondVar.count (CondVar.sh c) = 0 ∧
   CondVar.out (CondVar.sh c) = CondVar.in_ (CondVar.sh c)).
Proof.
  intros Hsize Hitems Hts Hrun Hterm.
  assert (Hinv : CondVar.inv BUFFER_SIZE tr c)
    by (eapply CondVarFacts.cv_inv_reach; eauto).
  assert (Hl : CvLoops.inv NUM_ITEMS ts tr c)
    by (eapply CvLoopsFacts.cv_loops_reach; eauto).
  eapply CvLoopsFacts.cv_final_state; eauto.
Qed.

Lemma condvar_final_state_witness :
  0 < 5 <= CInt.INT_MAX ∧
  0 <= CInt.div 20 2 ∧
  Forall CondVar.created CondVar.main_threads ∧
  CondVar.run 5 20 Demo.cv_schedule (CondVar.init 5 CondVar.main_threads)
    = Some (Demo.cv_final, Demo.cv_trace) ∧
  CvLoops.terminated Demo.cv_final = true ∧
  CondVar.takes Demo.cv_trace = CondVar.puts Demo.cv_trace ∧
  CondVar.count (CondVar.sh Demo.cv_final) = 0.
Proof.
  assert (H1 : 0 < 5 <= CInt.INT_MAX) by capacity_ok.
  assert (H2 : 0 <= CInt.div 20 2) by half_items.
  assert (H3 : Forall CondVar.created CondVar.main_threads) by threads_created.
  assert (H4 : CondVar.run 5 20 Demo.cv_schedule
                 (CondVar.init 5 CondVar.main_threads)
               = Some (Demo.cv_final, Demo.cv_trace))
    by (vm_compute; reflexivity).
  assert (H5 : CvLoops.terminated Demo.cv_final = true) by reflexivity.
  repeat (split; [assumption|]).
  pose proof (condvar_final_state 5 20 _ _ _ _ H1 H2 H3 H4 H5)
    as (_ & _ & _ & _ & _ & _ & _ & Heq).
  destruct (Heq eq_refl) as (Ha & Hb & _).
  exact (conj Ha Hb).
Defined.

(** X12 (the items of a producer).  In every reachable configuration of
    the condition-variable program a producer thread still has the [id] it
    was created with, and the items it has stored so far are
    [id * 100 + 0], [id * 100 + 1], ... in this order; once it has
    returned these are [NUM_ITEMS / 2] items. *)
Theorem condvar_producer_items (BUFFER_SIZE NUM_ITEMS : Z)
    (ts : list CondVar.local) (sched : list nat) (c : CondVar.config)
    (tr : list CondVar.event) (t : nat) (l : CondVar.local) :
  0 < BUFFER_SIZE <= CInt.INT_MAX →
  0 <= CInt.div NUM_ITEMS 2 →
  Forall CondVar.created ts →
  CondVar.run BUFFER_SIZE NUM_ITEMS sched (CondVar.init BUFFER_SIZE ts)
    = Some (c, tr) →
  CondVar.threads c !! t = Some l →
  CvLoops.is_producer (CondVar.pc l) = true →
  CondVar.id <$> ts !! t = Some (CondVar.id l) ∧
  CvLoops.puts_by t tr
    = Items.items_of (CondVar.id l) (Z.to_nat (CvLoops.done_puts l)) ∧
  (∀ n x, CvLoops.puts_by t tr !! n = Some x →
          x = CInt.add (CInt.mul (CondVar.id l) 100) (Z.of_nat n)) ∧
  (CondVar.pc l = CondVar.P_ret →
   CvLoops.puts_by t tr
     = Items.items_of (CondVar.id l) (Z.to_nat (CInt.div NUM_ITEMS 2))).
Proof.
  intros Hsize Hitems Hts Hrun Hl Hprod.
  assert (Hinv : CvLoops.inv NUM_ITEMS ts tr c)
    by (eapply CvLoopsFacts.cv_loops_reach; eauto).
  destruct (CvLoops.inv_items _ _ _ _ Hinv t l Hl) as [Hid _ Hputs].
  split; [done|]. split; [done|]. split.
  - intros n x Hn. rewrite Hputs in Hn.
    assert (Hlt : (n < Z.to_nat (CvLoops.done_puts l))%nat).
    { apply lookup_lt_Some in Hn. by rewrite ItemsFacts.items_of_length in Hn. }
    rewrite ItemsFacts.items_of_lookup in Hn by done. by simplify_eq.
  - intros Hret. rewrite Hputs. unfold CvLoops.done_puts.
    rewrite Hret. simpl.
    destruct (CvLoops.inv_loop _ _ _ _ Hinv t l Hl) as [_ _ Hi _ _].
    rewrite Hi by auto. by rewrite Z.add_0_r.
Qed.

Lemma condvar_producer_items_witness :
  0 < 5 <= CInt.INT_MAX ∧
  0 <= CInt.div 20 2 ∧
  Forall CondVar.created CondVar.main_threads ∧
  CondVar.run 5 20 Demo.cv_schedule (CondVar.init 5 CondVar.main_threads)
    = Some (Demo.cv_final, Demo.cv_trace) ∧
  CondVar.threads Demo.cv_final !! 0%nat
    = Some (CondVar.Local 1 10 109 CondVar.P_ret) ∧
  CvLoops.puts_by 0 Demo.cv_trace
    = [100; 101; 102; 103; 104; 105; 106; 107; 108; 109].
Proof.
  assert (H1 : 0 < 5 <= CInt.INT_MAX) by capacity_ok.
  assert (H2 : 0 <= CInt.div 20 2) by half_items.
  assert (H3 : Forall CondVar.created CondVar.main_threads) by threads_created.
  assert (H4 : CondVar.run 5 20 Demo.cv_schedule
                 (CondVar.init 5 CondVar.main_threads)
               = Some (Demo.cv_final, Demo.cv_trace))
    by (vm_compute; reflexivity).
  assert (H5 : CondVar.threads Demo.cv_final !! 0%nat
               = Some (CondVar.Local 1 10 109 CondVar.P_ret)) by reflexivity.
  repeat (split; [assumption|]).
  exact (proj2 (proj2 (proj2
           (condvar_producer_items 5 20 _ _ _ _ 0 _ H1 H2 H3 H4 H5 eq_refl)))
           eq_refl).
Defined.

(** X13 (signals refine the model with free wake-ups).  A run of the
    condition-variable program in which each [pthread_cond_signal] wakes a
    sleeper, with or without further wake-ups, is a run of the program in
    which sleepers wake at any time: same final configuration, same
    accesses to the buffer, at most twice as many transitions.  So what
    holds in every configuration reachable there holds with signals. *)
Theorem signals_refine (BUFFER_SIZE NUM_ITEMS : Z) (spurious : bool)
    (sched : list (nat * nat)) (c c' : CondVar.config)
    (tr : list CondVar.event) :
  Signals.run BUFFER_SIZE NUM_ITEMS spurious sched c = Some (c', tr) →
  ∃ sched',
    CondVar.run BUFFER_SIZE NUM_ITEMS sched' c = Some (c', tr) ∧
    (length sched <= length sched' <= 2 * length sched)%nat.
Proof. apply SignalsFacts.sig_run_refines. Qed.

Lemma signals_refine_witness :
  Signals.run 5 20 false SignalsDemo.schedule Demo.cv_start
    = Some (SignalsDemo.final, SignalsDemo.trace) ∧
  ∃ sched',
    CondVar.run 5 20 sched' Demo.cv_start
      = Some (SignalsDemo.final, SignalsDemo.trace) ∧
    (length SignalsDemo.schedule <= length sched'
     <= 2 * length SignalsDemo.schedule)%nat.
Proof.
  assert (H1 : Signals.run 5 20 false SignalsDemo.schedule Demo.cv_start
               = Some (SignalsDemo.final, SignalsDemo.trace))
    by (vm_compute; reflexivity).
  split; [assumption|].
  exact (signals_refine 5 20 false _ _ _ _ H1).
Defined.

(** X14 (no lost wake-up, no deadlock).  With as many producers as
    consumers, as in [main]: in every configuration the
    condition-variable program can reach, with each
    [pthread_cond_signal] waking a sleeper and with or without further
    wake-ups, either every thread has returned or some thread that is not
    asleep in [pthread_cond_wait] can take a transition.  While a consumer
    sleeps, [count] is at most the number of threads that are going to
    take an item or to signal [not_empty]; while a producer sleeps, the
    number of free slots is at most the number of threads that are going
    to put an item or to signal [not_full]. *)
Theorem signals_deadlock_free (BUFFER_SIZE NUM_ITEMS : Z) (spurious : bool)
    (ts : list CondVar.local) (sched : list (nat * nat)) (c : CondVar.config)
    (tr : list CondVar.event) :
  0 < BUFFER_SIZE <= CInt.INT_MAX →
  0 <= CInt.div NUM_ITEMS 2 →
  Forall CondVar.created ts →
  Signals.run BUFFER_SIZE NUM_ITEMS spurious sched (CondVar.init BUFFER_SIZE ts)
    = Some (c, tr) →
  Signals.wake_ok BUFFER_SIZE c ∧
  (CvLoops.producers ts = CvLoops.consumers ts →
   CvLoops.terminated c = false →
   ∃ t c' e,
     Signals.sched_step BUFFER_SIZE NUM_ITEMS false (t, 0%nat) c = Some (c', e)).
Proof.
  intros Hsize Hitems Hts Hrun.
  assert (Hinv : Signals.sig_inv BUFFER_SIZE NUM_ITEMS ts tr c)
    by (eapply SignalsFacts.sig_inv_reach; eauto).
  split; [by destruct Hinv|].
  intros Hpc Hterm. eapply SignalsFacts.sig_progress; eauto.
Qed.

Lemma signals_deadlock_free_witness :
  0 < 5 <= CInt.INT_MAX ∧
  0 <= CInt.div 20 2 ∧
  Forall CondVar.created CondVar.main_threads ∧
  Signals.run 5 20 false SignalsDemo.to_signal
    (CondVar.init 5 CondVar.main_threads)
    = Some (SignalsDemo.at_signal, [CondVar.Put 0 100]) ∧
  CvLoops.terminated SignalsDemo.at_signal = false ∧
  ∃ t c' e,
    Signals.sched_step 5 20 false (t, 0%nat) SignalsDemo.at_signal
    = Some (c', e).
Proof.
  assert (H1 : 0 < 5 <= CInt.INT_MAX) by capacity_ok.
  assert (H2 : 0 <= CInt.div 20 2) by half_items.
  assert (H3 : Forall CondVar.created CondVar.main_threads) by threads_created.
  assert (H4 : Signals.run 5 20 false SignalsDemo.to_signal
                 (CondVar.init 5 CondVar.main_threads)
               = Some (SignalsDemo.at_signal, [CondVar.Put 0 100]))
    by (vm_compute; reflexivity).
  assert (H5 : CvLoops.terminated SignalsDemo.at_signal = false) by reflexivity.
  repeat (split; [assumption|]).
  exact (proj2 (signals_deadlock_free 5 20 false _ _ _ _ H1 H2 H3 H4)
           eq_refl H5).
Defined.

(** X15 (termination).  With as many producers as consumers and sleepers
    that wake on a signal only: a run of the condition-variable program
    from its initial configuration makes, all threads taken together, at
    most [(10 * (NUM_ITEMS / 2) + 1) * n] transitions, [n] the number of
    threads, and it can always be continued to a configuration in which
    every thread has returned.  The bound is on the total, not on the
    transitions of each thread. *)
Theorem signals_terminate (BUFFER_SIZE NUM_ITEMS : Z)
    (ts : list CondVar.local) (sched : list (nat * nat)) (c : CondVar.config)
    (tr : list CondVar.event) :
  0 < BUFFER_SIZE <= CInt.INT_MAX →
  0 <= CInt.div NUM_ITEMS 2 →
  Forall CondVar.created ts →
  CvLoops.producers ts = CvLoops.consumers ts →
  Signals.run BUFFER_SIZE NUM_ITEMS false sched (CondVar.init BUFFER_SIZE ts)
    = Some (c, tr) →
  Z.of_nat (length sched)
    <= (10 * CInt.div NUM_ITEMS 2 + 1) * Z.of_nat (length ts) ∧
  ∃ sched' c' e,
    Signals.run BUFFER_SIZE NUM_ITEMS false sched' c = Some (c', e) ∧
    CvLoops.terminated c' = true.
Proof.
  intros Hsize Hitems Hts Hpc Hrun.
  assert (Hinv0 : Signals.sig_inv BUFFER_SIZE NUM_ITEMS ts []
                    (CondVar.init BUFFER_SIZE ts))
    by (eapply SignalsFacts.sig_inv_init; eauto).
  assert (Hinv : Signals.sig_inv BUFFER_SIZE NUM_ITEMS ts tr c)
    by (eapply SignalsFacts.sig_inv_reach; eauto).
  assert (Hm : CvLoops.total CvLoops.progress
                 (CondVar.threads (CondVar.init BUFFER_SIZE ts))
               + Z.of_nat (length sched)
               <= CvLoops.total CvLoops.progress (CondVar.threads c))
    by (eapply SignalsFacts.sig_measure_run; eauto).
  simpl in Hm.
  assert (H0 : CvLoops.total CvLoops.progress ts = 0).
  { apply CvLoopsFacts.cv_total_zero. intros t l Hl.
    rewrite Forall_lookup in Hts. by destruct (Hts t l Hl) as [-> | ->]. }
  assert (Hlen : length (CondVar.threads c) = length ts).
  { eapply CvLoopsFacts.cv_threads_length. by destruct Hinv. }
  assert (Hl : CvLoops.inv NUM_ITEMS ts tr c) by (by destruct Hinv).
  edestruct SignalsFacts.progress_total as [Hle _]; eauto.
  rewrite Hlen in Hle. split; [lia|].
  eapply SignalsFacts.sig_completion
    with (n := Z.to_nat ((10 * CInt.div NUM_ITEMS 2 + 1)
                         * Z.of_nat (length ts))); eauto.
  rewrite Hlen. lia.
Qed.

Lemma signals_terminate_witness :
  0 < 5 <= CInt.INT_MAX ∧
  0 <= CInt.div 20 2 ∧
  Forall CondVar.created CondVar.main_threads ∧
  CvLoops.producers CondVar.main_threads
    = CvLoops.consumers CondVar.main_threads ∧
  Signals.run 5 20 false SignalsDemo.schedule
    (CondVar.init 5 CondVar.main_threads)
    = Some (SignalsDemo.final, SignalsDemo.trace) ∧
  Z.of_nat (length SignalsDemo.schedule)
    <= (10 * CInt.div 20 2 + 1) * Z.of_nat (length CondVar.main_threads).
Proof.
  assert (H1 : 0 < 5 <= CInt.INT_MAX) by capacity_ok.
  assert (H2 : 0 <= CInt.div 20 2) by half_items.
  assert (H3 : Forall CondVar.created CondVar.main_threads) by threads_created.
  assert (H4 : CvLoops.producers CondVar.main_threads
               = CvLoops.consumers CondVar.main_threads) by reflexivity.
  assert (H5 : Signals.run 5 20 false SignalsDemo.schedule
                 (CondVar.init 5 CondVar.main_threads)
               = Some (SignalsDemo.final, SignalsDemo.trace))
    by (vm_compute; reflexivity).
  repeat (split; [assumption|]).
  exact (proj1 (signals_terminate 5 20 _ _ _ _ H1 H2 H3 H4 H5)).
Defined.





(** X18 (the signal of [main] is not lost).  In every configuration [main]
    and its thread, [waiter_correct] or [waiter_wrong], can reach, with
    the signal waking the sleeper and with or without further wake-ups:
    while the waiter sleeps in [pthread_cond_wait], [main] has its
    [pthread_cond_signal] still to execute; and unless both have returned,
    one of them that is not asleep can take a transition. *)
Theorem waiter_signal_not_lost (spurious : bool) (w0 : SpuriousWakeup.loc)
    (sched : list (nat * nat)) (c : SpuriousWakeup.config)
    (tr : list SpuriousWakeup.event) :
  w0 = SpuriousWakeup.W_lock ∨ w0 = SpuriousWakeup.X_lock →
  Waiters.run spurious sched (SpuriousWakeup.init [SpuriousWakeup.M_sleep; w0])
    = Some (c, tr) →
  (∃ m w,
     SpuriousWakeup.threads c = [m; w] ∧
     (Waiters.sleeping w = true → Waiters.before_wake m = true)) ∧
  (Waiters.terminated c = false →
   ∃ t c' e, Waiters.sched_step false (t, 0%nat) c = Some (c', e)).
Proof.
  intros Hw Hrun.
  destruct (WaitersFacts.waiters_inv_reach _ _ _ _ _ Hw Hrun) as [Hinv _].
  split.
  - destruct Hinv as (m & w & Hok & [Hsl _ _] & _).
    exists m, w. split; [by destruct Hok|done].
  - intros Hterm. eapply WaitersFacts.waiters_progress; eauto.
Qed.

Lemma waiter_signal_not_lost_witness :
  Waiters.run false WaitersDemo.to_signal
    (SpuriousWakeup.init [SpuriousWakeup.M_sleep; SpuriousWakeup.W_lock])
    = Some (WaitersDemo.at_signal, []) ∧
  Waiters.terminated WaitersDemo.at_signal = false ∧
  ∃ t c' e,
    Waiters.sched_step false (t, 0%nat) WaitersDemo.at_signal = Some (c', e).
Proof.
  assert (H1 : Waiters.run false WaitersDemo.to_signal
                 (SpuriousWakeup.init
                    [SpuriousWakeup.M_sleep; SpuriousWakeup.W_lock])
               = Some (WaitersDemo.at_signal, []))
    by (vm_compute; reflexivity).
  assert (H2 : Waiters.terminated WaitersDemo.at_signal = false) by reflexivity.
  repeat (split; [assumption|]).
  exact (proj2 (waiter_signal_not_lost false _ _ _ _ (or_introl eq_refl) H1) H2).
Defined.



(** X20 (every item is delivered once, semaphores).  In every run of
    [main] of the semaphore program the stores are those of threads 0 and
    1 and the fetches those of threads 2 and 3, each access made by one
    of them; when all threads have returned, the items fetched are, up to
    their order, the items [100 .. ] of producer 1 and [200 .. ] of
    producer 2, [NUM_ITEMS / 2] of each, and as long as that number is at
    most 100 no item is fetched twice. *)
Theorem semaphore_exactly_once (BUFFER_SIZE NUM_ITEMS : Z)
    (sched : list nat) (c : Semaphores.config) (tr : list Semaphores.event) :
  0 < BUFFER_SIZE <= CInt.INT_MAX →
  0 <= CInt.div NUM_ITEMS 2 →
  Semaphores.run BUFFER_SIZE NUM_ITEMS sched
    (Semaphores.init BUFFER_SIZE Semaphores.main_threads) = Some (c, tr) →
  Semaphores.puts tr ≡ₚ Semaphores.puts_by 0 tr ++ Semaphores.puts_by 1 tr ∧
  Semaphores.takes tr ≡ₚ Semaphores.takes_by 2 tr ++ Semaphores.takes_by 3 tr ∧
  (Semaphores.terminated c = true →
   Semaphores.takes tr
     ≡ₚ Items.items_of 1 (Z.to_nat (CInt.div NUM_ITEMS 2))
        ++ Items.items_of 2 (Z.to_nat (CInt.div NUM_ITEMS 2)) ∧
   (CInt.div NUM_ITEMS 2 <= 100 → NoDup (Semaphores.takes tr))).
Proof.
  intros Hsize Hitems Hrun.
  assert (Hts : Forall Semaphores.created Semaphores.main_threads)
    by threads_created.
  assert (Hinv : Semaphores.inv BUFFER_SIZE NUM_ITEMS Semaphores.main_threads
                   tr c)
    by (eapply SemaphoresFacts.sem_inv_reach; eauto).
  destruct (SemOnceFacts.main_split _ _ _ _ Hinv) as [Hp Ht].
  split; [done|]. split; [done|]. intros Hterm.
  assert (Hfin : Semaphores.takes tr = Semaphores.puts tr)
    by (eapply SemLoopsFacts.final_state; eauto).
  assert (Hown : Semaphores.puts_by 0 tr
                 = Items.items_of 1 (Z.to_nat (CInt.div NUM_ITEMS 2)) ∧
                 Semaphores.puts_by 1 tr
                 = Items.items_of 2 (Z.to_nat (CInt.div NUM_ITEMS 2))).
  { eapply SemOnceFacts.main_items; eauto.
    eapply SemLoopsFacts.items_reach; eauto. }
  destruct Hown as [H0 H1].
  assert (Hperm : Semaphores.takes tr
                  ≡ₚ Items.items_of 1 (Z.to_nat (CInt.div NUM_ITEMS 2))
                     ++ Items.items_of 2 (Z.to_nat (CInt.div NUM_ITEMS 2)))
    by (by rewrite Hfin, Hp, H0, H1).
  split; [done|]. intros Hle. rewrite Hperm.
  apply OnceFacts.items_main_NoDup. lia.
Qed.

Lemma semaphore_exactly_once_witness :
  0 < 5 <= CInt.INT_MAX ∧
  0 <= CInt.div 15 2 ∧
  Semaphores.run 5 15 Demo.sem_schedule
    (Semaphores.init 5 Semaphores.main_threads)
    = Some (Demo.sem_final, Demo.sem_trace) ∧
  Semaphores.terminated Demo.sem_final = true ∧
  CInt.div 15 2 <= 100 ∧
  NoDup (Semaphores.takes Demo.sem_trace).
Proof.
  assert (H1 : 0 < 5 <= CInt.INT_MAX) by capacity_ok.
  assert (H2 : 0 <= CInt.div 15 2) by half_items.
  assert (H3 : Semaphores.run 5 15 Demo.sem_schedule
                 (Semaphores.init 5 Semaphores.main_threads)
               = Some (Demo.sem_final, Demo.sem_trace))
    by (vm_compute; reflexivity).
  assert (H4 : Semaphores.terminated Demo.sem_final = true) by reflexivity.
  assert (H5 : CInt.div 15 2 <= 100) by half_items.
  repeat (split; [assumption|]).
  exact (proj2 (proj2 (proj2 (semaphore_exactly_once 5 15 _ _ _ H1 H2 H3)) H4)
           H5).
Defined.

(** X21 (every item is delivered once, condition variables).  The same
    for [main] of the condition-variable program, sleepers waking at any
    time. *)
Theorem condvar_exactly_once (BUFFER_SIZE NUM_ITEMS : Z)
    (sched : list nat) (c : CondVar.config) (tr : list CondVar.event) :
  0 < BUFFER_SIZE <= CInt.INT_MAX →
  0 <= CInt.div NUM_ITEMS 2 →
  CondVar.run BUFFER_SIZE NUM_ITEMS sched
    (CondVar.init BUFFER_SIZE CondVar.main_threads) = Some (c, tr) →
  CondVar.puts tr ≡ₚ CvLoops.puts_by 0 tr ++ CvLoops.puts_by 1 tr ∧
  CondVar.takes tr ≡ₚ CvLoops.takes_by 2 tr ++ CvLoops.takes_by 3 tr ∧
  (CvLoops.terminated c = true →
   CondVar.takes tr
     ≡ₚ Items.items_of 1 (Z.to_nat (CInt.div NUM_ITEMS 2))
        ++ Items.items_of 2 (Z.to_nat (CInt.div NUM_ITEMS 2)) ∧
   (CInt.div NUM_ITEMS 2 <= 100 → NoDup (CondVar.takes tr))).
Proof.
  intros Hsize Hitems Hrun.
  assert (Hts : Forall CondVar.created CondVar.main_threads) by threads_created.
  assert (Hinv : CondVar.inv BUFFER_SIZE tr c)
    by (eapply CondVarFacts.cv_inv_reach; eauto).
  assert (Hl : CvLoops.inv NUM_ITEMS CondVar.main_threads tr c)
    by (eapply CvLoopsFacts.cv_loops_reach; eauto).
  destruct (CvOnceFacts.cv_main_split _ _ _ Hl) as [Hp Ht].
  split; [done|]. split; [done|]. intros Hterm.
  assert (Hfin : CondVar.takes tr = CondVar.puts tr).
  { edestruct CvLoopsFacts.cv_final_state as (_ & _ & _ & _ & _ & _ & _ & Heq);
      eauto. by destruct (Heq eq_refl). }
  destruct (CvOnceFacts.cv_main_items _ _ _ Hl Hterm) as [H0 H1].
  assert (Hperm : CondVar.takes tr
                  ≡ₚ Items.items_of 1 (Z.to_nat (CInt.div NUM_ITEMS 2))
                     ++ Items.items_of 2 (Z.to_nat (CInt.div NUM_ITEMS 2)))
    by (by rewrite Hfin, Hp, H0, H1).
  split; [done|]. intros Hle. rewrite Hperm.
  apply OnceFacts.items_main_NoDup. lia.
Qed.

Lemma condvar_exactly_once_witness :
  0 < 5 <= CInt.INT_MAX ∧
  0 <= CInt.div 20 2 ∧
  CondVar.run 5 20 Demo.cv_schedule (CondVar.init 5 CondVar.main_threads)
    = Some (Demo.cv_final, Demo.cv_trace) ∧
  CvLoops.terminated Demo.cv_final = true ∧
  CInt.div 20 2 <= 100 ∧
  NoDup (CondVar.takes Demo.cv_trace).
Proof.
  assert (H1 : 0 < 5 <= CInt.INT_MAX) by capacity_ok.
  assert (H2 : 0 <= CInt.div 20 2) by half_items.
  assert (H3 : CondVar.run 5 20 Demo.cv_schedule
                 (CondVar.init 5 CondVar.main_threads)
               = Some (Demo.cv_final, Demo.cv_trace))
    by (vm_compute; reflexivity).
  assert (H4 : CvLoops.terminated Demo.cv_final = true) by reflexivity.
  assert (H5 : CInt.div 20 2 <= 100) by half_items.
  repeat (split; [assumption|]).
  exact (proj2 (proj2 (proj2 (condvar_exactly_once 5 20 _ _ _ H1 H2 H3)) H4)
           H5).
Defined.

(** X22 (no signed overflow).  With [BUFFER_SIZE] and [NUM_ITEMS] positive
    [int] constants and thread ids of at most a million in absolute
    value, as in [main]: in every configuration either program can reach,
    the [int] arithmetic of the statement any thread executes next
    ([id * 100 + i], the increment of [in] and of [out], [count++],
    [count--], [i++]) gives the mathematical result, and
    [NUM_ITEMS / 2] is the mathematical quotient. *)
Theorem no_signed_overflow (BUFFER_SIZE NUM_ITEMS : Z) :
  0 < BUFFER_SIZE <= CInt.INT_MAX →
  0 <= NUM_ITEMS <= CInt.INT_MAX →
  CInt.div NUM_ITEMS 2 = NUM_ITEMS / 2 ∧
  (∀ ts sched c tr t l,
     Forall CondVar.created ts →
     Forall (λ l, Exact.small (CondVar.id l)) ts →
     CondVar.run BUFFER_SIZE NUM_ITEMS sched (CondVar.init BUFFER_SIZE ts)
       = Some (c, tr) →
     CondVar.threads c !! t = Some l →
     Exact.cv_exact BUFFER_SIZE NUM_ITEMS (CondVar.sh c) l) ∧
  (∀ ts sched c tr t l,
     Forall Semaphores.created ts →
     Forall (λ l, Exact.small (Semaphores.id l)) ts →
     Semaphores.run BUFFER_SIZE NUM_ITEMS sched (Semaphores.init BUFFER_SIZE ts)
       = Some (c, tr) →
     Semaphores.threads c !! t = Some l →
     Exact.sem_exact BUFFER_SIZE NUM_ITEMS (Semaphores.sh c) l).
Proof.
  intros Hsize Hn.
  pose proof (ExactFacts.half_range _ Hn) as Hk.
  split; [apply CIntFacts.div_exact; lia|]. split.
  - intros ts sched c tr t l Hts Hids Hrun Hl.
    eapply ExactFacts.cv_exact_reach; eauto.
    + eapply CondVarFacts.cv_inv_reach; eauto.
    + eapply CvLoopsFacts.cv_loops_reach; eauto. lia.
  - intros ts sched c tr t l Hts Hids Hrun Hl.
    eapply ExactFacts.sem_exact_reach; eauto.
    + eapply SemaphoresFacts.sem_inv_reach; eauto. lia.
    + eapply SemLoopsFacts.items_reach; eauto. lia.
Qed.

Lemma no_signed_overflow_witness :
  0 < 5 <= CInt.INT_MAX ∧
  0 <= 20 <= CInt.INT_MAX ∧
  Forall CondVar.created CondVar.main_threads ∧
  Forall (λ l, Exact.small (CondVar.id l)) CondVar.main_threads ∧
  CondVar.run 5 20 [0; 0; 0; 0; 0]%nat (CondVar.init 5 CondVar.main_threads)
    = Some (CondVar.Config
              (CondVar.Shared [100; 0; 0; 0; 0] 0 1 0 (Some 0%nat))
              [CondVar.Local 1 0 100 CondVar.P_inc; CondVar.producer 2;
               CondVar.consumer 1; CondVar.consumer 2],
            [CondVar.Put 0 100]) ∧
  CInt.in_range (0 + 1).
Proof.
  assert (H1 : 0 < 5 <= CInt.INT_MAX) by capacity_ok.
  assert (H2 : 0 <= 20 <= CInt.INT_MAX) by capacity_ok.
  assert (H3 : Forall CondVar.created CondVar.main_threads) by threads_created.
  assert (H4 : Forall (λ l, Exact.small (CondVar.id l)) CondVar.main_threads)
    by (repeat constructor; unfold Exact.small; simpl; lia).
  assert (H5 : CondVar.run 5 20 [0; 0; 0; 0; 0]%nat
                 (CondVar.init 5 CondVar.main_threads)
               = Some (CondVar.Config
                         (CondVar.Shared [100; 0; 0; 0; 0] 0 1 0 (Some 0%nat))
                         [CondVar.Local 1 0 100 CondVar.P_inc;
                          CondVar.producer 2; CondVar.consumer 1;
                          CondVar.consumer 2],
                       [CondVar.Put 0 100]))
    by (vm_compute; reflexivity).
  repeat (split; [assumption|]).
  exact (proj1 (proj2 (no_signed_overflow 5 20 H1 H2))
           _ _ _ _ 0%nat _ H3 H4 H5 eq_refl).
Defined.
